(** * Snake autopilot of gerd03/snakegame: a shallow embedding in Rocq

    Modelled sources:
    - [src/js/core/GridBounds.js]            : grid geometry
    - [src/js/ai/HamiltonianCycle.js]         : [HamiltonianCycle] and the
                                               [AIController] appended to it
    - [src/unnamed/part_005]                  : [Pathfinding] (A*, BFS and flood fill)

    Cells are pairs of JS integers, modelled as [Z]; JS [Set]s of cell keys
    [`${x},${z}`] are modelled by membership functions on cells (the key is
    injective on integer cells), JS [Map]s by partial functions, arrays by
    lists. *)

From Stdlib Require Import String QArith ZArith List Bool Lia Permutation Sorted Qround.
Import ListNotations.
Open Scope Z_scope.

(** ** Cells *)

Record cell := mkCell { cx : Z; cz : Z }.

Definition cell_eqb (a b : cell) : bool := (cx a =? cx b) && (cz a =? cz b).

Definition cell_eq_dec (a b : cell) : {a = b} + {a <> b}.
Proof. decide equality; apply Z.eq_dec. Defined.

(** [Set.has] over a list of cells (the [obstacles] arrays). *)
Definition mem (c : cell) (l : list cell) : bool := existsb (cell_eqb c) l.

Definition manhattan (a b : cell) : Z := Z.abs (cx a - cx b) + Z.abs (cz a - cz b).

(** ** GridBounds (src/js/core/GridBounds.js) *)

Record GridBounds := mkGrid { width : Z; height : Z; minX : Z; minZ : Z }.

Definition maxX (g : GridBounds) : Z := minX g + width g - 1.
Definition maxZ (g : GridBounds) : Z := minZ g + height g - 1.
Definition cellCount (g : GridBounds) : Z := width g * height g.

(** The constructor: it throws (here [None]) unless both dimensions are
    integers [>= 2]; absent [minX]/[minZ] default to [-floor(dim / 2)]. *)
Definition newGridBounds (w h : Z) (mx mz : option Z) : option GridBounds :=
  if (w <? 2) || (h <? 2) then None
  else Some (mkGrid w h
               (match mx with Some v => v | None => - (w / 2) end)
               (match mz with Some v => v | None => - (h / 2) end)).

Definition inBounds (g : GridBounds) (p : cell) : bool :=
  (minX g <=? cx p) && (cx p <=? maxX g) && (minZ g <=? cz p) && (cz p <=? maxZ g).

Definition toLocal (g : GridBounds) (p : cell) : cell :=
  mkCell (cx p - minX g) (cz p - minZ g).

Definition fromLocal (g : GridBounds) (p : cell) : cell :=
  mkCell (minX g + cx p) (minZ g + cz p).

(** [v, v+1, ..., v+n-1] *)
Fixpoint zrange (a : Z) (n : nat) : list Z :=
  match n with
  | O => []
  | S n' => a :: zrange (a + 1) n'
  end.

(** the values of [for (let v = lo; v < hi; v++)] *)
Definition upto (lo hi : Z) : list Z := zrange lo (Z.to_nat (hi - lo)).

(** the values of [for (let v = hi; v >= lo; v--)] *)
Definition downto (hi lo : Z) : list Z := rev (upto lo (hi + 1)).

(** [forEachCell]: row-major by [x], then [z]. *)
Definition gridCells (g : GridBounds) : list cell :=
  flat_map (fun x => map (fun z => mkCell x z) (upto (minZ g) (maxZ g + 1)))
           (upto (minX g) (maxX g + 1)).

(** [randomFreeCell(occupied, rng)] with the value [r] drawn from [rng]:
    the in-bounds cells of [forEachCell] outside [occupied], and the one at
    [Math.floor(r * free.length)]. [None] is the [null] of an empty list,
    and also the [undefined] of an index outside the list, which no [r] in
    [[0, 1)] produces. *)
Definition randomFreeCell (g : GridBounds) (occupied : list cell) (r : Q) : option cell :=
  let free := filter (fun c => negb (mem c occupied)) (gridCells g) in
  match free with
  | [] => None
  | _ :: _ =>
      let index := Qfloor (r * inject_Z (Z.of_nat (length free))) in
      if index <? 0 then None else nth_error free (Z.to_nat index)
  end.

(** ** HamiltonianCycle (src/js/ai/HamiltonianCycle.js, lines 1-148) *)

Definition buildCycleEvenWidth (width height : Z) : list cell :=
  [mkCell 0 0]
  ++ map (fun x => mkCell x 0) (upto 1 width)
  ++ flat_map (fun z =>
                 if Z.rem z 2 =? 1
                 then mkCell (width - 1) z :: map (fun x => mkCell x z) (downto (width - 2) 1)
                 else mkCell 1 z :: map (fun x => mkCell x z) (upto 2 width))
              (upto 1 height)
  ++ map (fun z => mkCell 0 z) (downto (height - 1) 1).

Definition buildCycleEvenHeight (width height : Z) : list cell :=
  [mkCell 0 0]
  ++ map (fun z => mkCell 0 z) (upto 1 height)
  ++ flat_map (fun x =>
                 if Z.rem x 2 =? 1
                 then mkCell x (height - 1) :: map (fun z => mkCell x z) (downto (height - 2) 1)
                 else mkCell x 1 :: map (fun z => mkCell x z) (upto 2 height))
              (upto 1 width)
  ++ map (fun x => mkCell x 0) (downto (width - 1) 1).

(** The duplicate scan of [buildCycle]: [true] when some key is seen twice. *)
Fixpoint hasDuplicate (seen : list cell) (l : list cell) : bool :=
  match l with
  | [] => false
  | c :: rest => if mem c seen then true else hasDuplicate (c :: seen) rest
  end.

(** The adjacency scan of [buildCycle], index [i] against [(i + 1) % length]. *)
Definition allAdjacent (order : list cell) : bool :=
  let n := length order in
  forallb (fun i => manhattan (nth i order (mkCell 0 0))
                              (nth (Nat.modulo (i + 1) n) order (mkCell 0 0)) =? 1)
          (seq 0 n).

(** [indexByKey] as filled by [buildCycle]: key of [order[i]] mapped to [i]. *)
Fixpoint indexTable (i : Z) (l : list cell) : list (cell * Z) :=
  match l with
  | [] => []
  | c :: rest => (c, i) :: indexTable (i + 1) rest
  end.

Record HamiltonianCycle := mkHC {
  hc_grid : GridBounds;
  order : list cell;
  indexByKey : list (cell * Z);
  valid : bool
}.

(** The constructor together with [buildCycle]: every failure leaves
    [order = []] and an empty [indexByKey]. *)
Definition newHamiltonianCycle (g : GridBounds) : HamiltonianCycle :=
  let w := width g in
  let h := height g in
  let fail := mkHC g [] [] false in
  if (w <? 2) || (h <? 2) then fail
  else if negb (Z.rem w 2 =? 0) && negb (Z.rem h 2 =? 0) then fail
  else
    let localOrder := if Z.rem w 2 =? 0 then buildCycleEvenWidth w h
                      else buildCycleEvenHeight w h in
    if negb (Z.of_nat (length localOrder) =? w * h) then fail
    else
      let ord := map (fromLocal g) localOrder in
      if hasDuplicate [] ord then fail
      else if negb (allAdjacent ord) then fail
      else mkHC g ord (indexTable 0 ord) true.

Definition isValid (hc : HamiltonianCycle) : bool := valid hc.

Fixpoint lookupIndex (c : cell) (t : list (cell * Z)) : option Z :=
  match t with
  | [] => None
  | (k, i) :: rest => if cell_eqb k c then Some i else lookupIndex c rest
  end.

Definition indexOf (hc : HamiltonianCycle) (p : cell) : Z :=
  match lookupIndex p (indexByKey hc) with Some i => i | None => -1 end.

(** JS [%] truncates toward zero: it is [Z.rem]. *)
Definition getCell (hc : HamiltonianCycle) (index : Z) : option cell :=
  let n := Z.of_nat (length (order hc)) in
  if negb (valid hc) || (n =? 0) then None
  else nth_error (order hc) (Z.to_nat (Z.rem (Z.rem index n + n) n)).

Definition getNextCell (hc : HamiltonianCycle) (p : cell) : option cell :=
  let index := indexOf hc p in
  if index <? 0 then None else getCell hc (index + 1).

(** JS numbers met by [distanceForward]: a finite integer or [Infinity]. *)
Inductive jsnum := JFin (v : Z) | JInf.

(** The arithmetic of [distanceForward] once its guard has passed. *)
Definition forwardDelta (n fromIndex toIndex : Z) : Z :=
  Z.rem (toIndex - fromIndex + n) n.

Definition distanceForward (hc : HamiltonianCycle) (fromIndex toIndex : Z) : jsnum :=
  let n := Z.of_nat (length (order hc)) in
  if negb (valid hc) || (n =? 0) then JInf
  else JFin (forwardDelta n fromIndex toIndex).

(** ** MoveSimulator: [AIController.simulateMove] *)

(** [isOccupied(pos, obstacles)] *)
Definition isOccupied (p : cell) (obstacles : list cell) : bool := mem p obstacles.

(** The self-collision loop [for (let i = 1; i < snake.length; i++)]:
    the tail is skipped when the snake does not grow. *)
Definition selfCollision (snake : list cell) (nextPos : cell) (willGrow : bool) : bool :=
  existsb (fun i =>
             let isTail := Nat.eqb i (length snake - 1) in
             if isTail && negb willGrow then false
             else cell_eqb (nth i snake (mkCell 0 0)) nextPos)
          (seq 1 (length snake - 1)).

Record SimResult := mkSim { sim_snake : list cell; sim_grows : bool }.

Definition simulateMove (g : GridBounds) (bombPositions : list cell)
    (snake : list cell) (nextPos : cell) (grows : bool) : option SimResult :=
  if negb (inBounds g nextPos) then None
  else
    let willGrow := grows in
    if selfCollision snake nextPos willGrow then None
    else if isOccupied nextPos bombPositions then None
    else
      let nextSnake := nextPos :: snake in
      Some (mkSim (if willGrow then nextSnake else removelast nextSnake) willGrow).

(** ** Pathfinding (src/unnamed/part_005) *)

Definition getNeighbors (p : cell) : list cell :=
  [mkCell (cx p) (cz p - 1); mkCell (cx p) (cz p + 1);
   mkCell (cx p - 1) (cz p); mkCell (cx p + 1) (cz p)].

(** [heuristic]: the Manhattan distance. *)
Definition heuristic (a b : cell) : Z := Z.abs (cx a - cx b) + Z.abs (cz a - cz b).

(** *** Flood fill

    The array [queue] read through [queueIndex] is represented by its
    unread suffix; [visited] is the list of keys added to the set. The loop
    [while (queueIndex < queue.length && count < maxCells)] runs at most
    [4 * cellCount + 1] times (each iteration either consumes a queue entry
    or counts a new cell, which pushes at most four), which is the fuel. *)
Fixpoint floodLoop (g : GridBounds) (obstacles : list cell) (fuel : nat)
    (visited queue : list cell) (count : Z) : Z :=
  match fuel with
  | O => count
  | S fuel' =>
      match queue with
      | [] => count
      | pos :: rest =>
          if negb (count <? cellCount g) then count
          else if mem pos visited || mem pos obstacles || negb (inBounds g pos)
          then floodLoop g obstacles fuel' visited rest count
          else
            let visited' := pos :: visited in
            floodLoop g obstacles fuel' visited'
              (rest ++ filter (fun n => negb (mem n visited')) (getNeighbors pos))
              (count + 1)
      end
  end.

Definition floodFill (g : GridBounds) (start : cell) (obstacles : list cell) : Z :=
  floodLoop g obstacles (4 * Z.to_nat (cellCount g) + 1) [] [start] 0.

(** *** Breadth-first search ([bfs])

    The array [queue] read through [queueIndex] is again its unread suffix;
    an entry [{pos, path}] is a pair. [visited] is the list of keys added to
    the set, newest first. Every entry is popped once and, apart from
    [start], only unvisited in-bounds cells are pushed, so the loop runs at
    most [cellCount + 1] times: the fuel. *)
Definition bfsPush (g : GridBounds) (obstacles : list cell) (path : list cell)
    (st : list cell * list (cell * list cell)) (neighbor : cell)
    : list cell * list (cell * list cell) :=
  let '(visited, queue) := st in
  if mem neighbor visited || mem neighbor obstacles || negb (inBounds g neighbor) then st
  else (neighbor :: visited, queue ++ [(neighbor, path ++ [neighbor])]).

Fixpoint bfsLoop (g : GridBounds) (obstacles : list cell) (target : cell) (fuel : nat)
    (visited : list cell) (queue : list (cell * list cell)) : option (list cell) :=
  match fuel with
  | O => None
  | S fuel' =>
      match queue with
      | [] => None
      | (pos, path) :: rest =>
          if cell_eqb pos target then Some path
          else
            let '(visited', queue') :=
              fold_left (bfsPush g obstacles path) (getNeighbors pos) (visited, rest) in
            bfsLoop g obstacles target fuel' visited' queue'
      end
  end.

Definition bfs (g : GridBounds) (start target : cell) (obstacles : list cell) : option (list cell) :=
  bfsLoop g obstacles target (Z.to_nat (cellCount g) + 1) [start] [(start, [])].


(** *** A* search ([findPath], [reconstructPath])

    A missing [gScore]/[fScore] entry reads as [Infinity]; it is [None]. *)

Definition ltInf (a b : option Z) : bool :=
  match a, b with
  | Some x, Some y => x <? y
  | Some _, None => true
  | None, _ => false
  end.

Definition updMap {A : Type} (m : cell -> option A) (k : cell) (v : A) : cell -> option A :=
  fun c => if cell_eqb c k then Some v else m c.

Definition updSet (s : cell -> bool) (k : cell) (b : bool) : cell -> bool :=
  fun c => if cell_eqb c k then b else s c.

Record AStar := mkAStar {
  openSet : list cell;
  openSetKeys : cell -> bool;
  closedSet : cell -> bool;
  cameFrom : cell -> option cell;
  gScore : cell -> option Z;
  fScore : cell -> option Z
}.

(** The scan for the lowest [fScore]: [(bestIndex, current)]. *)
Fixpoint scanBest (fS : cell -> option Z) (l : list cell) (i bestIndex : nat)
    (current : cell) (bestScore : option Z) : nat * cell :=
  match l with
  | [] => (bestIndex, current)
  | node :: rest =>
      let nodeScore := fS node in
      if ltInf nodeScore bestScore
      then scanBest fS rest (S i) i node nodeScore
      else scanBest fS rest (S i) bestIndex current bestScore
  end.

(** [array[i] = x] for an index inside the array. *)
Fixpoint setNth (l : list cell) (i : nat) (x : cell) : list cell :=
  match l, i with
  | [], _ => []
  | _ :: rest, O => x :: rest
  | y :: rest, S i' => y :: setNth rest i' x
  end.

(** [const tail = openSet.pop(); if (bestIndex < openSet.length) openSet[bestIndex] = tail;] *)
Definition popSwap (l : list cell) (bestIndex : nat) : list cell :=
  let tl := last l (mkCell 0 0) in
  let rest := removelast l in
  if Nat.ltb bestIndex (length rest) then setNth rest bestIndex tl else rest.

(** One turn of the neighbour loop. *)
Definition relax (isObstacle : cell -> bool) (g : GridBounds) (goal current : cell)
    (st : AStar) (neighbor : cell) : AStar :=
  if isObstacle neighbor || negb (inBounds g neighbor) || closedSet st neighbor then st
  else
    let tentativeG := option_map (fun v => v + 1) (gScore st current) in
    if ltInf tentativeG (gScore st neighbor) then
      let gS := match tentativeG with Some t => updMap (gScore st) neighbor t | None => gScore st end in
      let fS := match tentativeG with
                | Some t => updMap (fScore st) neighbor (t + heuristic neighbor goal)
                | None => fScore st end in
      let cF := updMap (cameFrom st) neighbor current in
      if negb (openSetKeys st neighbor)
      then mkAStar (openSet st ++ [neighbor]) (updSet (openSetKeys st) neighbor true)
                   (closedSet st) cF gS fS
      else mkAStar (openSet st) (openSetKeys st) (closedSet st) cF gS fS
    else st.

Inductive stepResult := Found (current : cell) (st : AStar) | Next (st : AStar).

(** The body of [while (openSet.length > 0)] on a non-empty [openSet]. *)
Definition astarStep (isObstacle : cell -> bool) (g : GridBounds) (goal : cell)
    (st : AStar) : stepResult :=
  let o := openSet st in
  let first := hd (mkCell 0 0) o in
  let '(bestIndex, current) := scanBest (fScore st) (tl o) 1 0 first (fScore st first) in
  let o' := popSwap o bestIndex in
  let keys' := updSet (openSetKeys st) current false in
  if closedSet st current
  then Next (mkAStar o' keys' (closedSet st) (cameFrom st) (gScore st) (fScore st))
  else
    let st1 := mkAStar o' keys' (updSet (closedSet st) current true)
                       (cameFrom st) (gScore st) (fScore st) in
    if cell_eqb current goal then Found current st1
    else Next (fold_left (relax isObstacle g goal current) (getNeighbors current) st1).

(** [reconstructPath] before its final [slice(1)]: the [cameFrom] chain
    ending in [current], oldest cell first. The JS loop follows one link
    per turn; the fuel passed by [findPath] is [gScore(current) + 1], one
    more than the number of links on that chain. *)
Fixpoint chainTo (fuel : nat) (cF : cell -> option cell) (current : cell) : list cell :=
  match fuel with
  | O => [current]
  | S fuel' =>
      match cF current with
      | None => [current]
      | Some prev => chainTo fuel' cF prev ++ [current]
      end
  end.

Definition reconstructPath (fuel : nat) (cF : cell -> option cell) (current : cell) : list cell :=
  tl (chainTo fuel cF current).

(** The loop; each turn removes one cell from [openSet] and each push turns
    an in-bounds cell that was neither open nor closed into an open one, so
    [2 * cellCount + 1] turns suffice and the fuel below never runs out. *)
Fixpoint astarLoop (isObstacle : cell -> bool) (g : GridBounds) (goal : cell)
    (fuel : nat) (st : AStar) : option (list cell) :=
  match fuel with
  | O => None
  | S fuel' =>
      match openSet st with
      | [] => None
      | _ :: _ =>
          match astarStep isObstacle g goal st with
          | Found current st' =>
              Some (reconstructPath
                      (S (Z.to_nat (match gScore st' current with Some v => v | None => 0 end)))
                      (cameFrom st') current)
          | Next st' => astarLoop isObstacle g goal fuel' st'
          end
      end
  end.

Definition astarInit (start goal : cell) : AStar :=
  mkAStar [start] (updSet (fun _ => false) start true) (fun _ => false) (fun _ => None)
          (updMap (fun _ => None) start 0)
          (updMap (fun _ => None) start (heuristic start goal)).

Definition findPath (g : GridBounds) (start goal : cell) (obstacles : list cell) : option (list cell) :=
  if cell_eqb start goal then Some []
  else astarLoop (fun c => mem c obstacles) g goal (2 * Z.to_nat (cellCount g) + 2)
                 (astarInit start goal).

(** *** Fruit targets ([normalizeFoodTargets]) *)

(** An entry of [foodPos]: a cell with finite integer coordinates, or an
    entry dropped by the filter ([null], [undefined], non-finite
    coordinates). *)
Inductive foodItem := FoodCell (c : cell) | FoodJunk.

(** [foodPos] itself: falsy, a single entry, or an array. *)
Inductive foodArg := NoFood | OneFood (i : foodItem) | FoodArray (l : list foodItem).

Definition keepFood (i : foodItem) : list cell :=
  match i with FoodCell c => [c] | FoodJunk => [] end.

Definition normalizeFoodTargets (foodPos : foodArg) : list cell :=
  match foodPos with
  | NoFood => []
  | OneFood i => keepFood i
  | FoodArray l => flat_map keepFood l
  end.

(** [[...foods].sort((a, b) => manhattan(head, a) - manhattan(head, b))]:
    a stable sort on the distance, as an insertion sort. *)
Fixpoint insertByDistance (head x : cell) (l : list cell) : list cell :=
  match l with
  | [] => [x]
  | y :: rest => if manhattan head x <? manhattan head y then x :: l
                 else y :: insertByDistance head x rest
  end.

Definition sortByDistance (head : cell) (foods : list cell) : list cell :=
  fold_left (fun acc x => insertByDistance head x acc) foods [].

(** [.slice(0, k)] of the sorted copy. *)
Definition nearestFoods (head : cell) (foods : list cell) (k : nat) : list cell :=
  firstn k (sortByDistance head foods).

Definition foodItem_eq_dec (a b : foodItem) : {a = b} + {a <> b}.
Proof. decide equality; apply cell_eq_dec. Defined.

(** *** Walks on the board, for the statements about [findPath]

    [walk ok a p]: the cells of [p] are, in order, one step apart starting
    from a step next to [a], and each satisfies [ok]. *)
Fixpoint walk (ok : cell -> Prop) (a : cell) (p : list cell) : Prop :=
  match p with
  | [] => True
  | c :: p' => manhattan a c = 1 /\ ok c /\ walk ok c p'
  end.

(** A cell a path of [findPath g _ _ obstacles] may use. *)
Definition freeCell (g : GridBounds) (obstacles : list cell) (c : cell) : Prop :=
  inBounds g c = true /\ ~ In c obstacles.

(** ** AIController (src/js/ai/HamiltonianCycle.js, lines 157-835)

    Directions are [{x, z}] objects like cells and share their record. The
    decision label [debugStats.lastDecision] is a string built from a fixed
    prefix and a reason; it is kept here as the prefix (a constructor) and
    the reason (a [reasonTag]): [RCell c] stands for the text ["x,z"] of
    [c], [RToFood c] for ["to-food-x,z"]. Fruit coordinates are integers
    (see [foodItem]). *)

Inductive reasonTag := RCell (c : cell) | RToFood (c : cell) | RSuccessor | RMaxSpace.

Inductive decisionLabel :=
  | DInit | DReset | DNoLegalMove
  | DDirectFood (r : reasonTag) | DEarlyChase (r : reasonTag) | DShortcut (r : reasonTag)
  | DCycle (r : reasonTag) | DFallback (r : reasonTag) | DDefaultFirstMove
  (** ["emergency:" + reason], written by [getEmergencyDirection] *)
  | DEmergency (r : reasonTag).

Inductive aiMode := ModeCycle | ModeShortcut | ModeFallback.

Record DebugStats := mkStats {
  mode : aiMode; cycleAvailable : bool;
  shortcutsAccepted : Z; shortcutsRejected : Z; emergencyCount : Z; fallbackCount : Z;
  lastDecision : decisionLabel; lastSurvivalBuffer : Z; step : Z }.

Record AIController := mkAI {
  grid : GridBounds; cycle : HamiltonianCycle; bombPositions : list cell;
  stepCounter : Z; debugStats : DebugStats }.

(** [new AIController(gridConfig)] for a grid already built. *)
Definition newAIController (g : GridBounds) : AIController :=
  let hc := newHamiltonianCycle g in
  mkAI g hc [] 0 (mkStats ModeCycle (isValid hc) 0 0 0 0 DInit 0 0).

(** [{ dir, pos }] entries of [getValidMoves]. *)
Record move := mkMove { dir : cell; pos : cell }.

(** The [best] objects of the policies, [{...move, score, reason,
    survivalBuffer, foodGain?, pathLength?}]. Every policy sets
    [survivalBuffer]; [score] is rational because of [380 + buffer * 1.2]. *)
Record candidate := mkCand {
  cmove : move; score : Q; reason : reasonTag; survivalBuffer : Z;
  foodGain : option Z; pathLength : option Z }.

(** [snake.slice(1, -1)] and [snake.slice(0, -1)]. *)
Definition innerSegments (snake : list cell) : list cell := firstn (length snake - 2) (tl snake).
Definition withoutTail (snake : list cell) : list cell := removelast snake.

(** [snake[0]] and [snake[snake.length - 1]] of a non-empty array. *)
Definition headOf (snake : list cell) : cell := hd (mkCell 0 0) snake.
Definition tailOf (snake : list cell) : cell := last snake (mkCell 0 0).

(** [distanceForward] as used below, always on a valid cycle, where it is
    finite ([distanceForward_mod_in_range]); [Infinity] is never met there. *)
Definition cycleDist (hc : HamiltonianCycle) (a b : Z) : Z :=
  match distanceForward hc a b with JFin d => d | JInf => 0 end.

(** [Math.floor(n * 0.05)], [Math.floor(n * 0.08)], [Math.floor(n * 0.035)]
    for a length [n]: the doubles [0.05], [0.08] and [0.035] lie just above
    [1/20], [2/25] and [7/200], so the floors are the exact ones. *)
Definition floor005 (n : Z) : Z := n / 20.
Definition floor008 (n : Z) : Z := (2 * n) / 25.
Definition floor0035 (n : Z) : Z := (7 * n) / 200.

Definition dirs : list cell := [mkCell 0 (-1); mkCell 0 1; mkCell (-1) 0; mkCell 1 0].

Definition addDir (p d : cell) : cell := mkCell (cx p + cx d) (cz p + cz d).

(** [currentDir.x === -dir.x && currentDir.z === -dir.z] *)
Definition isReverse (currentDir d : cell) : bool :=
  (cx currentDir =? - cx d) && (cz currentDir =? - cz d).

Definition isZeroDir (d : cell) : bool := (cx d =? 0) && (cz d =? 0).

Definition getValidMoves (ai : AIController) (head currentDir : cell) (snake : list cell)
    : list move :=
  let blocked := innerSegments snake ++ bombPositions ai in
  flat_map (fun d =>
      if isReverse currentDir d && negb (isZeroDir currentDir) then []
      else
        let p := addDir head d in
        if negb (inBounds (grid ai) p) then []
        else if mem p blocked then []
        else [mkMove d p])
    dirs.

Definition validateCycleOrder (ai : AIController) (snakeState : list cell)
    (growsThisStep : bool) : bool :=
  let hc := cycle ai in
  if negb (isValid hc) then true
  else
    let headIndex := indexOf hc (headOf snakeState) in
    let tailIndex := indexOf hc (tailOf snakeState) in
    if (headIndex <? 0) || (tailIndex <? 0) then false
    else
      let forwardGap := cycleDist hc headIndex tailIndex in
      let baseGap := if growsThisStep then 2 else 1 in
      let dynamicGap := Z.max baseGap (floor008 (Z.of_nat (length snakeState))) in
      dynamicGap <? forwardGap.

Definition getCycleTailBuffer (ai : AIController) (snakeState : list cell) : Z :=
  let hc := cycle ai in
  if negb (isValid hc) || (length snakeState <? 2)%nat then 0
  else
    let headIndex := indexOf hc (headOf snakeState) in
    let tailIndex := indexOf hc (tailOf snakeState) in
    if (headIndex <? 0) || (tailIndex <? 0) then 0
    else cycleDist hc headIndex tailIndex.

Definition getOpenNeighborCount (ai : AIController) (p : cell) (obstacles : list cell) : Z :=
  Z.of_nat (length (filter (fun n => inBounds (grid ai) n && negb (mem n obstacles))
                           (getNeighbors p))).

(** [getClosestFoodDistance]: [0] without fruit. *)
Definition getClosestFoodDistance (p : cell) (foods : list cell) : Z :=
  match foods with
  | [] => 0
  | f :: rest => fold_left (fun best food => if manhattan p food <? best then manhattan p food else best)
                           rest (manhattan p f)
  end.

Definition isFoodCell (p : cell) (foods : list cell) : bool := mem p foods.

Definition scoreSurvivalState (ai : AIController) (snakeState foods : list cell) : Z :=
  let head := headOf snakeState in
  let obstacles := innerSegments snakeState ++ bombPositions ai in
  let openSpace := floodFill (grid ai) head obstacles in
  let openNeighbors := getOpenNeighborCount ai head obstacles in
  let cycleBuffer := getCycleTailBuffer ai snakeState in
  let nearestFood := getClosestFoodDistance head foods in
  openSpace * 6 + openNeighbors * 55 + cycleBuffer * 4 - nearestFood * 3.

(** [!!path]: an empty path is truthy. *)
Definition hasEscapeRoute (ai : AIController) (snakeState : list cell) : bool :=
  if (length snakeState <? 2)%nat then true
  else
    let obstacles := innerSegments snakeState ++ bombPositions ai in
    match findPath (grid ai) (headOf snakeState) (tailOf snakeState) obstacles with
    | Some _ => true | None => false
    end.

(** [!best || score > best.score] *)
Definition better (sc : Q) (best : option candidate) : bool :=
  match best with None => true | Some b => negb (Qle_bool sc (score b)) end.

(** [moves.find(item => item.pos.x === c.x && item.pos.z === c.z)] *)
Definition findMove (moves : list move) (c : cell) : option move :=
  find (fun item => cell_eqb (pos item) c) moves.

Definition getDirectSafeFoodMove (ai : AIController) (moves : list move)
    (snake foods : list cell) : option candidate :=
  match foods with
  | [] => None
  | _ :: _ =>
      fold_left (fun best m =>
          if negb (isFoodCell (pos m) foods) then best
          else match simulateMove (grid ai) (bombPositions ai) snake (pos m) true with
          | None => best
          | Some r =>
              if negb (validateCycleOrder ai (sim_snake r) true) then best
              else if negb (hasEscapeRoute ai (sim_snake r)) then best
              else
                let sc := inject_Z (scoreSurvivalState ai (sim_snake r) foods + 420) in
                if better sc best
                then Some (mkCand m sc (RCell (pos m)) (getCycleTailBuffer ai (sim_snake r))
                                  (Some 99) None)
                else best
          end)
        moves None
  end.

Definition getEarlyGameFoodChaseMove (ai : AIController) (head : cell) (moves : list move)
    (snake foods : list cell) : option candidate :=
  match foods with
  | [] => None
  | _ :: _ =>
      if (18 <? length snake)%nat then None
      else
        let staticObstacles := withoutTail snake ++ bombPositions ai in
        let candidates := nearestFoods head foods 4 in
        fold_left (fun best target =>
            match findPath (grid ai) head target staticObstacles with
            | None | Some [] => best
            | Some ((firstStep :: _) as path) =>
                match findMove moves firstStep with
                | None => best
                | Some m =>
                    let grows := isFoodCell (pos m) foods in
                    match simulateMove (grid ai) (bombPositions ai) snake (pos m) grows with
                    | None => best
                    | Some r =>
                        if negb (hasEscapeRoute ai (sim_snake r)) then best
                        else
                          let L := Z.of_nat (length path) in
                          let pathBonus := Z.max 0 (14 - L) * 22 in
                          let sc := inject_Z (scoreSurvivalState ai (sim_snake r) foods
                                              + 300 + pathBonus) in
                          if better sc best
                          then Some (mkCand m sc (RCell target)
                                       (getCycleTailBuffer ai (sim_snake r))
                                       (Some (Z.max 1 (18 - L))) (Some L))
                          else best
                    end
                end
            end)
          candidates None
  end.

(** [380 + buffer * 1.2], with [1.2] read as [6/5]. *)
Definition getCycleBaselineMove (ai : AIController) (head : cell) (moves : list move)
    (snake foods : list cell) : option candidate :=
  match getNextCell (cycle ai) head with
  | None => None
  | Some nextCycleCell =>
      match findMove moves nextCycleCell with
      | None => None
      | Some m =>
          match simulateMove (grid ai) (bombPositions ai) snake (pos m)
                             (isFoodCell (pos m) foods) with
          | None => None
          | Some r =>
              let buf := getCycleTailBuffer ai (sim_snake r) in
              Some (mkCand m (inject_Z 380 + inject_Z buf * (6 # 5)) RSuccessor buf None None)
          end
      end
  end.

(** The loop of [validateShortcutPath] over the remaining steps, carrying
    [simulatedSnake] and [latestBuffer]; [None] is a [{ safe: false }]
    return. *)
Fixpoint validateSteps (ai : AIController) (rest : list cell) (target : cell)
    (simulatedSnake : list cell) (latestBuffer : Z) : option (list cell * Z) :=
  match rest with
  | [] => Some (simulatedSnake, latestBuffer)
  | step :: rest' =>
      let isLastStep := match rest' with [] => true | _ :: _ => false end in
      let grows := isLastStep && cell_eqb step target in
      let hc := cycle ai in
      let cycleOk :=
        if isValid hc then
          let headIndex := indexOf hc (headOf simulatedSnake) in
          let tailIndex := indexOf hc (tailOf simulatedSnake) in
          let nextIndex := indexOf hc step in
          if (headIndex <? 0) || (tailIndex <? 0) || (nextIndex <? 0) then false
          else
            let tailWindow := cycleDist hc headIndex tailIndex in
            let forwardAdvance := cycleDist hc headIndex nextIndex in
            let allowance := Z.max 1 (tailWindow - (if grows then 3 else 2)) in
            negb ((forwardAdvance <=? 0) || (allowance <? forwardAdvance))
        else true in
      if negb cycleOk then None
      else
        match simulateMove (grid ai) (bombPositions ai) simulatedSnake step grows with
        | None => None
        | Some r =>
            let sim := sim_snake r in
            if negb (validateCycleOrder ai sim (sim_grows r)) then None
            else
              let latest := getCycleTailBuffer ai sim in
              if latest <=? Z.max 1 (floor0035 (Z.of_nat (length sim))) then None
              else validateSteps ai rest' target sim latest
        end
  end.

(** [Some (score, survivalBuffer)] for [{ safe: true, ... }]. *)
Definition validateShortcutPath (ai : AIController) (path snake : list cell) (target : cell)
    (foods : list cell) : option (Z * Z) :=
  match validateSteps ai path target snake 0 with
  | None => None
  | Some (sim, latestBuffer) =>
      if negb (hasEscapeRoute ai sim) then None
      else Some (scoreSurvivalState ai sim foods, latestBuffer)
  end.

(** Also returns how many times [debugStats.shortcutsRejected] was
    incremented. [this.stepCounter] is already the incremented counter. *)
Definition getBestShortcutMove (ai : AIController) (head : cell) (moves : list move)
    (snake foods : list cell) : option candidate * Z :=
  match foods with
  | [] => (None, 0)
  | _ :: _ =>
      let len := Z.of_nat (length snake) in
      let interval := if len <? 90 then 1 else if len <? 180 then 2 else 3 in
      if negb (Z.rem (stepCounter ai) interval =? 0) then (None, 0)
      else
        let staticObstacles := withoutTail snake ++ bombPositions ai in
        let maxTargets := if (8 <? length foods)%nat then 4%nat else 3%nat in
        let candidates := nearestFoods head foods maxTargets in
        let headIndex := indexOf (cycle ai) head in
        fold_left (fun acc target =>
            let '(best, rejected) := acc in
            match findPath (grid ai) head target staticObstacles with
            | None | Some [] => acc
            | Some ((firstStep :: _) as path) =>
                let L := Z.of_nat (length path) in
                let dynamicPathLimit := if len <? 80 then 34 else if len <? 180 then 28 else 22 in
                if dynamicPathLimit <? L then acc
                else
                  match findMove moves firstStep with
                  | None => acc
                  | Some m =>
                      match validateShortcutPath ai path snake target foods with
                      | None => (best, rejected + 1)
                      | Some (vscore, vbuffer) =>
                          let targetIndex := indexOf (cycle ai) target in
                          let cycleDistance :=
                            if (0 <=? headIndex) && (0 <=? targetIndex)
                            then cycleDist (cycle ai) headIndex targetIndex else L in
                          let fg := Z.max 0 (cycleDistance - L) in
                          let sc := inject_Z (vscore + fg * 34 + Z.max 0 (220 - L * 7)) in
                          if better sc best
                          then (Some (mkCand m sc (RToFood target) vbuffer (Some fg) (Some L)),
                                rejected)
                          else acc
                      end
                  end
            end)
          candidates (None, 0)
  end.

Definition shouldPrioritizeShortcut (ai : AIController) (shortcutMove : candidate)
    (cycleMove : option candidate) (snakeLength : Z) : bool :=
  let minimumBuffer := Z.max 3 (floor005 snakeLength) in
  if survivalBuffer shortcutMove <=? minimumBuffer then false
  else
    match cycleMove with
    | None => true
    | Some _ =>
        let shortPath := (match pathLength shortcutMove with Some l => l | None => 99 end)
                           <=? (if snakeLength <? 70 then 8 else 6) in
        let cycleStall := 1 <=? (match foodGain shortcutMove with Some f => f | None => 0 end) in
        let proactiveInterval := if snakeLength <? 60 then 1
                                 else if snakeLength <? 140 then 2 else 3 in
        if shortPath || cycleStall then true
        else Z.rem (stepCounter ai) proactiveInterval =? 0
    end.

Definition getShortcutTolerance (snakeLength : Z) : Z :=
  if snakeLength <? 60 then 18 else if snakeLength <? 140 then 12 else 8.

Definition getBestFallbackMove (ai : AIController) (moves : list move)
    (snake foods : list cell) : option candidate :=
  fold_left (fun best m =>
      match simulateMove (grid ai) (bombPositions ai) snake (pos m) (isFoodCell (pos m) foods) with
      | None => best
      | Some r =>
          let sc := inject_Z (scoreSurvivalState ai (sim_snake r) foods) in
          if better sc best
          then Some (mkCand m sc RMaxSpace (getCycleTailBuffer ai (sim_snake r)) None None)
          else best
      end)
    moves None.

(** Field updates of [debugStats]. *)
Definition setStep (s : DebugStats) (n : Z) : DebugStats :=
  mkStats (mode s) (cycleAvailable s) (shortcutsAccepted s) (shortcutsRejected s)
          (emergencyCount s) (fallbackCount s) (lastDecision s) (lastSurvivalBuffer s) n.
Definition setDecision (s : DebugStats) (d : decisionLabel) : DebugStats :=
  mkStats (mode s) (cycleAvailable s) (shortcutsAccepted s) (shortcutsRejected s)
          (emergencyCount s) (fallbackCount s) d (lastSurvivalBuffer s) (step s).
Definition setBuffer (s : DebugStats) (b : Z) : DebugStats :=
  mkStats (mode s) (cycleAvailable s) (shortcutsAccepted s) (shortcutsRejected s)
          (emergencyCount s) (fallbackCount s) (lastDecision s) b (step s).
Definition addRejected (s : DebugStats) (k : Z) : DebugStats :=
  mkStats (mode s) (cycleAvailable s) (shortcutsAccepted s) (shortcutsRejected s + k)
          (emergencyCount s) (fallbackCount s) (lastDecision s) (lastSurvivalBuffer s) (step s).
(** [mode = m; lastDecision = d; shortcutsAccepted += acc; fallbackCount += fb] *)
Definition choose (s : DebugStats) (m : aiMode) (d : decisionLabel) (acc fb : Z) : DebugStats :=
  mkStats m (cycleAvailable s) (shortcutsAccepted s + acc) (shortcutsRejected s)
          (emergencyCount s) (fallbackCount s + fb) d (lastSurvivalBuffer s) (step s).

Definition withStats (ai : AIController) (s : DebugStats) : AIController :=
  mkAI (grid ai) (cycle ai) (bombPositions ai) (stepCounter ai) s.

(** [getNextDirection(headPos, currentDir, occupiedCells, foodPos)], the
    [try] block, with [head = {headPos.gridX, headPos.gridZ}] passed as a
    cell. Returns the direction and the controller after the call. On
    integer cells nothing in the block throws; the [catch] block is
    [getSafestMove] below. *)
Definition getNextDirection (ai0 : AIController) (head currentDir : cell)
    (occupiedCells : list cell) (foodPos : foodArg) : cell * AIController :=
  let counter := stepCounter ai0 + 1 in
  let ai := mkAI (grid ai0) (cycle ai0) (bombPositions ai0) counter
                 (setStep (debugStats ai0) counter) in
  let stats := debugStats ai in
  let snake := occupiedCells in
  let foods := normalizeFoodTargets foodPos in
  match snake with
  | [] => (currentDir, ai)
  | _ :: _ =>
      match getValidMoves ai head currentDir snake with
      | [] => (currentDir, withStats ai (setDecision stats DNoLegalMove))
      | (firstMove :: _) as moves =>
          match getDirectSafeFoodMove ai moves snake foods with
          | Some d =>
              (dir (cmove d),
               withStats ai (setBuffer (choose stats ModeShortcut (DDirectFood (reason d)) 1 0)
                                       (survivalBuffer d)))
          | None =>
              match getEarlyGameFoodChaseMove ai head moves snake foods with
              | Some e =>
                  (dir (cmove e),
                   withStats ai (setBuffer (choose stats ModeShortcut (DEarlyChase (reason e)) 1 0)
                                           (survivalBuffer e)))
              | None =>
                  let cycleMove :=
                    if isValid (cycle ai) then getCycleBaselineMove ai head moves snake foods
                    else None in
                  let '(shortcutMove, rejected) :=
                    if isValid (cycle ai) then getBestShortcutMove ai head moves snake foods
                    else (None, 0) in
                  let stats1 := addRejected stats rejected in
                  let len := Z.of_nat (length snake) in
                  let selected :=
                    match shortcutMove with
                    | Some s =>
                        if shouldPrioritizeShortcut ai s cycleMove len &&
                           match cycleMove with
                           | None => true
                           | Some c => Qle_bool (score c - inject_Z (getShortcutTolerance len))
                                                (score s)
                           end
                        then Some (s, choose stats1 ModeShortcut (DShortcut (reason s)) 1 0)
                        else None
                    | None => None
                    end in
                  let selected :=
                    match selected with
                    | Some _ => selected
                    | None =>
                        match cycleMove with
                        | Some c => Some (c, choose stats1 ModeCycle (DCycle (reason c)) 0 0)
                        | None =>
                            match getBestFallbackMove ai moves snake foods with
                            | Some f => Some (f, choose stats1 ModeFallback (DFallback (reason f)) 0 1)
                            | None => None
                            end
                        end
                    end in
                  match selected with
                  | None => (dir firstMove, withStats ai (setDecision stats1 DDefaultFirstMove))
                  | Some (c, s) => (dir (cmove c), withStats ai (setBuffer s (survivalBuffer c)))
                  end
              end
          end
      end
  end.

(** [getSafestMove(head, currentDir, obstacles)], the [catch] fallback,
    called with [obstacles = occupiedCells.slice(0, -1)]. *)
Definition getSafestMove (ai : AIController) (head currentDir : cell) (obstacles : list cell)
    : cell :=
  fst (fold_left (fun acc m =>
          let '(bestMove, maxSpace) := acc in
          if (cx m =? - cx currentDir) && (cz m =? - cz currentDir) then acc
          else
            let nextPos := addDir head m in
            if negb (inBounds (grid ai) nextPos) then acc
            else if isOccupied nextPos obstacles then acc
            else
              let space := floodFill (grid ai) nextPos obstacles in
              if maxSpace <? space then (m, space) else acc)
        dirs (currentDir, -1)).

(** [setBombDangerZones(zones)] *)
Definition setBombDangerZones (ai : AIController) (zones : list cell) : AIController :=
  mkAI (grid ai) (cycle ai) zones (stepCounter ai) (debugStats ai).

(** The legality condition of the specification, for comparison with
    [getValidMoves]: the cell is in bounds and lies neither in
    [body[0..length-2]] nor in the hazards. *)
Definition specLegalCell (ai : AIController) (body : list cell) (c : cell) : bool :=
  inBounds (grid ai) c && negb (mem c (firstn (length body - 1) body))
  && negb (mem c (bombPositions ai)).

(** ** Proof vocabulary for the cycle builders *)

(** Consecutive cells of a list are at Manhattan distance 1. *)
Fixpoint chain (l : list cell) : Prop :=
  match l with
  | [] => True
  | a :: t => match t with [] => True | b :: _ => manhattan a b = 1 end /\ chain t
  end.

(** Cells [1 .. w-1] of row [z], in increasing [x]. *)
Definition rowCells (w z : Z) : list cell := map (fun x => mkCell x z) (zrange 1 (Z.to_nat (w - 1))).

(** Exchanging the two coordinates. *)
Definition swapCell (c : cell) : cell := mkCell (cz c) (cx c).

(** ** More of AIController (src/js/ai/HamiltonianCycle.js) *)

(** [hasReachableFood(headPos, occupiedCells, foodPos)], with [head] passed as a cell. *)
Definition hasReachableFood (ai : AIController) (head : cell) (occupiedCells : list cell)
    (foodPos : foodArg) : bool :=
  let foods := normalizeFoodTargets foodPos in
  match foods with
  | [] => false
  | _ :: _ =>
      let staticObstacles := withoutTail occupiedCells ++ bombPositions ai in
      let candidates := nearestFoods head foods 6 in
      existsb (fun food => match findPath (grid ai) head food staticObstacles with
                           | Some (_ :: _) => true
                           | _ => false
                           end) candidates
  end.

(** [debugStats.emergencyCount += 1;
     debugStats.lastDecision = `emergency:${reason}`] *)
Definition addEmergency (r : reasonTag) (s : DebugStats) : DebugStats :=
  mkStats (mode s) (cycleAvailable s) (shortcutsAccepted s) (shortcutsRejected s)
          (emergencyCount s + 1) (fallbackCount s) (DEmergency r) (lastSurvivalBuffer s) (step s).

(** [getEmergencyDirection(headPos, currentDir, occupiedCells, foodPos)]: the
    direction ([null] is [None]) and the controller after the call. *)
Definition getEmergencyDirection (ai : AIController) (head currentDir : cell)
    (occupiedCells : list cell) (foodPos : foodArg) : option cell * AIController :=
  let snake := occupiedCells in
  let foods := normalizeFoodTargets foodPos in
  match snake with
  | [] => (None, ai)
  | _ :: _ =>
      match getValidMoves ai head currentDir snake with
      | [] => (None, ai)
      | (firstMove :: _) as moves =>
          match getBestFallbackMove ai moves snake foods with
          | Some fallback =>
              (Some (dir (cmove fallback)),
               withStats ai (addEmergency (reason fallback) (debugStats ai)))
          | None => (Some (dir firstMove), ai)
          end
      end
  end.

(** A direction [getSafestMove] may take: not the exact reverse of
    [currentDir], onto an in-bounds cell that is not an obstacle. *)
Definition safestOk (ai : AIController) (head currentDir : cell) (obstacles : list cell) (d : cell) : Prop :=
  ~ (cx d = - cx currentDir /\ cz d = - cz currentDir) /\
  inBounds (grid ai) (addDir head d) = true /\ isOccupied (addDir head d) obstacles = false.

(** ** Proof vocabulary for the decision step *)

(** Labels counted as accepted shortcuts and as fallbacks, and the mode each label sets. *)
Definition isAcceptedLabel (d : decisionLabel) : bool :=
  match d with DDirectFood _ | DEarlyChase _ | DShortcut _ => true | _ => false end.

Definition isFallbackLabel (d : decisionLabel) : bool :=
  match d with DFallback _ => true | _ => false end.

Definition labelMode (d : decisionLabel) : option aiMode :=
  match d with
  | DDirectFood _ | DEarlyChase _ | DShortcut _ => Some ModeShortcut
  | DCycle _ => Some ModeCycle
  | DFallback _ => Some ModeFallback
  | _ => None
  end.


(** What makes a move a candidate of [getDirectSafeFoodMove]: it lands on
    a fruit, and growing onto it succeeds, keeps the cycle order and leaves
    an escape route; the value is the survival score of the result. *)
Definition directFoodValue (ai : AIController) (snake foods : list cell) (m : move) : option Z :=
  if negb (isFoodCell (pos m) foods) then None
  else match simulateMove (grid ai) (bombPositions ai) snake (pos m) true with
       | None => None
       | Some r =>
           if negb (validateCycleOrder ai (sim_snake r) true) then None
           else if negb (hasEscapeRoute ai (sim_snake r)) then None
           else Some (scoreSurvivalState ai (sim_snake r) foods + 420)
       end.

Definition directFoodCand (ai : AIController) (snake : list cell) (m : move) (sc : Q) : candidate :=
  mkCand m sc (RCell (pos m))
    (match simulateMove (grid ai) (bombPositions ai) snake (pos m) true with
     | Some r => getCycleTailBuffer ai (sim_snake r) | None => 0 end)
    (Some 99) None.

(** ** Proof vocabulary for [floodFill] and [bfs] *)

(** The cells a flood fill from [s] may count: [s] itself when it is free,
    and whatever a walk through free cells leads to from there. *)
Definition ffReach (g : GridBounds) (obstacles : list cell) (s c : cell) : Prop :=
  freeCell g obstacles s /\
  exists p, walk (freeCell g obstacles) s p /\ last p s = c.

(** The flood-fill loop invariant with obstacles, from [s]. *)
Definition ffo_inv (g : GridBounds) (obstacles : list cell) (s : cell)
    (visited queue : list cell) (count : Z) : Prop :=
  NoDup visited /\ count = Z.of_nat (length visited) /\
  (forall v, In v visited -> ffReach g obstacles s v) /\
  (forall q, In q queue -> q = s \/ exists v, In v visited /\ In q (getNeighbors v)) /\
  (forall v n, In v visited -> In n (getNeighbors v) -> freeCell g obstacles n ->
               In n visited \/ In n queue) /\
  (freeCell g obstacles s -> In s visited \/ In s queue).

(** The invariant of the BFS loop at level [k]: [D] holds the popped cells,
    [pushed ++ [start]] is the visited set. *)
Definition bfs_inv (g : GridBounds) (obstacles : list cell) (start target : cell) (k : nat)
    (D pushed : list cell) (queue : list (cell * list cell)) : Prop :=
  let ok := freeCell g obstacles in
  NoDup (pushed ++ [start]) /\
  (forall c, In c pushed -> ok c) /\
  (forall c p, In (c, p) queue -> walk ok start p /\ last p start = c) /\
  (forall c p q, In (c, p) queue -> walk ok start q -> last q start = c ->
                 (length p <= length q)%nat) /\
  (exists a b, queue = a ++ b /\ (forall e, In e a -> length (snd e) = k) /\
               (forall e, In e b -> length (snd e) = S k)) /\
  (forall c q, walk ok start q -> last q start = c -> (length q <= k)%nat ->
               In c (pushed ++ [start])) /\
  (forall c, In c (pushed ++ [start]) -> In c D \/ exists p, In (c, p) queue) /\
  (forall d n, In d D -> In n (getNeighbors d) -> ok n -> In n (pushed ++ [start])) /\
  ~ In target D.

(** Following a path step by step with [simulateMove], growing only on the
    last step and only when it lands on [target], as [validateShortcutPath]
    does, without its cycle and buffer checks. *)
Fixpoint followPath (ai : AIController) (snake path : list cell) (target : cell)
    : option (list cell) :=
  match path with
  | [] => Some snake
  | step :: rest =>
      let isLastStep := match rest with [] => true | _ :: _ => false end in
      let grows := isLastStep && cell_eqb step target in
      match simulateMove (grid ai) (bombPositions ai) snake step grows with
      | None => None
      | Some r => followPath ai (sim_snake r) rest target
      end
  end.

(** * Proofs *)

Lemma cell_eqb_spec (a b : cell) : cell_eqb a b = true <-> a = b.
Proof.
  destruct a as [ax az], b as [bx bz]; unfold cell_eqb; simpl.
  rewrite andb_true_iff, !Z.eqb_eq; split.
  - intros [-> ->]; reflexivity.
  - intros H; injection H; auto.
Qed.

Lemma cell_eqb_refl (a : cell) : cell_eqb a a = true.
Proof. apply cell_eqb_spec; reflexivity. Qed.

Lemma cell_eqb_false (a b : cell) : cell_eqb a b = false <-> a <> b.
Proof.
  rewrite <- cell_eqb_spec; destruct (cell_eqb a b); split; congruence.
Qed.

Lemma mem_In (c : cell) (l : list cell) : mem c l = true <-> In c l.
Proof.
  unfold mem; rewrite existsb_exists; split.
  - intros [y [Hy E]]; apply cell_eqb_spec in E; subst; exact Hy.
  - intros H; exists c; split; [exact H | apply cell_eqb_refl].
Qed.

(** [Math.abs(a.x - b.x) + Math.abs(a.z - b.z)] *)
(** ** Basic facts on ranges, grid enumeration and the cycle scans *)

Lemma In_zrange (a v : Z) (n : nat) : In v (zrange a n) <-> a <= v < a + Z.of_nat n.
Proof.
  revert a; induction n as [|n IH]; intros a; simpl.
  - lia.
  - rewrite IH; lia.
Qed.

Lemma length_zrange (a : Z) (n : nat) : length (zrange a n) = n.
Proof. revert a; induction n; intros a; simpl; auto. Qed.

Lemma In_upto (lo hi v : Z) : In v (upto lo hi) <-> lo <= v < hi.
Proof. unfold upto; rewrite In_zrange; lia. Qed.

Lemma In_downto (hi lo v : Z) : In v (downto hi lo) <-> lo <= v <= hi.
Proof. unfold downto; rewrite <- in_rev, In_upto; lia. Qed.

Lemma In_gridCells (g : GridBounds) (c : cell) : In c (gridCells g) <-> inBounds g c = true.
Proof.
  unfold gridCells, inBounds; rewrite in_flat_map; split.
  - intros [x [Hx Hc]]; apply in_map_iff in Hc; destruct Hc as [z [<- Hz]].
    apply In_upto in Hx, Hz; simpl.
    repeat rewrite andb_true_iff; rewrite !Z.leb_le; lia.
  - repeat rewrite andb_true_iff; rewrite !Z.leb_le; intros H.
    exists (cx c); split; [apply In_upto; lia|].
    apply in_map_iff; exists (cz c); split; [destruct c; reflexivity | apply In_upto; lia].
Qed.

Lemma length_flat_map_const {A B : Type} (f : A -> list B) (k : nat) (l : list A) :
  (forall a, length (f a) = k) -> length (flat_map f l) = (length l * k)%nat.
Proof.
  intros Hf; induction l as [|a l IH]; simpl; [reflexivity|].
  rewrite length_app, Hf, IH; reflexivity.
Qed.

Lemma length_gridCells (g : GridBounds) :
  0 <= width g -> 0 <= height g ->
  Z.of_nat (length (gridCells g)) = cellCount g.
Proof.
  intros Hw Hh; unfold gridCells, cellCount.
  rewrite (length_flat_map_const _ (Z.to_nat (height g))).
  - unfold upto; rewrite length_zrange, Nat2Z.inj_mul, !Z2Nat.id; unfold maxX; lia.
  - intros x; rewrite length_map; unfold upto; rewrite length_zrange; f_equal; unfold maxZ; lia.
Qed.

Lemma buildCycleEvenWidth_local (w h : Z) (c : cell) :
  2 <= w -> 2 <= h -> In c (buildCycleEvenWidth w h) -> 0 <= cx c < w /\ 0 <= cz c < h.
Proof.
  intros Hw Hh; unfold buildCycleEvenWidth; rewrite !in_app_iff.
  intros [[<-|[]] | [Hc | [Hc | Hc]]].
  - simpl; lia.
  - apply in_map_iff in Hc; destruct Hc as [x [<- Hx]]; apply In_upto in Hx; simpl; lia.
  - apply in_flat_map in Hc; destruct Hc as [z [Hz Hc]]; apply In_upto in Hz.
    destruct (Z.rem z 2 =? 1).
    + destruct Hc as [<-|Hc]; [simpl; lia|].
      apply in_map_iff in Hc; destruct Hc as [x [<- Hx]]; apply In_downto in Hx; simpl; lia.
    + destruct Hc as [<-|Hc]; [simpl; lia|].
      apply in_map_iff in Hc; destruct Hc as [x [<- Hx]]; apply In_upto in Hx; simpl; lia.
  - apply in_map_iff in Hc; destruct Hc as [z [<- Hz]]; apply In_downto in Hz; simpl; lia.
Qed.

Lemma buildCycleEvenHeight_local (w h : Z) (c : cell) :
  2 <= w -> 2 <= h -> In c (buildCycleEvenHeight w h) -> 0 <= cx c < w /\ 0 <= cz c < h.
Proof.
  intros Hw Hh; unfold buildCycleEvenHeight; rewrite !in_app_iff.
  intros [[<-|[]] | [Hc | [Hc | Hc]]].
  - simpl; lia.
  - apply in_map_iff in Hc; destruct Hc as [z [<- Hz]]; apply In_upto in Hz; simpl; lia.
  - apply in_flat_map in Hc; destruct Hc as [x [Hx Hc]]; apply In_upto in Hx.
    destruct (Z.rem x 2 =? 1).
    + destruct Hc as [<-|Hc]; [simpl; lia|].
      apply in_map_iff in Hc; destruct Hc as [z [<- Hz]]; apply In_downto in Hz; simpl; lia.
    + destruct Hc as [<-|Hc]; [simpl; lia|].
      apply in_map_iff in Hc; destruct Hc as [z [<- Hz]]; apply In_upto in Hz; simpl; lia.
  - apply in_map_iff in Hc; destruct Hc as [x [<- Hx]]; apply In_downto in Hx; simpl; lia.
Qed.

Lemma hasDuplicate_false (seen l : list cell) :
  hasDuplicate seen l = false -> NoDup l /\ (forall c, In c l -> ~ In c seen).
Proof.
  revert seen; induction l as [|c l IH]; intros seen H; simpl in H.
  - split; [constructor | intros _ []].
  - destruct (mem c seen) eqn:Hm; [discriminate|].
    destruct (IH _ H) as [Hnd Hdis]; split.
    + constructor; [|exact Hnd].
      intros Hin; apply (Hdis c Hin); left; reflexivity.
    + intros d [<-|Hd].
      * intros Hin; apply mem_In in Hin; congruence.
      * intros Hin; apply (Hdis d Hd); right; exact Hin.
Qed.

Lemma allAdjacent_true (l : list cell) (i : nat) :
  allAdjacent l = true -> (i < length l)%nat ->
  manhattan (nth i l (mkCell 0 0)) (nth (Nat.modulo (i + 1) (length l)) l (mkCell 0 0)) = 1.
Proof.
  unfold allAdjacent; rewrite forallb_forall; intros H Hi.
  apply Z.eqb_eq, H, in_seq; lia.
Qed.

(** A NoDup list of in-bounds cells with [cellCount] elements holds every
    in-bounds cell. *)
Lemma nodup_full_covers (g : GridBounds) (l : list cell) :
  0 <= width g -> 0 <= height g ->
  NoDup l -> (forall c, In c l -> inBounds g c = true) ->
  Z.of_nat (length l) = cellCount g ->
  forall c, inBounds g c = true -> In c l.
Proof.
  intros Hw Hh Hnd Hin Hlen c Hc.
  assert (Hincl : incl (gridCells g) l).
  { apply NoDup_length_incl; [exact Hnd| |].
    - pose proof (length_gridCells g Hw Hh); lia.
    - intros d Hd; apply In_gridCells, Hin, Hd. }
  apply Hincl, In_gridCells, Hc.
Qed.

Lemma fromLocal_inBounds (g : GridBounds) (c : cell) :
  0 <= cx c < width g -> 0 <= cz c < height g -> inBounds g (fromLocal g c) = true.
Proof.
  intros H1 H2; unfold inBounds, fromLocal, maxX, maxZ; simpl.
  repeat rewrite andb_true_iff; rewrite !Z.leb_le; lia.
Qed.

(** What a successful [buildCycle] leaves in the object. *)
Lemma cycle_valid_facts (g : GridBounds) :
  isValid (newHamiltonianCycle g) = true ->
  let ord := order (newHamiltonianCycle g) in
  2 <= width g /\ 2 <= height g /\
  Z.of_nat (length ord) = width g * height g /\
  NoDup ord /\ (forall c, In c ord -> inBounds g c = true) /\
  allAdjacent ord = true /\
  indexByKey (newHamiltonianCycle g) = indexTable 0 ord.
Proof.
  unfold isValid, newHamiltonianCycle; cbv zeta.
  destruct ((width g <? 2) || (height g <? 2)) eqn:E1; [discriminate|].
  apply orb_false_iff in E1; destruct E1 as [E1 E1']; apply Z.ltb_ge in E1, E1'.
  destruct (negb (Z.rem (width g) 2 =? 0) && negb (Z.rem (height g) 2 =? 0)); [discriminate|].
  set (lo := if Z.rem (width g) 2 =? 0 then buildCycleEvenWidth (width g) (height g)
             else buildCycleEvenHeight (width g) (height g)).
  assert (Hlo : forall c, In c lo -> 0 <= cx c < width g /\ 0 <= cz c < height g).
  { intros c Hc; unfold lo in Hc; destruct (Z.rem (width g) 2 =? 0).
    - apply buildCycleEvenWidth_local; assumption.
    - apply buildCycleEvenHeight_local; assumption. }
  clearbody lo.
  destruct (negb (Z.of_nat (length lo) =? width g * height g)) eqn:E3; [discriminate|].
  destruct (hasDuplicate [] (map (fromLocal g) lo)) eqn:E4; [discriminate|].
  destruct (negb (allAdjacent (map (fromLocal g) lo))) eqn:E5; [discriminate|].
  intros _; simpl.
  apply negb_false_iff, Z.eqb_eq in E3.
  apply negb_false_iff in E5.
  destruct (hasDuplicate_false _ _ E4) as [Hnd _].
  rewrite length_map.
  repeat split; try assumption; try reflexivity.
  intros c Hc; apply in_map_iff in Hc; destruct Hc as [d [<- Hd]].
  destruct (Hlo d Hd); apply fromLocal_inBounds; assumption.
Qed.

Lemma cycle_valid_length_pos (g : GridBounds) :
  isValid (newHamiltonianCycle g) = true ->
  0 < Z.of_nat (length (order (newHamiltonianCycle g))).
Proof.
  intros H; destruct (cycle_valid_facts g H) as (Hw & Hh & Hl & _); rewrite Hl; nia.
Qed.

(** Claim C2. Whenever [isValid()] holds, the cycle's [order] has length
    [width * height], holds every in-bounds cell exactly once and nothing
    out of bounds, and each of its cells is at Manhattan distance 1 from the
    next one, the last from the first. *)
Theorem cycle_valid_covers_grid (g : GridBounds) :
  isValid (newHamiltonianCycle g) = true ->
  let ord := order (newHamiltonianCycle g) in
  Z.of_nat (length ord) = width g * height g /\
  (forall c, inBounds g c = true -> count_occ cell_eq_dec ord c = 1%nat) /\
  (forall c, In c ord -> inBounds g c = true) /\
  (forall i, (i < length ord)%nat ->
     manhattan (nth i ord (mkCell 0 0)) (nth (Nat.modulo (i + 1) (length ord)) ord (mkCell 0 0)) = 1).
Proof.
  intros Hv; destruct (cycle_valid_facts g Hv) as (Hw & Hh & Hl & Hnd & Hin & Hadj & _).
  cbv zeta; split; [exact Hl|]; split; [|split; [exact Hin|]].
  - intros c Hc; apply NoDup_count_occ'; [exact Hnd|].
    apply (nodup_full_covers g); try lia; try assumption.
  - intros i Hi; apply allAdjacent_true; assumption.
Qed.

Lemma cycle_valid_covers_grid_witness :
  isValid (newHamiltonianCycle (mkGrid 4 2 0 0)) = true /\
  let ord := order (newHamiltonianCycle (mkGrid 4 2 0 0)) in
  Z.of_nat (length ord) = width (mkGrid 4 2 0 0) * height (mkGrid 4 2 0 0) /\
  (forall c, inBounds (mkGrid 4 2 0 0) c = true -> count_occ cell_eq_dec ord c = 1%nat) /\
  (forall c, In c ord -> inBounds (mkGrid 4 2 0 0) c = true) /\
  (forall i, (i < length ord)%nat ->
     manhattan (nth i ord (mkCell 0 0)) (nth (Nat.modulo (i + 1) (length ord)) ord (mkCell 0 0)) = 1).
Proof.
  split; [vm_compute; reflexivity|].
  apply (cycle_valid_covers_grid (mkGrid 4 2 0 0)); vm_compute; reflexivity.
Defined.

(** Claim C7 (counterexample). On a 3 x 3 board the cycle is invalid and
    [distanceForward(0, 0)] is [Infinity], not [0 = (0 - 0) mod length]. *)
Lemma distanceForward_invalid_cycle_infinite :
  isValid (newHamiltonianCycle (mkGrid 3 3 (-1) (-1))) = false /\
  distanceForward (newHamiltonianCycle (mkGrid 3 3 (-1) (-1))) 0 0 = JInf.
Proof. split; vm_compute; reflexivity. Qed.

(** A single [+ length] does not bring every difference into range: on the
    valid 2 x 2 cycle [distanceForward(9, 0)] is [-1]. *)
Example distanceForward_far_apart :
  distanceForward (newHamiltonianCycle (mkGrid 2 2 0 0)) 9 0 = JFin (-1).
Proof. vm_compute; reflexivity. Qed.

(** Claim C7 (amended). For an invalid cycle [distanceForward] is
    [Infinity]. For a valid one, of length [n > 0],
    [distanceForward(i, i) = 0] for every integer [i], and whenever
    [toIndex - fromIndex >= -n] (in particular for all indices in
    [[0, n)]) it is [(toIndex - fromIndex) mod n], which lies in [[0, n)]. *)
Theorem distanceForward_mod_in_range (g : GridBounds) (fromIndex toIndex : Z) :
  let hc := newHamiltonianCycle g in
  let n := Z.of_nat (length (order hc)) in
  (isValid hc = false -> distanceForward hc fromIndex toIndex = JInf) /\
  (isValid hc = true -> distanceForward hc fromIndex fromIndex = JFin 0) /\
  (isValid hc = true -> - n <= toIndex - fromIndex ->
     distanceForward hc fromIndex toIndex = JFin ((toIndex - fromIndex) mod n) /\
     0 <= (toIndex - fromIndex) mod n < n).
Proof.
  cbv zeta; unfold distanceForward, forwardDelta, isValid.
  split; [intros ->; reflexivity|].
  split; intros Hv; pose proof (cycle_valid_length_pos g Hv) as Hn; unfold isValid in Hv;
    rewrite Hv; simpl negb; cbv iota;
    destruct (Z.of_nat (length (order (newHamiltonianCycle g))) =? 0) eqn:E;
    try (apply Z.eqb_eq in E; lia); simpl orb; cbv iota.
  - f_equal; replace (fromIndex - fromIndex + _) with (Z.of_nat (length (order (newHamiltonianCycle g)))) by lia.
    apply Z.rem_same; lia.
  - intros Hr; split.
    + f_equal; rewrite Z.rem_mod_nonneg by lia.
      rewrite <- Z.add_mod_idemp_r by lia; rewrite Z.mod_same by lia; f_equal; lia.
    + apply Z.mod_pos_bound; lia.
Qed.

Lemma selfCollision_spec (snake : list cell) (nextPos : cell) (grows : bool) :
  selfCollision snake nextPos grows = true <->
  exists i, (1 <= i < length snake)%nat /\ nth_error snake i = Some nextPos /\
            (grows = true \/ i <> (length snake - 1)%nat).
Proof.
  unfold selfCollision; rewrite existsb_exists; split.
  - intros [i [Hi H]]; apply in_seq in Hi.
    destruct (Nat.eqb i (length snake - 1) && negb grows) eqn:E; [discriminate|].
    apply cell_eqb_spec in H.
    exists i; split; [lia|]; split.
    + rewrite <- H; apply nth_error_nth'; lia.
    + destruct grows; [left; reflexivity|right].
      rewrite andb_true_r in E; apply Nat.eqb_neq in E; exact E.
  - intros [i [Hi [Hn Hg]]]; exists i; split; [apply in_seq; lia|].
    replace (Nat.eqb i (length snake - 1) && negb grows) with false.
    + apply cell_eqb_spec; apply nth_error_nth with (d := mkCell 0 0) in Hn; exact Hn.
    + destruct Hg as [-> | Hne]; [rewrite andb_false_r; reflexivity|].
      apply Nat.eqb_neq in Hne; rewrite Hne; reflexivity.
Qed.

(** Claim C3. [simulateMove] rejects exactly the moves that leave the
    board, hit a hazard, or hit a body segment of index [i >= 1] other than
    a vacating tail; otherwise the new body is [nextPos] prepended to the
    old one, with the last segment dropped when the snake does not grow. *)
Theorem simulateMove_spec (g : GridBounds) (bombPositions snake : list cell)
    (nextPos : cell) (grows : bool) :
  (simulateMove g bombPositions snake nextPos grows = None <->
     inBounds g nextPos = false \/ In nextPos bombPositions \/
     exists i, (1 <= i < length snake)%nat /\ nth_error snake i = Some nextPos /\
               (grows = true \/ i <> (length snake - 1)%nat)) /\
  (forall r, simulateMove g bombPositions snake nextPos grows = Some r ->
     sim_snake r = if grows then nextPos :: snake else removelast (nextPos :: snake)).
Proof.
  unfold simulateMove, isOccupied; split.
  - rewrite <- selfCollision_spec, <- mem_In.
    destruct (inBounds g nextPos), (selfCollision snake nextPos grows),
             (mem nextPos bombPositions); simpl; intuition congruence.
  - intros r; destruct (negb (inBounds g nextPos)); [discriminate|].
    destruct (selfCollision snake nextPos grows); [discriminate|].
    destruct (mem nextPos bombPositions); [discriminate|].
    intros H; injection H as <-; reflexivity.
Qed.


(** ** Grid connectivity and flood fill *)

Lemma NoDup_zrange (a : Z) (n : nat) : NoDup (zrange a n).
Proof.
  revert a; induction n as [|n IH]; intros a; simpl; constructor; [|apply IH].
  rewrite In_zrange; lia.
Qed.

Lemma NoDup_gridCells (g : GridBounds) : NoDup (gridCells g).
Proof.
  unfold gridCells.
  assert (Hzs : NoDup (upto (minZ g) (maxZ g + 1))) by apply NoDup_zrange.
  assert (Hxs : NoDup (upto (minX g) (maxX g + 1))) by apply NoDup_zrange.
  revert Hzs Hxs; generalize (upto (minZ g) (maxZ g + 1)) as zs;
    generalize (upto (minX g) (maxX g + 1)) as xs; intros xs zs Hzs Hxs.
  induction Hxs as [|x xs Hx Hxs IH]; simpl; [constructor|].
  apply NoDup_app; [| apply IH |].
  - clear -Hzs; induction Hzs as [|z l Hz Hl IHl]; simpl; constructor; [|exact IHl].
    intros Hin; apply in_map_iff in Hin; destruct Hin as [z' [E Hz']].
    injection E as ->; contradiction.
  - intros c Hc Hc'; apply in_map_iff in Hc; destruct Hc as [z [<- _]].
    apply in_flat_map in Hc'; destruct Hc' as [x' [Hx' Hc']].
    apply in_map_iff in Hc'; destruct Hc' as [z' [E _]]; injection E as E _.
    subst x'; contradiction.
Qed.

Lemma inBounds_iff (g : GridBounds) (c : cell) :
  inBounds g c = true <-> minX g <= cx c <= maxX g /\ minZ g <= cz c <= maxZ g.
Proof.
  unfold inBounds; repeat rewrite andb_true_iff; rewrite !Z.leb_le; tauto.
Qed.

Lemma In_getNeighbors (p n : cell) : In n (getNeighbors p) <-> manhattan p n = 1.
Proof.
  destruct p as [x z], n as [a b]; unfold getNeighbors, manhattan; simpl; split.
  - intros [H|[H|[H|[H|[]]]]]; injection H as <- <-; lia.
  - intros H.
    destruct (Z.eq_dec a x) as [->|Ha].
    + assert (b = z - 1 \/ b = z + 1) as [->| ->] by lia; auto.
    + assert (b = z) as -> by lia.
      assert (a = x - 1 \/ a = x + 1) as [->| ->] by lia; auto.
Qed.

(** A set of cells that holds an in-bounds cell and every in-bounds
    neighbour of its members holds the whole board. *)
Lemma closed_set_covers (g : GridBounds) (V : list cell) (s : cell) :
  inBounds g s = true -> In s V ->
  (forall v n, In v V -> In n (getNeighbors v) -> inBounds g n = true -> In n V) ->
  forall c, inBounds g c = true -> In c V.
Proof.
  intros Hs HsV Hcl.
  assert (Hk : forall k c, (Z.to_nat (manhattan c s) <= k)%nat -> inBounds g c = true -> In c V).
  { intros k; induction k as [|k IH]; intros c Hck Hc;
      (destruct (cell_eq_dec c s) as [->|Hne]; [exact HsV|]).
    - exfalso; apply Hne; destruct c, s; unfold manhattan in Hck; simpl in Hck; f_equal; lia.
    - pose proof Hs as Hs'; apply inBounds_iff in Hs', Hc.
      destruct s as [sx sz], c as [x z]; simpl in *.
      set (c' := if x <? sx then mkCell (x + 1) z else if sx <? x then mkCell (x - 1) z
                 else if z <? sz then mkCell x (z + 1) else mkCell x (z - 1)).
      assert (Hc' : inBounds g c' = true /\ (Z.to_nat (manhattan c' (mkCell sx sz)) <= k)%nat
                    /\ In (mkCell x z) (getNeighbors c')).
      { unfold c'; rewrite inBounds_iff, In_getNeighbors; unfold manhattan in *; simpl in *.
        destruct (x <? sx) eqn:E1; [apply Z.ltb_lt in E1 | apply Z.ltb_ge in E1].
        { simpl; repeat split; lia. }
        destruct (sx <? x) eqn:E2; [apply Z.ltb_lt in E2 | apply Z.ltb_ge in E2].
        { simpl; repeat split; lia. }
        assert (x = sx) by lia; subst x.
        assert (z <> sz) by (intros ->; apply Hne; reflexivity).
        destruct (z <? sz) eqn:E3; [apply Z.ltb_lt in E3 | apply Z.ltb_ge in E3];
          simpl; repeat split; lia. }
      destruct Hc' as (Hb & Hm & Hn).
      apply (Hcl c'); [apply IH; assumption | exact Hn | apply inBounds_iff; simpl; lia]. }
  intros c Hc; apply (Hk _ c (le_n _) Hc).
Qed.

Lemma nodup_inbounds_le (g : GridBounds) (l : list cell) :
  0 <= width g -> 0 <= height g ->
  NoDup l -> (forall c, In c l -> inBounds g c = true) ->
  Z.of_nat (length l) <= cellCount g.
Proof.
  intros Hw Hh Hnd Hin; rewrite <- (length_gridCells g Hw Hh).
  apply Nat2Z.inj_le, NoDup_incl_length; [exact Hnd|].
  intros c Hc; apply In_gridCells, Hin, Hc.
Qed.

Lemma inBounds_dims (g : GridBounds) (c : cell) :
  inBounds g c = true -> 1 <= width g /\ 1 <= height g.
Proof. rewrite inBounds_iff; unfold maxX, maxZ; lia. Qed.

(** The flood-fill loop invariant, with no obstacles, from [s]. *)
Definition ff_inv (g : GridBounds) (s : cell) (visited queue : list cell) (count : Z) : Prop :=
  NoDup visited /\ count = Z.of_nat (length visited) /\
  (forall v, In v visited -> inBounds g v = true) /\
  (forall v n, In v visited -> In n (getNeighbors v) -> inBounds g n = true ->
               In n visited \/ In n queue) /\
  (In s visited \/ In s queue).

Lemma length_filter_le {A : Type} (f : A -> bool) (l : list A) :
  (length (filter f l) <= length l)%nat.
Proof. induction l as [|a l IH]; simpl; [lia|destruct (f a); simpl; lia]. Qed.

Lemma floodLoop_no_obstacles (g : GridBounds) (s : cell) :
  inBounds g s = true ->
  forall fuel visited queue count,
  ff_inv g s visited queue count ->
  4 * (cellCount g - count) + Z.of_nat (length queue) <= Z.of_nat fuel ->
  floodLoop g [] fuel visited queue count = cellCount g.
Proof.
  intros Hs; destruct (inBounds_dims g s Hs) as [Hw Hh].
  induction fuel as [|fuel IH]; intros visited queue count Hinv Hm;
    destruct Hinv as (Hnd & Hcnt & Hin & Hcl & Hst);
    pose proof (nodup_inbounds_le g visited ltac:(lia) ltac:(lia) Hnd Hin) as Hle.
  - simpl; lia.
  - destruct queue as [|pos rest]; cbn [floodLoop].
    + (* the queue is exhausted: every cell has been reached *)
      assert (Hall : forall c, inBounds g c = true -> In c visited).
      { apply (closed_set_covers g visited s Hs).
        - destruct Hst as [H|[]]; exact H.
        - intros v n Hv Hn Hb; destruct (Hcl v n Hv Hn Hb) as [H|[]]; exact H. }
      assert (Z.of_nat (length (gridCells g)) <= count).
      { rewrite Hcnt; apply Nat2Z.inj_le, NoDup_incl_length; [apply NoDup_gridCells|].
        intros c Hc; apply Hall, In_gridCells, Hc. }
      rewrite (length_gridCells g) in H by lia; lia.
    + destruct (count <? cellCount g) eqn:Ec; cbn [negb]; [|apply Z.ltb_ge in Ec; lia].
      apply Z.ltb_lt in Ec.
      destruct (mem pos visited || mem pos [] || negb (inBounds g pos)) eqn:Eskip.
      * (* the entry is skipped *)
        apply IH; [|cbn [length] in Hm; rewrite !Nat2Z.inj_succ in Hm; lia].
        assert (Hpos : inBounds g pos = true -> In pos visited).
        { intros Hb; rewrite Hb in Eskip; simpl in Eskip.
          rewrite !orb_false_r in Eskip; apply mem_In, Eskip. }
        repeat split; try assumption.
        -- intros v n Hv Hn Hb; destruct (Hcl v n Hv Hn Hb) as [H|[<-|H]]; auto.
        -- destruct Hst as [H|[<-|H]]; auto.
      * (* a new cell is counted *)
        simpl in Eskip; rewrite orb_false_r in Eskip.
        apply orb_false_iff in Eskip; destruct Eskip as [Ev Eb].
        apply negb_false_iff in Eb.
        assert (Hv : ~ In pos visited) by (intros H; apply mem_In in H; congruence).
        apply IH.
        -- repeat split.
           ++ constructor; assumption.
           ++ simpl; lia.
           ++ intros v [<-|Hv']; auto.
           ++ intros v n [<-|Hv'] Hn Hb.
              ** destruct (mem n (pos :: visited)) eqn:Em.
                 { left; apply mem_In, Em. }
                 right; apply in_or_app; right; apply filter_In; split; [exact Hn|].
                 rewrite Em; reflexivity.
              ** destruct (Hcl v n Hv' Hn Hb) as [H|[<-|H]].
                 { left; right; exact H. }
                 { left; left; reflexivity. }
                 right; apply in_or_app; left; exact H.
           ++ destruct Hst as [H|[<-|H]].
              { left; right; exact H. }
              { left; left; reflexivity. }
              right; apply in_or_app; left; exact H.
        -- rewrite length_app.
           pose proof (length_filter_le (fun n => negb (mem n (pos :: visited))) (getNeighbors pos)).
           cbn [length getNeighbors] in H, Hm |- *; rewrite !Nat2Z.inj_succ in Hm; lia.
Qed.

(** Claim C6. With no obstacles, a flood fill from any in-bounds cell counts
    exactly [cellCount = width * height] cells. *)
Theorem floodFill_empty_counts_all (g : GridBounds) (c : cell) :
  inBounds g c = true -> floodFill g c [] = cellCount g.
Proof.
  intros Hc; unfold floodFill.
  destruct (inBounds_dims g c Hc) as [Hw Hh].
  apply floodLoop_no_obstacles with (s := c); [exact Hc| |].
  - repeat split; simpl; try tauto; constructor.
  - assert (0 <= cellCount g) by (unfold cellCount; nia).
    rewrite Nat2Z.inj_add, Nat2Z.inj_mul, Z2Nat.id by lia; cbn [length Z.of_nat Pos.of_succ_nat]; lia.
Qed.

Lemma floodFill_empty_counts_all_witness :
  inBounds (mkGrid 3 4 (-1) (-2)) (mkCell 0 0) = true /\
  floodFill (mkGrid 3 4 (-1) (-2)) (mkCell 0 0) [] = cellCount (mkGrid 3 4 (-1) (-2)).
Proof.
  split; [vm_compute; reflexivity|].
  apply (floodFill_empty_counts_all (mkGrid 3 4 (-1) (-2)) (mkCell 0 0)); vm_compute; reflexivity.
Defined.

(** ** Fruit targets *)

Lemma insertByDistance_perm (head x : cell) (l : list cell) :
  Permutation (insertByDistance head x l) (x :: l).
Proof.
  induction l as [|y l IH]; simpl; [reflexivity|].
  destruct (manhattan head x <? manhattan head y); [reflexivity|].
  rewrite IH; apply perm_swap.
Qed.

Lemma sortByDistance_perm (head : cell) (foods : list cell) :
  Permutation (sortByDistance head foods) foods.
Proof.
  unfold sortByDistance.
  assert (H : forall acc, Permutation (fold_left (fun acc x => insertByDistance head x acc) foods acc)
                                      (foods ++ acc)).
  { induction foods as [|x l IH]; intros acc; simpl; [reflexivity|].
    rewrite IH, insertByDistance_perm; symmetry; apply Permutation_middle. }
  rewrite H, app_nil_r; reflexivity.
Qed.

Lemma insertByDistance_hd (head x y : cell) (rest : list cell) :
  manhattan head y <= manhattan head x ->
  HdRel (fun a b => manhattan head a <= manhattan head b) y rest ->
  HdRel (fun a b => manhattan head a <= manhattan head b) y (insertByDistance head x rest).
Proof.
  intros Hyx Hr; destruct rest as [|z rest]; cbn [insertByDistance]; [constructor; exact Hyx|].
  inversion Hr; subst.
  destruct (manhattan head x <? manhattan head z); constructor; assumption.
Qed.

Lemma insertByDistance_sorted (head x : cell) (l : list cell) :
  Sorted (fun a b => manhattan head a <= manhattan head b) l ->
  Sorted (fun a b => manhattan head a <= manhattan head b) (insertByDistance head x l).
Proof.
  induction l as [|y rest IH]; intros Hs; cbn [insertByDistance]; [repeat constructor|].
  destruct (manhattan head x <? manhattan head y) eqn:E.
  - apply Z.ltb_lt in E; constructor; [exact Hs|constructor; lia].
  - apply Z.ltb_ge in E; inversion Hs; subst.
    constructor; [apply IH; assumption|apply insertByDistance_hd; assumption].
Qed.

Lemma sortByDistance_sorted (head : cell) (foods : list cell) :
  Sorted (fun a b => manhattan head a <= manhattan head b) (sortByDistance head foods).
Proof.
  unfold sortByDistance.
  assert (H : forall acc, Sorted (fun a b => manhattan head a <= manhattan head b) acc ->
    Sorted (fun a b => manhattan head a <= manhattan head b)
      (fold_left (fun acc x => insertByDistance head x acc) foods acc)).
  { induction foods as [|x foods IH]; intros acc Hacc; [exact Hacc|].
    apply IH, insertByDistance_sorted, Hacc. }
  apply H; constructor.
Qed.

Lemma filter_all_false {A : Type} (f : A -> bool) (l : list A) :
  (forall z, In z l -> f z = false) -> filter f l = [].
Proof.
  induction l as [|a l IH]; intros H; simpl; [reflexivity|].
  rewrite (H a (or_introl eq_refl)); apply IH; intros z Hz; apply H; right; exact Hz.
Qed.

Lemma insertByDistance_filter (head x : cell) (d : Z) (l : list cell) :
  Sorted (fun a b => manhattan head a <= manhattan head b) l ->
  filter (fun c => manhattan head c =? d) (insertByDistance head x l) =
    filter (fun c => manhattan head c =? d) l ++ (if manhattan head x =? d then [x] else []).
Proof.
  intros Hs.
  apply (Sorted_StronglySorted (R := fun a b => manhattan head a <= manhattan head b)) in Hs;
    [|intros a b c H1 H2; lia].
  induction l as [|y rest IH]; cbn [insertByDistance].
  - simpl; destruct (manhattan head x =? d); reflexivity.
  - inversion Hs as [|? ? Hrest Hf]; subst; rewrite Forall_forall in Hf.
    destruct (manhattan head x <? manhattan head y) eqn:E.
    + apply Z.ltb_lt in E.
      cbn [filter]; destruct (manhattan head x =? d) eqn:Ex.
      * apply Z.eqb_eq in Ex.
        assert (Hy : (manhattan head y =? d) = false) by (apply Z.eqb_neq; lia).
        rewrite Hy, (filter_all_false _ rest); [reflexivity|].
        intros z Hz; pose proof (Hf z Hz); apply Z.eqb_neq; lia.
      * rewrite app_nil_r; reflexivity.
    + cbn [filter]; rewrite (IH Hrest).
      destruct (manhattan head y =? d); reflexivity.
Qed.

Lemma sortByDistance_filter (head : cell) (d : Z) (foods : list cell) :
  filter (fun c => manhattan head c =? d) (sortByDistance head foods) =
    filter (fun c => manhattan head c =? d) foods.
Proof.
  unfold sortByDistance.
  assert (H : forall acc, Sorted (fun a b => manhattan head a <= manhattan head b) acc ->
    filter (fun c => manhattan head c =? d)
      (fold_left (fun acc x => insertByDistance head x acc) foods acc) =
    filter (fun c => manhattan head c =? d) acc ++ filter (fun c => manhattan head c =? d) foods).
  { induction foods as [|x foods IH]; intros acc Hacc; cbn [fold_left].
    - rewrite app_nil_r; reflexivity.
    - rewrite (IH _ (insertByDistance_sorted head x acc Hacc)), (insertByDistance_filter head x d acc Hacc).
      rewrite <- app_assoc; cbn [filter].
      destruct (manhattan head x =? d); reflexivity. }
  rewrite (H [] (Sorted_nil _)); reflexivity.
Qed.

(** Claim C8 (counterexample). On a 4 x 4 board at the origin, with body
    [(1,1) (1,2) (1,3)] and fruits [(2,1) (2,1) (9,9) (1,2)], the four
    nearest fruits examined by the chase policy hold a duplicate, a cell
    outside the board and a body cell. *)
Lemma food_targets_not_filtered :
  let g := mkGrid 4 4 0 0 in
  let body := [mkCell 1 1; mkCell 1 2; mkCell 1 3] in
  let cands := nearestFoods (mkCell 1 1)
                 (normalizeFoodTargets (FoodArray [FoodCell (mkCell 2 1); FoodCell (mkCell 2 1);
                                                   FoodCell (mkCell 9 9); FoodCell (mkCell 1 2)])) 4 in
  ~ (NoDup cands /\ forall f, In f cands -> inBounds g f = true /\ ~ In f body).
Proof.
  cbv zeta; intros [Hnd Hf].
  vm_compute in Hnd; inversion Hnd as [|x l Hx _]; subst.
  apply Hx; left; reflexivity.
Qed.

(** Claim C8 (amended). [normalizeFoodTargets] drops only non-cell entries:
    every cell entry is kept with its multiplicity, whether or not it is a
    duplicate, on the board or on the body. The policies' candidate lists
    are prefixes of [sortByDistance] of it, a stable sort by Manhattan
    distance from the head: a permutation of the fruits, ordered by
    distance, in which the fruits at any one distance keep their input
    order. *)
Theorem normalizeFoodTargets_keeps_cells (l : list foodItem) (head c : cell) (k : nat) :
  count_occ cell_eq_dec (normalizeFoodTargets (FoodArray l)) c = count_occ foodItem_eq_dec l (FoodCell c) /\
  normalizeFoodTargets (OneFood (FoodCell c)) = [c] /\
  normalizeFoodTargets (OneFood FoodJunk) = [] /\
  Permutation (sortByDistance head (normalizeFoodTargets (FoodArray l))) (normalizeFoodTargets (FoodArray l)) /\
  Sorted (fun a b => manhattan head a <= manhattan head b)
    (sortByDistance head (normalizeFoodTargets (FoodArray l))) /\
  (forall d, filter (fun f => manhattan head f =? d) (sortByDistance head (normalizeFoodTargets (FoodArray l))) =
             filter (fun f => manhattan head f =? d) (normalizeFoodTargets (FoodArray l))) /\
  nearestFoods head (normalizeFoodTargets (FoodArray l)) k =
    firstn k (sortByDistance head (normalizeFoodTargets (FoodArray l))).
Proof.
  split; [|split; [reflexivity|split; [reflexivity|split; [apply sortByDistance_perm|]]]].
  2: { split; [apply sortByDistance_sorted|split; [intros d; apply sortByDistance_filter|reflexivity]]. }
  simpl; induction l as [|[d|] l IH]; simpl; [reflexivity| |exact IH].
  destruct (cell_eq_dec d c) as [->|Hne].
  - destruct (foodItem_eq_dec (FoodCell c) (FoodCell c)) as [_|Hn]; [|congruence].
    rewrite IH; reflexivity.
  - destruct (foodItem_eq_dec (FoodCell d) (FoodCell c)) as [E|_]; [congruence|].
    exact IH.
Qed.

(** ** A* search *)

Lemma ltInf_false_trans (a b c : option Z) :
  ltInf a b = false -> ltInf c b = true -> ltInf a c = false.
Proof.
  destruct a as [a|], b as [b|], c as [c|]; simpl; try discriminate; try reflexivity.
  intros H1 H2; apply Z.ltb_ge in H1; apply Z.ltb_lt in H2; apply Z.ltb_ge; lia.
Qed.

Lemma skipn_S_tl {A : Type} (i : nat) (o : list A) : skipn (S i) o = tl (skipn i o).
Proof.
  revert o; induction i as [|i IH]; intros o; destruct o as [|a o]; try reflexivity.
  change (skipn (S (S i)) (a :: o)) with (skipn (S i) o); rewrite IH; reflexivity.
Qed.

Lemma firstn_S_nth {A : Type} (i : nat) (o : list A) (d : A) :
  (i < length o)%nat -> firstn (S i) o = firstn i o ++ [nth i o d].
Proof.
  revert o; induction i as [|i IH]; intros o Hi; destruct o as [|a o]; simpl in *; try lia.
  - reflexivity.
  - rewrite <- IH by lia; reflexivity.
Qed.

Lemma scanBest_gen (fS : cell -> option Z) (o : list cell) (d : cell) :
  forall l i bi cur,
  l = skipn i o -> (bi < i)%nat -> (i <= length o)%nat -> nth bi o d = cur ->
  (forall y, In y (firstn i o) -> ltInf (fS y) (fS cur) = false) ->
  let r := scanBest fS l i bi cur (fS cur) in
  (fst r < length o)%nat /\ nth (fst r) o d = snd r /\
  (forall y, In y o -> ltInf (fS y) (fS (snd r)) = false).
Proof.
  induction l as [|node l IH]; intros i bi cur Hl Hbi Hi Hcur Hmin; simpl.
  - assert (length o <= i)%nat.
    { destruct (Nat.le_gt_cases (length o) i) as [H|H]; [exact H|].
      exfalso; assert (length (skipn i o) <> 0)%nat by (rewrite length_skipn; lia).
      rewrite <- Hl in H0; simpl in H0; congruence. }
    rewrite firstn_all2 in Hmin by lia.
    split; [lia|]; split; [exact Hcur|exact Hmin].
  - assert (Hlen : (i < length o)%nat).
    { destruct (Nat.le_gt_cases (length o) i) as [H|H]; [|exact H].
      rewrite skipn_all2 in Hl by lia; discriminate. }
    assert (Hnode : nth i o d = node).
    { rewrite <- (firstn_skipn i o) at 1; rewrite app_nth2; rewrite length_firstn; [|lia].
      replace (i - Nat.min i (length o))%nat with 0%nat by lia; rewrite <- Hl; reflexivity. }
    assert (Hl' : l = skipn (S i) o) by (rewrite skipn_S_tl, <- Hl; reflexivity).
    assert (Hpre : forall y, In y (firstn (S i) o) <-> In y (firstn i o) \/ y = node).
    { intros y; rewrite (firstn_S_nth i o d Hlen), in_app_iff, Hnode; simpl; split; [intros [H|[H|[]]]; [left|right]; auto | intros [H| ->]; [left|right; left]; auto]. }
    destruct (ltInf (fS node) (fS cur)) eqn:E.
    + apply IH; try assumption; try lia.
      intros y Hy; apply Hpre in Hy; destruct Hy as [Hy| ->].
      * apply (ltInf_false_trans _ (fS cur)); [apply Hmin, Hy | exact E].
      * destruct (fS node) as [v|]; simpl; [apply Z.ltb_irrefl|reflexivity].
    + apply IH; try assumption; try lia.
      intros y Hy; apply Hpre in Hy; destruct Hy as [Hy| ->]; [apply Hmin, Hy | exact E].
Qed.

Lemma scanBest_spec (fS : cell -> option Z) (o : list cell) :
  o <> [] ->
  let r := scanBest fS (tl o) 1 0 (hd (mkCell 0 0) o) (fS (hd (mkCell 0 0) o)) in
  (fst r < length o)%nat /\ nth (fst r) o (mkCell 0 0) = snd r /\
  (forall y, In y o -> ltInf (fS y) (fS (snd r)) = false).
Proof.
  intros Ho; destruct o as [|a o]; [congruence|].
  apply scanBest_gen; simpl; try reflexivity; try lia.
  intros y [<-|[]]; destruct (fS a) as [v|]; simpl; [apply Z.ltb_irrefl|reflexivity].
Qed.

Lemma setNth_perm (l : list cell) (i : nat) (x d : cell) :
  (i < length l)%nat -> Permutation (x :: l) (nth i l d :: setNth l i x).
Proof.
  revert i; induction l as [|y l IH]; intros i Hi; simpl in Hi; [lia|].
  destruct i as [|i]; simpl.
  - apply perm_swap.
  - transitivity (y :: x :: l); [apply perm_swap|].
    transitivity (y :: nth i l d :: setNth l i x); [apply perm_skip, IH; lia | apply perm_swap].
Qed.

Lemma popSwap_perm (o : list cell) (bi : nat) :
  (bi < length o)%nat -> Permutation o (nth bi o (mkCell 0 0) :: popSwap o bi).
Proof.
  intros Hbi; destruct o as [|a o'] eqn:Eo; [simpl in Hbi; lia|].
  rewrite <- Eo in *; assert (Hne : o <> []) by congruence; clear a o' Eo.
  destruct (exists_last Hne) as [rest [t ->]].
  unfold popSwap; rewrite removelast_last, last_last.
  rewrite length_app in Hbi; simpl in Hbi.
  destruct (Nat.ltb bi (length rest)) eqn:E.
  - apply Nat.ltb_lt in E; rewrite app_nth1 by exact E.
    rewrite <- (setNth_perm rest bi t (mkCell 0 0) E).
    symmetry; apply Permutation_cons_append.
  - apply Nat.ltb_ge in E; replace bi with (length rest) by lia.
    rewrite nth_middle; symmetry; apply Permutation_cons_append.
Qed.

Lemma updMap_eq {A : Type} (m : cell -> option A) (k : cell) (v : A) : updMap m k v k = Some v.
Proof. unfold updMap; rewrite cell_eqb_refl; reflexivity. Qed.

Lemma updMap_neq {A : Type} (m : cell -> option A) (k k' : cell) (v : A) :
  k' <> k -> updMap m k v k' = m k'.
Proof. intros H; unfold updMap; apply cell_eqb_false in H; rewrite H; reflexivity. Qed.

Lemma updSet_eq (s : cell -> bool) (k : cell) (b : bool) : updSet s k b k = b.
Proof. unfold updSet; rewrite cell_eqb_refl; reflexivity. Qed.

Lemma updSet_neq (s : cell -> bool) (k k' : cell) (b : bool) :
  k' <> k -> updSet s k b k' = s k'.
Proof. intros H; unfold updSet; apply cell_eqb_false in H; rewrite H; reflexivity. Qed.

Lemma last_cons_default {A : Type} (c a : A) (p : list A) : last (c :: p) a = last p c.
Proof.
  revert c a; induction p as [|d p IH]; intros c a; [reflexivity|].
  change (last (c :: d :: p) a) with (last (d :: p) a); rewrite !IH; reflexivity.
Qed.

Lemma walk_app (ok : cell -> Prop) (a : cell) (p q : list cell) :
  walk ok a (p ++ q) <-> walk ok a p /\ walk ok (last p a) q.
Proof.
  revert a; induction p as [|c p IH]; intros a; [simpl; tauto|].
  rewrite <- app_comm_cons, last_cons_default; simpl; rewrite IH; tauto.
Qed.

Lemma walk_manhattan (ok : cell -> Prop) (a : cell) (p : list cell) :
  walk ok a p -> manhattan a (last p a) <= Z.of_nat (length p).
Proof.
  revert a; induction p as [|c p IH]; intros a Hw.
  - simpl; unfold manhattan; lia.
  - destruct Hw as (H1 & _ & Hw); specialize (IH c Hw).
    rewrite last_cons_default; cbn [length]; rewrite Nat2Z.inj_succ.
    unfold manhattan in *; lia.
Qed.

Lemma heuristic_triangle (a b goal : cell) :
  heuristic a goal <= manhattan a b + heuristic b goal.
Proof. unfold heuristic, manhattan; lia. Qed.

Lemma last_app {A : Type} (p q : list A) (a : A) : last (p ++ q) a = last q (last p a).
Proof.
  revert a; induction p as [|c p IH]; intros a; [reflexivity|].
  rewrite <- app_comm_cons, !last_cons_default; apply IH.
Qed.

Lemma first_unclosed (cl : cell -> bool) (p : list cell) (a : cell) :
  cl a = true -> cl (last p a) = false ->
  exists p1 y p2, p = p1 ++ y :: p2 /\ cl (last p1 a) = true /\ cl y = false.
Proof.
  revert a; induction p as [|c p IH]; intros a Ha Hl; [simpl in Hl; congruence|].
  rewrite last_cons_default in Hl; destruct (cl c) eqn:Ec.
  - destruct (IH c Ec Hl) as [p1 [y [p2 [-> [H1 H2]]]]].
    exists (c :: p1), y, p2; rewrite last_cons_default; auto.
  - exists [], c, p; auto.
Qed.

Lemma length_gridCells_le (g : GridBounds) :
  (length (gridCells g) <= Z.to_nat (cellCount g))%nat.
Proof.
  unfold gridCells, cellCount.
  rewrite (length_flat_map_const _ (Z.to_nat (height g))).
  - unfold upto; rewrite length_zrange.
    replace (maxX g + 1 - minX g) with (width g) by (unfold maxX; lia).
    destruct (Z.le_gt_cases (width g) 0) as [Hw|Hw];
      [replace (Z.to_nat (width g)) with 0%nat by lia; simpl; lia|].
    destruct (Z.le_gt_cases (height g) 0) as [Hh|Hh];
      [replace (Z.to_nat (height g)) with 0%nat by lia; lia|].
    rewrite Z2Nat.inj_mul by lia; lia.
  - intros x; rewrite length_map; unfold upto; rewrite length_zrange; f_equal; unfold maxZ; lia.
Qed.

Section AStarCorrect.

Variable g : GridBounds.
Variable obstacles : list cell.
Variables start goal : cell.
Hypothesis start_goal : start <> goal.

Let isObs : cell -> bool := fun c => mem c obstacles.
Let ok : cell -> Prop := freeCell g obstacles.

(** The invariant of the A* loop. [front] selects the (closed cell,
    neighbour) pairs for which the frontier property already holds: all of
    them between two turns, all but the unprocessed neighbours of the
    current cell inside a turn. *)
Record AInvF (front : cell -> cell -> Prop) (st : AStar) : Prop := {
  inv_nodup : NoDup (openSet st);
  inv_keys : forall k, openSetKeys st k = true <-> In k (openSet st);
  inv_open : forall k, In k (openSet st) -> closedSet st k = false /\
               exists v, gScore st k = Some v /\ fScore st k = Some (v + heuristic k goal);
  inv_start : gScore st start = Some 0 /\ cameFrom st start = None;
  inv_g : forall k v, gScore st k = Some v -> 0 <= v /\
            (closedSet st k = true \/ In k (openSet st)) /\ (k = start \/ cameFrom st k <> None);
  inv_came : forall k p, cameFrom st k = Some p -> closedSet st p = true /\ manhattan p k = 1 /\
               ok k /\ exists gp, gScore st p = Some gp /\ gScore st k = Some (gp + 1);
  inv_goal : closedSet st goal = false;
  inv_start_seen : closedSet st start = true \/ In start (openSet st);
  inv_closed_opt : forall c, closedSet st c = true -> exists v, gScore st c = Some v /\
                     forall p, walk ok start p -> last p start = c -> v <= Z.of_nat (length p);
  inv_frontier : forall c n, closedSet st c = true -> manhattan c n = 1 -> ok n ->
                   closedSet st n = false -> front c n ->
                   In n (openSet st) /\ exists vc vn, gScore st c = Some vc /\
                   gScore st n = Some vn /\ vn <= vc + 1
}.

Definition AInv := AInvF (fun _ _ => True).

Lemma astarInit_inv : AInv (astarInit start goal).
Proof.
  unfold astarInit; split; simpl.
  - repeat constructor; intros [].
  - intros k; unfold updSet; destruct (cell_eqb k start) eqn:E.
    + apply cell_eqb_spec in E; subst; tauto.
    + apply cell_eqb_false in E; split; [discriminate|intros [H|[]]; congruence].
  - intros k [<-|[]]; split; [reflexivity|].
    exists 0; rewrite !updMap_eq; split; reflexivity.
  - rewrite updMap_eq; split; reflexivity.
  - intros k v; unfold updMap; destruct (cell_eqb k start) eqn:E; [|discriminate].
    apply cell_eqb_spec in E; subst; intros H; injection H as <-.
    split; [lia|]; split; [right; left; reflexivity|left; reflexivity].
  - discriminate.
  - reflexivity.
  - right; left; reflexivity.
  - discriminate.
  - discriminate.
Qed.

(** The potential [2 * U + |openSet|], [U] counting the in-bounds cells
    that are neither open nor closed. *)
Definition unseen (st : AStar) : nat :=
  length (filter (fun c => negb (closedSet st c) && negb (openSetKeys st c)) (gridCells g)).

Definition potential (st : AStar) : nat := (2 * unseen st + length (openSet st))%nat.

Lemma filter_length_drop (f f' : cell -> bool) (L : list cell) (x : cell) :
  NoDup L -> In x L -> f x = true -> f' x = false -> (forall y, y <> x -> f' y = f y) ->
  (length (filter f' L) + 1 = length (filter f L))%nat.
Proof.
  induction 1 as [|a L Ha HL IH]; intros Hx Hf Hf' Heq; [destruct Hx|].
  destruct Hx as [<-|Hx]; simpl.
  - rewrite Hf, Hf'; simpl.
    rewrite (filter_ext_in f' f); [lia|].
    intros y Hy; apply Heq; intros ->; contradiction.
  - assert (a <> x) by (intros ->; contradiction).
    rewrite Heq by assumption; destruct (f a); simpl; rewrite IH by assumption; lia.
Qed.

Lemma relax_closed (st : AStar) (c nb : cell) :
  closedSet (relax isObs g goal c st nb) = closedSet st.
Proof.
  unfold relax; destruct (isObs nb || negb (inBounds g nb) || closedSet st nb); [reflexivity|].
  destruct (ltInf _ _); [|reflexivity].
  destruct (negb (openSetKeys st nb)); reflexivity.
Qed.

Lemma relax_update_inv (P : cell -> Prop) (cur nb : cell) (vc : Z) (st : AStar)
    (o' : list cell) (k' : cell -> bool) :
  AInvF (fun c n => c <> cur \/ P n) st ->
  closedSet st cur = true -> gScore st cur = Some vc ->
  manhattan cur nb = 1 -> ok nb -> closedSet st nb = false ->
  ltInf (Some (vc + 1)) (gScore st nb) = true ->
  NoDup o' -> (forall k, k' k = true <-> In k o') ->
  (forall k, In k o' <-> In k (openSet st) \/ k = nb) ->
  AInvF (fun c n => c <> cur \/ P n \/ n = nb)
    (mkAStar o' k' (closedSet st) (updMap (cameFrom st) nb cur)
       (updMap (gScore st) nb (vc + 1)) (updMap (fScore st) nb (vc + 1 + heuristic nb goal))).
Proof.
  intros I Hcur Hvc Hm Hok Hnb Hlt Hnd Hk Ho.
  assert (Hcn : cur <> nb) by (intros ->; congruence).
  assert (Hvc0 : 0 <= vc) by (apply (inv_g _ _ I cur vc Hvc)).
  assert (Hsn : nb <> start).
  { intros ->; rewrite (proj1 (inv_start _ _ I)) in Hlt; simpl in Hlt.
    apply Z.ltb_lt in Hlt; lia. }
  assert (Hcl : forall c, closedSet st c = true -> c <> nb) by (intros c Hc ->; congruence).
  split; simpl.
  - exact Hnd.
  - exact Hk.
  - intros k Hin; destruct (cell_eq_dec k nb) as [->|Hne].
    + split; [exact Hnb|]; exists (vc + 1); rewrite !updMap_eq; split; reflexivity.
    + rewrite !updMap_neq by exact Hne.
      apply Ho in Hin; destruct Hin as [Hin|]; [|contradiction].
      exact (inv_open _ _ I k Hin).
  - rewrite !updMap_neq by congruence; exact (inv_start _ _ I).
  - intros k v; destruct (cell_eq_dec k nb) as [->|Hne].
    + rewrite updMap_eq; intros [= <-]; split; [lia|]; split.
      * right; apply Ho; right; reflexivity.
      * right; rewrite updMap_eq; discriminate.
    + rewrite !updMap_neq by exact Hne; intros Hv.
      destruct (inv_g _ _ I k v Hv) as [H0 [H1 H2]]; split; [exact H0|]; split; [|exact H2].
      destruct H1 as [H1|H1]; [left; exact H1|right; apply Ho; left; exact H1].
  - intros k q; destruct (cell_eq_dec k nb) as [->|Hne].
    + rewrite updMap_eq; intros [= <-]; split; [exact Hcur|]; split; [exact Hm|].
      split; [exact Hok|]; exists vc; rewrite updMap_eq, updMap_neq by exact Hcn.
      split; [exact Hvc|reflexivity].
    + rewrite !updMap_neq by exact Hne; intros Hq.
      destruct (inv_came _ _ I k q Hq) as [H1 [H2 [H3 [gp [H4 H5]]]]].
      split; [exact H1|]; split; [exact H2|]; split; [exact H3|]; exists gp.
      rewrite !updMap_neq by auto; split; assumption.
  - exact (inv_goal _ _ I).
  - destruct (inv_start_seen _ _ I) as [H|H]; [left; exact H|right; apply Ho; left; exact H].
  - intros c Hc; rewrite updMap_neq by auto; exact (inv_closed_opt _ _ I c Hc).
  - intros c n Hc Hcn' Hokn Hn Hf; rewrite (updMap_neq _ _ c) by auto.
    destruct (cell_eq_dec n nb) as [->|Hne].
    + split; [apply Ho; right; reflexivity|]; rewrite updMap_eq.
      destruct (cell_eq_dec c cur) as [->|Hccur].
      * exists vc, (vc + 1); repeat split; [exact Hvc|lia].
      * destruct (inv_frontier _ _ I c nb Hc Hcn' Hokn Hn (or_introl Hccur))
          as [_ [vc' [vn [E1 [E2 E3]]]]].
        rewrite E2 in Hlt; simpl in Hlt; apply Z.ltb_lt in Hlt.
        exists vc', (vc + 1); repeat split; [exact E1|lia].
    + rewrite updMap_neq by exact Hne.
      assert (Hf' : c <> cur \/ P n) by (destruct Hf as [H|[H|H]]; auto; contradiction).
      destruct (inv_frontier _ _ I c n Hc Hcn' Hokn Hn Hf') as [H1 H2].
      split; [apply Ho; left; exact H1|exact H2].
Qed.

Lemma AInvF_weaken (F F' : cell -> cell -> Prop) (st : AStar) :
  AInvF F st ->
  (forall c n, closedSet st c = true -> manhattan c n = 1 -> ok n -> closedSet st n = false ->
     F' c n -> F c n \/ (In n (openSet st) /\ exists vc vn, gScore st c = Some vc /\
                         gScore st n = Some vn /\ vn <= vc + 1)) ->
  AInvF F' st.
Proof.
  intros I HF; destruct I; split; try assumption.
  intros c n Hc Hm Hok Hn Hf; destruct (HF c n Hc Hm Hok Hn Hf) as [H|H]; [|exact H].
  exact (inv_frontier0 c n Hc Hm Hok Hn H).
Qed.

Lemma ok_not_skipped (st : AStar) (n : cell) :
  ok n -> closedSet st n = false ->
  isObs n || negb (inBounds g n) || closedSet st n = false.
Proof.
  intros [Hb Ho] Hn; unfold isObs; rewrite Hb, Hn.
  destruct (mem n obstacles) eqn:E; [apply mem_In in E; contradiction|reflexivity].
Qed.

Lemma relax_inv (P : cell -> Prop) (cur nb : cell) (vc : Z) (st : AStar) :
  AInvF (fun c n => c <> cur \/ P n) st ->
  closedSet st cur = true -> gScore st cur = Some vc -> manhattan cur nb = 1 ->
  let st' := relax isObs g goal cur st nb in
  AInvF (fun c n => c <> cur \/ P n \/ n = nb) st' /\ gScore st' cur = Some vc /\
  (potential st' <= potential st)%nat.
Proof.
  intros I Hcur Hvc Hm; cbv zeta; unfold relax.
  destruct (isObs nb || negb (inBounds g nb) || closedSet st nb) eqn:Esk.
  { split; [|split; [exact Hvc|lia]].
    apply (AInvF_weaken _ _ _ I); intros c n Hc Hcn Hok Hn Hf; left.
    destruct Hf as [H|[H| ->]]; [left; exact H|right; exact H|].
    rewrite ok_not_skipped in Esk by assumption; discriminate. }
  assert (Hnb : closedSet st nb = false) by (destruct (closedSet st nb);
    [rewrite orb_true_r in Esk; discriminate|reflexivity]).
  assert (Hbn : inBounds g nb = true) by (destruct (inBounds g nb);
    [reflexivity|rewrite orb_true_r in Esk; discriminate]).
  assert (Hok : ok nb).
  { split; [exact Hbn|]; intros Hin; apply mem_In in Hin.
    unfold isObs in Esk; rewrite Hin in Esk; discriminate. }
  assert (Hcn : cur <> nb) by (intros ->; congruence).
  rewrite Hvc; cbn [option_map].
  destruct (ltInf (Some (vc + 1)) (gScore st nb)) eqn:Elt.
  - destruct (openSetKeys st nb) eqn:Ek; cbn [negb].
    + split; [|split].
      * apply (relax_update_inv P cur nb vc st); try assumption.
        -- exact (inv_nodup _ _ I).
        -- exact (inv_keys _ _ I).
        -- intros k; split; [intros H; left; exact H|].
           intros [H| ->]; [exact H|apply (inv_keys _ _ I); exact Ek].
      * simpl; rewrite updMap_neq by exact Hcn; exact Hvc.
      * unfold potential, unseen; simpl; lia.
    + assert (Hno : ~ In nb (openSet st)) by (rewrite <- (inv_keys _ _ I); congruence).
      split; [|split].
      * apply (relax_update_inv P cur nb vc st); try assumption.
        -- apply (Permutation_NoDup (Permutation_cons_append (openSet st) nb)).
           constructor; [exact Hno|exact (inv_nodup _ _ I)].
        -- intros k; unfold updSet; rewrite in_app_iff; simpl.
           destruct (cell_eqb k nb) eqn:E.
           ++ apply cell_eqb_spec in E; subst; tauto.
           ++ apply cell_eqb_false in E; rewrite (inv_keys _ _ I).
              split; [tauto|intros [H|[H|[]]]; [exact H|congruence]].
        -- intros k; rewrite in_app_iff; simpl; split; intros [H|H].
           ++ left; exact H.
           ++ destruct H as [H|[]]; right; congruence.
           ++ left; exact H.
           ++ right; left; congruence.
      * simpl; rewrite updMap_neq by exact Hcn; exact Hvc.
      * unfold potential, unseen; simpl; rewrite length_app; simpl.
        pose proof (filter_length_drop
          (fun c => negb (closedSet st c) && negb (openSetKeys st c))
          (fun c => negb (closedSet st c) && negb (updSet (openSetKeys st) nb true c))
          (gridCells g) nb (NoDup_gridCells g)) as Hd.
        rewrite <- Hd; [lia| |rewrite Hnb, Ek; reflexivity|rewrite updSet_eq, andb_false_r; reflexivity|].
        -- apply In_gridCells; exact Hbn.
        -- intros y Hy; rewrite updSet_neq by exact Hy; reflexivity.
  - split; [|split; [exact Hvc|lia]].
    apply (AInvF_weaken _ _ _ I); intros c n Hc Hcn' Hokn Hn Hf.
    destruct Hf as [H|[H| ->]]; [left; left; exact H|left; right; exact H|].
    destruct (cell_eq_dec c cur) as [->|Hne]; [right|left; left; exact Hne].
    destruct (gScore st nb) as [vn|] eqn:Eg; [|discriminate].
    simpl in Elt; apply Z.ltb_ge in Elt.
    destruct (inv_g _ _ I nb vn Eg) as [_ [[H|H] _]]; [congruence|].
    split; [exact H|]; exists vc, vn; repeat split; assumption || lia.
Qed.

Lemma AInvF_mono (F F' : cell -> cell -> Prop) (st : AStar) :
  AInvF F st -> (forall c n, F' c n -> F c n) -> AInvF F' st.
Proof.
  intros I HF; apply (AInvF_weaken _ _ _ I); intros c n _ _ _ _ H; left; apply HF, H.
Qed.

Lemma relax_fold_inv (cur : cell) (vc : Z) (ns : list cell) :
  forall (P : cell -> Prop) (st : AStar),
  AInvF (fun c n => c <> cur \/ P n) st ->
  closedSet st cur = true -> gScore st cur = Some vc ->
  (forall n, In n ns -> manhattan cur n = 1) ->
  let st' := fold_left (relax isObs g goal cur) ns st in
  AInvF (fun c n => c <> cur \/ P n \/ In n ns) st' /\ closedSet st' = closedSet st /\
  (potential st' <= potential st)%nat.
Proof.
  induction ns as [|nb ns IH]; intros P st I Hc Hv Hns; cbv zeta; simpl.
  - split; [|split; [reflexivity|lia]].
    apply (AInvF_mono _ _ _ I); intros c n [H|[H|[]]]; [left|right]; exact H.
  - destruct (relax_inv P cur nb vc st I Hc Hv (Hns nb (or_introl eq_refl)))
      as [I1 [Hv1 Hp1]].
    assert (Hc1 : closedSet (relax isObs g goal cur st nb) = closedSet st) by apply relax_closed.
    destruct (IH (fun x => P x \/ x = nb) _ I1) as [I2 [Hc2 Hp2]].
    + rewrite Hc1; exact Hc.
    + exact Hv1.
    + intros n Hn; apply Hns; right; exact Hn.
    + split; [|split; [congruence|lia]].
      apply (AInvF_mono _ _ _ I2); intros c n [H|[H|[H|H]]].
      * left; exact H.
      * right; left; left; exact H.
      * right; left; right; symmetry; exact H.
      * right; right; exact H.
Qed.

Lemma popped_is_optimal (st : AStar) (cur : cell) :
  AInv st -> In cur (openSet st) ->
  (forall y, In y (openSet st) -> ltInf (fScore st y) (fScore st cur) = false) ->
  exists v, gScore st cur = Some v /\
    forall p, walk ok start p -> last p start = cur -> v <= Z.of_nat (length p).
Proof.
  intros I Hin Hmin.
  destruct (inv_open _ _ I cur Hin) as [Hcl [v [Hg Hf]]].
  exists v; split; [exact Hg|]; intros p Hw Hl.
  pose proof (Hmin start) as Hms.
  destruct (closedSet st start) eqn:Es.
  - destruct (first_unclosed (closedSet st) p start Es) as [p1 [y [p2 [-> [Hx Hy]]]]];
      [rewrite Hl; exact Hcl|].
    apply walk_app in Hw; destruct Hw as [Hw1 [Hxy [Hoky Hw2]]].
    destruct (inv_closed_opt _ _ I _ Hx) as [vx [Hgx Hvx]].
    specialize (Hvx p1 Hw1 eq_refl).
    destruct (inv_frontier _ _ I _ y Hx Hxy Hoky Hy Logic.I) as [Hyo [vx' [vy [Hgx' [Hgy Hle]]]]].
    rewrite Hgx in Hgx'; injection Hgx' as <-.
    destruct (inv_open _ _ I y Hyo) as [_ [vy' [Hgy' Hfy]]].
    rewrite Hgy in Hgy'; injection Hgy' as <-.
    specialize (Hmin y Hyo); rewrite Hfy, Hf in Hmin; simpl in Hmin; apply Z.ltb_ge in Hmin.
    rewrite last_app, last_cons_default in Hl.
    pose proof (walk_manhattan ok y p2 Hw2) as Hm; rewrite Hl in Hm.
    pose proof (heuristic_triangle y cur goal).
    rewrite length_app; cbn [length]; lia.
  - destruct (inv_start_seen _ _ I) as [H|Hso]; [congruence|].
    destruct (inv_open _ _ I start Hso) as [_ [v0 [Hg0 Hf0]]].
    rewrite (proj1 (inv_start _ _ I)) in Hg0; injection Hg0 as <-.
    specialize (Hmin start Hso); rewrite Hf0, Hf in Hmin; simpl in Hmin; apply Z.ltb_ge in Hmin.
    pose proof (walk_manhattan ok start p Hw) as Hm; rewrite Hl in Hm.
    pose proof (heuristic_triangle start cur goal); lia.
Qed.

Lemma pop_inv (st : AStar) (cur : cell) (o' : list cell) :
  AInv st -> Permutation (openSet st) (cur :: o') ->
  (forall y, In y (openSet st) -> ltInf (fScore st y) (fScore st cur) = false) ->
  cur <> goal ->
  AInvF (fun c n => c <> cur \/ False)
    (mkAStar o' (updSet (openSetKeys st) cur false) (updSet (closedSet st) cur true)
       (cameFrom st) (gScore st) (fScore st)).
Proof.
  intros I Hp Hmin Hcg.
  assert (Hio : forall k, In k (openSet st) <-> k = cur \/ In k o').
  { intros k; split; intros H.
    - apply (Permutation_in _ Hp) in H; destruct H as [H|H]; auto.
    - apply (Permutation_in _ (Permutation_sym Hp)); destruct H as [<-|H]; [left|right]; auto. }
  assert (Hnd : NoDup (cur :: o')) by exact (Permutation_NoDup Hp (inv_nodup _ _ I)).
  inversion Hnd as [|? ? Hcur Hnd']; subst.
  assert (Hin : In cur (openSet st)) by (apply Hio; left; reflexivity).
  assert (Hio' : forall k, In k o' -> k <> cur /\ In k (openSet st))
    by (intros k Hk; split; [intros ->; contradiction|apply Hio; right; exact Hk]).
  assert (Hcl : forall k, closedSet st k = true -> updSet (closedSet st) cur true k = true)
    by (intros k Hk; unfold updSet; destruct (cell_eqb k cur); auto).
  split; simpl.
  - exact Hnd'.
  - intros k; destruct (cell_eq_dec k cur) as [->|Hne].
    + rewrite updSet_eq; split; [discriminate|contradiction].
    + rewrite updSet_neq, (inv_keys _ _ I), Hio by exact Hne; split; [intros [H|H]; [contradiction|exact H]|auto].
  - intros k Hk; destruct (Hio' k Hk) as [Hne Hk'].
    rewrite updSet_neq by exact Hne; exact (inv_open _ _ I k Hk').
  - exact (inv_start _ _ I).
  - intros k v Hv; destruct (inv_g _ _ I k v Hv) as [H0 [H1 H2]]; split; [exact H0|]; split; [|exact H2].
    destruct (cell_eq_dec k cur) as [->|Hne]; [left; apply updSet_eq|].
    rewrite updSet_neq by exact Hne; destruct H1 as [H1|H1]; [left; exact H1|].
    right; apply Hio in H1; destruct H1 as [H1|H1]; [contradiction|exact H1].
  - intros k q Hq; destruct (inv_came _ _ I k q Hq) as [H1 H2]; split; [apply Hcl, H1|exact H2].
  - rewrite updSet_neq by auto; exact (inv_goal _ _ I).
  - destruct (cell_eq_dec start cur) as [->|Hne]; [left; apply updSet_eq|].
    rewrite updSet_neq by exact Hne; destruct (inv_start_seen _ _ I) as [H|H]; [left; exact H|].
    right; apply Hio in H; destruct H as [H|H]; [contradiction|exact H].
  - intros c Hc; destruct (cell_eq_dec c cur) as [->|Hne].
    + exact (popped_is_optimal st cur I Hin Hmin).
    + rewrite updSet_neq in Hc by exact Hne; exact (inv_closed_opt _ _ I c Hc).
  - intros c n Hc Hm Hok Hn [Hne|[]].
    rewrite updSet_neq in Hc by exact Hne.
    assert (Hnc : n <> cur) by (intros ->; rewrite updSet_eq in Hn; discriminate).
    rewrite updSet_neq in Hn by exact Hnc.
    destruct (inv_frontier _ _ I c n Hc Hm Hok Hn Logic.I) as [H1 H2]; split; [|exact H2].
    apply Hio in H1; destruct H1 as [H1|H1]; [contradiction|exact H1].
Qed.

Lemma astarStep_spec (st : AStar) :
  AInv st -> openSet st <> [] ->
  (exists st1, astarStep isObs g goal st = Found goal st1 /\ cameFrom st1 = cameFrom st /\
     gScore st1 = gScore st /\ exists v, gScore st goal = Some v /\
     forall p, walk ok start p -> last p start = goal -> v <= Z.of_nat (length p)) \/
  (exists st', astarStep isObs g goal st = Next st' /\ AInv st' /\
     (potential st' < potential st)%nat).
Proof.
  intros I Hne.
  pose proof (scanBest_spec (fScore st) (openSet st) Hne) as Hs; cbv zeta in Hs.
  unfold astarStep.
  destruct (scanBest (fScore st) (tl (openSet st)) 1 0 (hd (mkCell 0 0) (openSet st))
              (fScore st (hd (mkCell 0 0) (openSet st)))) as [bi cur].
  simpl in Hs; destruct Hs as [Hbi [Hnth Hmin]].
  pose proof (popSwap_perm _ _ Hbi) as Hp; rewrite Hnth in Hp.
  set (o' := popSwap (openSet st) bi) in *.
  assert (Hin : In cur (openSet st)) by (apply (Permutation_in _ (Permutation_sym Hp)); left; reflexivity).
  destruct (inv_open _ _ I cur Hin) as [Hcl [vc [Hgc _]]].
  rewrite Hcl; destruct (cell_eqb cur goal) eqn:Eg.
  - apply cell_eqb_spec in Eg; rewrite Eg in Hin, Hmin |- *; left.
    eexists; split; [reflexivity|]; split; [reflexivity|]; split; [reflexivity|].
    exact (popped_is_optimal st goal I Hin Hmin).
  - apply cell_eqb_false in Eg; right; eexists; split; [reflexivity|].
    pose proof (pop_inv st cur o' I Hp Hmin Eg) as I1.
    destruct (relax_fold_inv cur vc (getNeighbors cur) (fun _ => False) _ I1)
      as [I2 [Hc2 Hp2]].
    + simpl; apply updSet_eq.
    + simpl; exact Hgc.
    + intros n Hn; apply In_getNeighbors; exact Hn.
    + split.
      * apply (AInvF_weaken _ _ _ I2); intros c n _ Hm _ _ _; left.
        destruct (cell_eq_dec c cur) as [->|Hne']; [|left; exact Hne'].
        right; right; apply In_getNeighbors; exact Hm.
      * eapply Nat.le_lt_trans; [exact Hp2|].
        unfold potential, unseen; simpl.
        rewrite (Permutation_length Hp); simpl.
        rewrite (filter_ext (fun c => negb (updSet (closedSet st) cur true c) &&
                                      negb (updSet (openSetKeys st) cur false c))
                            (fun c => negb (closedSet st c) && negb (openSetKeys st c))); [lia|].
        intros c; destruct (cell_eq_dec c cur) as [->|Hc'].
        -- rewrite updSet_eq, (proj2 (inv_keys _ _ I cur) Hin), andb_false_r; reflexivity.
        -- rewrite !updSet_neq by exact Hc'; reflexivity.
Qed.

Lemma chainTo_spec (cF : cell -> option cell) (gS : cell -> option Z) :
  gS start = Some 0 -> cF start = None ->
  (forall k v, gS k = Some v -> 0 <= v /\ (k = start \/ cF k <> None)) ->
  (forall k p, cF k = Some p -> manhattan p k = 1 /\ ok k /\
     exists gp, gS p = Some gp /\ gS k = Some (gp + 1)) ->
  forall n c, gS c = Some (Z.of_nat n) ->
  exists path, chainTo (S n) cF c = start :: path /\ walk ok start path /\
    last path start = c /\ length path = n /\ ~ In start path.
Proof.
  intros Hg0 Hc0 Hg Hc; induction n as [|n IH]; intros c Hgc.
  - cbn [chainTo]; destruct (cF c) as [q|] eqn:Eq.
    + destruct (Hc c q Eq) as [_ [_ [gq [Hq Hq']]]].
      rewrite Hgc in Hq'; injection Hq' as Hq'.
      destruct (Hg q gq Hq) as [H0 _]; lia.
    + destruct (Hg c _ Hgc) as [_ [->|H]]; [|contradiction].
      exists []; repeat split; auto.
  - cbn [chainTo]; destruct (cF c) as [q|] eqn:Eq.
    + destruct (Hc c q Eq) as [Hm [Hok [gq [Hq Hq']]]].
      rewrite Hgc in Hq'; injection Hq' as Hq'.
      assert (gq = Z.of_nat n) by lia; subst gq.
      destruct (IH q Hq) as [path [E [Hw [Hl [Hlen Hns]]]]].
      exists (path ++ [c]); cbn [chainTo] in E; rewrite E; split; [reflexivity|].
      split; [apply walk_app; split; [exact Hw|rewrite Hl; simpl; auto]|].
      split; [rewrite last_app; reflexivity|].
      split; [rewrite length_app, Hlen; simpl; lia|].
      rewrite in_app_iff; intros [H|[H|[]]]; [contradiction|subst; congruence].
    + destruct (Hg c _ Hgc) as [_ [->|H]]; [|contradiction].
      rewrite Hg0 in Hgc; injection Hgc; lia.
Qed.

Lemma closed_reach (st : AStar) :
  AInv st -> openSet st = [] ->
  forall p a, closedSet st a = true -> walk ok a p -> closedSet st (last p a) = true.
Proof.
  intros I Ho; induction p as [|c p IH]; intros a Ha Hw; [exact Ha|].
  destruct Hw as [Hm [Hok Hw]]; rewrite last_cons_default; apply IH; [|exact Hw].
  destruct (closedSet st c) eqn:Ec; [reflexivity|].
  destruct (inv_frontier _ _ I a c Ha Hm Hok Ec Logic.I) as [H _]; rewrite Ho in H; destruct H.
Qed.

Lemma astarLoop_spec (fuel : nat) :
  forall st, AInv st -> (potential st < fuel)%nat ->
  match astarLoop isObs g goal fuel st with
  | Some path => walk ok start path /\ last path start = goal /\ ~ In start path /\
      forall p, walk ok start p -> last p start = goal -> (length path <= length p)%nat
  | None => forall p, walk ok start p -> last p start <> goal
  end.
Proof.
  induction fuel as [|fuel IH]; intros st I Hf; [lia|].
  cbn [astarLoop]; destruct (openSet st) as [|c o] eqn:Eo.
  - intros p Hw Hl.
    assert (Hs : closedSet st start = true)
      by (destruct (inv_start_seen _ _ I) as [H|H]; [exact H|rewrite Eo in H; destruct H]).
    pose proof (closed_reach st I Eo p start Hs Hw) as H.
    rewrite Hl, (inv_goal _ _ I) in H; discriminate.
  - destruct (astarStep_spec st I ltac:(congruence))
      as [[st1 [E [Hc [Hg [v [Hv Hopt]]]]]]|[st' [E [I' Hp]]]]; rewrite E.
    + rewrite Hg, Hv, Hc.
      destruct (inv_g _ _ I goal v Hv) as [Hv0 _].
      destruct (chainTo_spec (cameFrom st) (gScore st) (proj1 (inv_start _ _ I))
                 (proj2 (inv_start _ _ I))
                 (fun k v H => conj (proj1 (inv_g _ _ I k v H)) (proj2 (proj2 (inv_g _ _ I k v H))))
                 (fun k q H => proj2 (inv_came _ _ I k q H))
                 (Z.to_nat v) goal ltac:(rewrite Z2Nat.id by lia; exact Hv))
        as [path [Ec [Hw [Hl [Hlen Hns]]]]].
      unfold reconstructPath; rewrite Ec; cbn [tl].
      split; [exact Hw|]; split; [exact Hl|]; split; [exact Hns|].
      intros p Hwp Hlp; specialize (Hopt p Hwp Hlp); lia.
    + apply IH; [exact I'|lia].
Qed.

End AStarCorrect.

(** ** Pathfinding.findPath *)

Lemma findPath_loop (g : GridBounds) (start goal : cell) (obstacles : list cell) :
  start <> goal ->
  match findPath g start goal obstacles with
  | Some path => walk (freeCell g obstacles) start path /\ last path start = goal /\
      ~ In start path /\ forall p, walk (freeCell g obstacles) start p -> last p start = goal ->
      (length path <= length p)%nat
  | None => forall p, walk (freeCell g obstacles) start p -> last p start <> goal
  end.
Proof.
  intros Hne; unfold findPath.
  destruct (cell_eqb start goal) eqn:E; [apply cell_eqb_spec in E; contradiction|].
  apply (astarLoop_spec g obstacles start goal Hne); [apply astarInit_inv; exact Hne|].
  unfold potential, unseen.
  pose proof (length_gridCells_le g).
  pose proof (length_filter_le
    (fun c => negb (closedSet (astarInit start goal) c) &&
              negb (openSetKeys (astarInit start goal) c)) (gridCells g)).
  simpl in H0 |- *; lia.
Qed.


(** Claim C4. Every path returned by [findPath g start goal obstacles]
    leaves out [start], ends at [goal], moves one step at a time at
    Manhattan distance 1 (counting the step from [start] to its first cell),
    and stays on in-bounds cells outside [obstacles]; the empty path comes
    back exactly when [start = goal]; and [None] comes back exactly when no
    such walk from [start] to [goal] exists. *)
Theorem findPath_correct (g : GridBounds) (start goal : cell) (obstacles : list cell) :
  (findPath g start goal obstacles = Some [] <-> start = goal) /\
  (forall path, findPath g start goal obstacles = Some path ->
     walk (freeCell g obstacles) start path /\ last path start = goal /\ ~ In start path) /\
  (findPath g start goal obstacles = None <->
     ~ exists p, walk (freeCell g obstacles) start p /\ last p start = goal).
Proof.
  destruct (cell_eq_dec start goal) as [<-|Hne].
  - unfold findPath; rewrite cell_eqb_refl; split; [split; reflexivity|]; split.
    + intros path [= <-]; simpl; auto.
    + split; [discriminate|intros H; exfalso; apply H; exists []; simpl; auto].
  - pose proof (findPath_loop g start goal obstacles Hne) as H.
    destruct (findPath g start goal obstacles) as [path|].
    + destruct H as [Hw [Hl [Hns _]]]; split; [split|split].
      * intros [= ->]; simpl in Hl; congruence.
      * intros ->; contradiction.
      * intros q [= <-]; auto.
      * split; [discriminate|intros Hn; exfalso; apply Hn; exists path; auto].
    + split; [split; [discriminate|intros ->; contradiction]|split; [discriminate|]].
      split; [intros _ [p [Hw Hl]]; exact (H p Hw Hl)|reflexivity].
Qed.

(** Claim C10. A path returned by [findPath] is a shortest one: it is an
    in-bounds, obstacle-free walk from [start] to [goal], and no such walk
    has fewer steps. *)
Theorem findPath_shortest (g : GridBounds) (start goal : cell) (obstacles : list cell)
    (path : list cell) :
  findPath g start goal obstacles = Some path ->
  walk (freeCell g obstacles) start path /\ last path start = goal /\
  forall p, walk (freeCell g obstacles) start p -> last p start = goal ->
    (length path <= length p)%nat.
Proof.
  intros Hp; destruct (cell_eq_dec start goal) as [<-|Hne].
  - unfold findPath in Hp; rewrite cell_eqb_refl in Hp; injection Hp as <-.
    simpl; split; [exact I|split; [reflexivity|intros; lia]].
  - pose proof (findPath_loop g start goal obstacles Hne) as H; rewrite Hp in H.
    destruct H as [Hw [Hl [_ Hopt]]]; auto.
Qed.

(** A route around a wall on a 3x3 grid. *)
Lemma findPath_shortest_witness :
  findPath (mkGrid 3 3 0 0) (mkCell 0 0) (mkCell 2 0) [mkCell 1 0; mkCell 1 1] =
    Some [mkCell 0 1; mkCell 0 2; mkCell 1 2; mkCell 2 2; mkCell 2 1; mkCell 2 0] /\
  forall p, walk (freeCell (mkGrid 3 3 0 0) [mkCell 1 0; mkCell 1 1]) (mkCell 0 0) p ->
    last p (mkCell 0 0) = mkCell 2 0 -> (6 <= length p)%nat.
Proof.
  split; [vm_compute; reflexivity|].
  refine (proj2 (proj2 (findPath_shortest (mkGrid 3 3 0 0) (mkCell 0 0) (mkCell 2 0)
           [mkCell 1 0; mkCell 1 1]
           [mkCell 0 1; mkCell 0 2; mkCell 1 2; mkCell 2 2; mkCell 2 1; mkCell 2 0] _))).
  vm_compute; reflexivity.
Defined.

(** ** AIController *)

Definition optP (P : candidate -> Prop) (b : option candidate) : Prop :=
  match b with None => True | Some c => P c end.

Lemma fold_optP {A : Type} (P : candidate -> Prop) (f : option candidate -> A -> option candidate)
    (l : list A) (b0 : option candidate) :
  optP P b0 -> (forall b x, In x l -> optP P b -> optP P (f b x)) -> optP P (fold_left f l b0).
Proof.
  revert b0; induction l as [|x l IH]; intros b0 H0 Hf; [exact H0|].
  simpl; apply IH; [apply Hf; [left; reflexivity|exact H0]|].
  intros b y Hy; apply Hf; right; exact Hy.
Qed.

Lemma findMove_in (moves : list move) (c : cell) (m : move) :
  findMove moves c = Some m -> In m moves.
Proof. intros H; apply find_some in H; apply H. Qed.

Lemma better_some (sc : Q) (P : candidate -> Prop) (best : option candidate) (c : candidate) :
  optP P best -> P c -> optP P (if better sc best then Some c else best).
Proof. intros Hb Hc; destruct (better sc best); [exact Hc|exact Hb]. Qed.

Ltac policy_step :=
  repeat match goal with
  | |- optP _ (if better _ _ then Some _ else _) => apply better_some; [assumption|]
  | |- optP _ (if ?b then _ else _) => destruct b
  | |- optP _ (match ?x with _ => _ end) => destruct x eqn:?
  end.

Lemma getDirectSafeFoodMove_in (ai : AIController) (moves : list move) (snake foods : list cell) :
  optP (fun c => In (cmove c) moves) (getDirectSafeFoodMove ai moves snake foods).
Proof.
  unfold getDirectSafeFoodMove; destruct foods; [exact I|].
  apply fold_optP; [exact I|]; intros b m Hm Hb; policy_step; try assumption; exact Hm.
Qed.

Lemma getEarlyGameFoodChaseMove_in (ai : AIController) (head : cell) (moves : list move)
    (snake foods : list cell) :
  optP (fun c => In (cmove c) moves) (getEarlyGameFoodChaseMove ai head moves snake foods).
Proof.
  unfold getEarlyGameFoodChaseMove; destruct foods; [exact I|].
  destruct (18 <? length snake)%nat; [exact I|].
  apply fold_optP; [exact I|]; intros b t _ Hb; policy_step; try assumption.
  simpl; eapply findMove_in; eassumption.
Qed.

Lemma getCycleBaselineMove_in (ai : AIController) (head : cell) (moves : list move)
    (snake foods : list cell) :
  optP (fun c => In (cmove c) moves) (getCycleBaselineMove ai head moves snake foods).
Proof.
  unfold getCycleBaselineMove; policy_step; try exact I.
  simpl; eapply findMove_in; eassumption.
Qed.

Lemma getBestFallbackMove_in (ai : AIController) (moves : list move) (snake foods : list cell) :
  optP (fun c => In (cmove c) moves) (getBestFallbackMove ai moves snake foods).
Proof.
  unfold getBestFallbackMove; apply fold_optP; [exact I|]; intros b m Hm Hb; policy_step;
    assumption.
Qed.

Lemma fold_inv {A B : Type} (Inv : B -> Prop) (f : B -> A -> B) (l : list A) (b0 : B) :
  Inv b0 -> (forall b x, In x l -> Inv b -> Inv (f b x)) -> Inv (fold_left f l b0).
Proof.
  revert b0; induction l as [|x l IH]; intros b0 H0 Hf; [exact H0|].
  simpl; apply IH; [apply Hf; [left; reflexivity|exact H0]|].
  intros b y Hy; apply Hf; right; exact Hy.
Qed.

Lemma getBestShortcutMove_in (ai : AIController) (head : cell) (moves : list move)
    (snake foods : list cell) :
  optP (fun c => In (cmove c) moves) (fst (getBestShortcutMove ai head moves snake foods)).
Proof.
  unfold getBestShortcutMove; destruct foods; [exact I|].
  destruct (negb _); [exact I|].
  apply (fold_inv (fun acc => optP (fun c => In (cmove c) moves) (fst acc))); [exact I|].
  intros [b r] t _ Hb; simpl in Hb.
  repeat match goal with
  | |- optP _ (fst (if better _ _ then _ else _)) => destruct (better _ _)
  | |- optP _ (fst (if ?b then _ else _)) => destruct b
  | |- optP _ (fst (match ?x with _ => _ end)) => destruct x eqn:?
  end; try exact Hb.
  simpl; eapply findMove_in; eassumption.
Qed.

Lemma In_getValidMoves (ai : AIController) (head currentDir : cell) (snake : list cell) (m : move) :
  In m (getValidMoves ai head currentDir snake) <->
  In (dir m) dirs /\ isReverse currentDir (dir m) && negb (isZeroDir currentDir) = false /\
  pos m = addDir head (dir m) /\ inBounds (grid ai) (pos m) = true /\
  mem (pos m) (innerSegments snake ++ bombPositions ai) = false.
Proof.
  unfold getValidMoves; rewrite in_flat_map; split.
  - intros [d [Hd Hm]].
    destruct (isReverse currentDir d && negb (isZeroDir currentDir)) eqn:E1; [destruct Hm|].
    destruct (inBounds (grid ai) (addDir head d)) eqn:E2; [|destruct Hm].
    destruct (mem (addDir head d) (innerSegments snake ++ bombPositions ai)) eqn:E3;
      [destruct Hm|].
    destruct Hm as [<-|[]]; simpl; auto.
  - intros [Hd [E1 [Hp [E2 E3]]]]; exists (dir m); split; [exact Hd|].
    rewrite E1; cbn [negb]; rewrite <- Hp, E2, E3; cbn [negb].
    left; destruct m; simpl in *; congruence.
Qed.

(** The shape of every call: an empty body gives [currentDir] and leaves
    the label; otherwise either there is no valid move, and the answer is
    [currentDir] labelled [no-legal-move], or the answer is the direction
    of a valid move and the label is another one. *)
Lemma getNextDirection_cases (ai : AIController) (head currentDir : cell)
    (body : list cell) (foodPos : foodArg) :
  let r := getNextDirection ai head currentDir body foodPos in
  (body = [] /\ fst r = currentDir /\
     lastDecision (debugStats (snd r)) = lastDecision (debugStats ai)) \/
  (body <> [] /\ getValidMoves ai head currentDir body = [] /\ fst r = currentDir /\
     lastDecision (debugStats (snd r)) = DNoLegalMove) \/
  (body <> [] /\ (exists m, In m (getValidMoves ai head currentDir body) /\ fst r = dir m) /\
     lastDecision (debugStats (snd r)) <> DNoLegalMove).
Proof.
  cbv zeta; unfold getNextDirection.
  destruct body as [|b0 body']; [left; auto|right].
  change (getValidMoves (mkAI (grid ai) (cycle ai) (bombPositions ai) (stepCounter ai + 1)
            (setStep (debugStats ai) (stepCounter ai + 1))) head currentDir (b0 :: body'))
    with (getValidMoves ai head currentDir (b0 :: body')).
  destruct (getValidMoves ai head currentDir (b0 :: body')) as [|m0 ms] eqn:Em;
    [left; repeat split; congruence|right].
  split; [congruence|].
  set (ai1 := mkAI _ _ _ _ _).
  set (foods := normalizeFoodTargets foodPos).
  set (moves := m0 :: ms).
  assert (Hin : forall c, optP (fun c => In (cmove c) moves) (Some c) ->
            exists m, In m moves /\ dir (cmove c) = dir m)
    by (intros c Hc; exists (cmove c); split; [exact Hc|reflexivity]).
  pose proof (getDirectSafeFoodMove_in ai1 moves (b0 :: body') foods) as H1.
  destruct (getDirectSafeFoodMove ai1 moves (b0 :: body') foods) as [d|];
    [split; [apply Hin, H1|discriminate]|].
  pose proof (getEarlyGameFoodChaseMove_in ai1 head moves (b0 :: body') foods) as H2.
  destruct (getEarlyGameFoodChaseMove ai1 head moves (b0 :: body') foods) as [e|];
    [split; [apply Hin, H2|discriminate]|].
  pose proof (getCycleBaselineMove_in ai1 head moves (b0 :: body') foods) as H3.
  pose proof (getBestShortcutMove_in ai1 head moves (b0 :: body') foods) as H4.
  pose proof (getBestFallbackMove_in ai1 moves (b0 :: body') foods) as H5.
  destruct (isValid (cycle ai1)).
  - destruct (getBestShortcutMove ai1 head moves (b0 :: body') foods) as [sm rej]; simpl in H4.
    destruct (getCycleBaselineMove ai1 head moves (b0 :: body') foods) as [cm|];
      destruct sm as [s|].
    all: try destruct (shouldPrioritizeShortcut _ _ _ _).
    all: try destruct (Qle_bool _ _).
    all: destruct (getBestFallbackMove ai1 moves (b0 :: body') foods) as [f|]; simpl.
    all: split; [|discriminate].
    all: match goal with
         | |- exists m, _ /\ dir (cmove ?c) = dir m => exists (cmove c); split; [assumption|reflexivity]
         | |- exists m, _ /\ dir ?x = dir m => exists x; split; [left; reflexivity|reflexivity]
         end.
  - destruct (getBestFallbackMove ai1 moves (b0 :: body') foods) as [f|]; simpl.
    all: split; [|discriminate].
    all: match goal with
         | |- exists m, _ /\ dir (cmove ?c) = dir m => exists (cmove c); split; [assumption|reflexivity]
         | |- exists m, _ /\ dir ?x = dir m => exists x; split; [left; reflexivity|reflexivity]
         end.
Qed.

Lemma mem_app_false (c : cell) (l1 l2 : list cell) :
  mem c (l1 ++ l2) = false <-> mem c l1 = false /\ mem c l2 = false.
Proof. unfold mem; rewrite existsb_app, orb_false_iff; tauto. Qed.

Lemma mem_false_In (c : cell) (l : list cell) : mem c l = false <-> ~ In c l.
Proof. rewrite <- mem_In; destruct (mem c l); split; congruence. Qed.

(** [body[0..length-2]] is the head followed by [body.slice(1, -1)], or
    nothing for a one-cell body. *)
Lemma front_segments (h : cell) (t : list cell) :
  firstn (length (h :: t) - 1) (h :: t) =
  match t with [] => [] | _ :: _ => h :: innerSegments (h :: t) end.
Proof.
  destruct t as [|c t]; [reflexivity|].
  unfold innerSegments; simpl; rewrite Nat.sub_0_r; reflexivity.
Qed.

Lemma addDir_neq (h d : cell) : In d dirs -> addDir h d <> h.
Proof.
  intros Hd E; destruct h as [x z]; unfold addDir in E; simpl in E; injection E as E1 E2.
  destruct Hd as [<-|[<-|[<-|[<-|[]]]]]; simpl in *; lia.
Qed.

Lemma isReverse_self (d : cell) : isZeroDir d = false -> isReverse d d = false.
Proof.
  unfold isZeroDir, isReverse; intros H.
  destruct (cx d =? - cx d) eqn:E1, (cz d =? - cz d) eqn:E2; try reflexivity.
  apply Z.eqb_eq in E1, E2.
  assert (A : cx d = 0) by lia; assert (B : cz d = 0) by lia.
  rewrite A, B in H; discriminate.
Qed.

Lemma isReverse_sym (a b : cell) :
  (cx b =? - cx a) && (cz b =? - cz a) = isReverse a b.
Proof.
  unfold isReverse.
  destruct (cx b =? - cx a) eqn:E1, (cx a =? - cx b) eqn:E2; try (rewrite ?Z.eqb_eq, ?Z.eqb_neq in *; lia);
  destruct (cz b =? - cz a) eqn:E3, (cz a =? - cz b) eqn:E4; try reflexivity;
  rewrite ?Z.eqb_eq, ?Z.eqb_neq in *; lia.
Qed.

Lemma valid_move_not_reverse (ai : AIController) (head currentDir : cell) (body : list cell)
    (m : move) :
  isZeroDir currentDir = false -> In m (getValidMoves ai head currentDir body) ->
  isReverse currentDir (dir m) = false.
Proof.
  intros Hz Hm; apply In_getValidMoves in Hm; destruct Hm as [_ [H _]].
  rewrite Hz, andb_true_r in H; exact H.
Qed.

Lemma getSafestMove_not_reverse (ai : AIController) (head currentDir : cell)
    (obstacles : list cell) :
  isZeroDir currentDir = false -> isReverse currentDir (getSafestMove ai head currentDir obstacles) = false.
Proof.
  intros Hz; unfold getSafestMove.
  apply (fold_inv (fun acc => isReverse currentDir (fst acc) = false)); [apply isReverse_self, Hz|].
  intros [b sp] m _ Hb; simpl in Hb.
  destruct ((cx m =? - cx currentDir) && (cz m =? - cz currentDir)) eqn:E; [exact Hb|].
  destruct (negb (inBounds (grid ai) (addDir head m))); [exact Hb|].
  destruct (isOccupied (addDir head m) obstacles); [exact Hb|].
  destruct (sp <? floodFill (grid ai) (addDir head m) obstacles); [|exact Hb].
  simpl; rewrite <- isReverse_sym; exact E.
Qed.

(** Claim C1, as stated, fails: on the 2x2 grid at the origin with a hazard
    at (1,1), a one-cell snake at (1,0) moving in direction (1,0) has
    exactly one cell meeting the condition, (0,0), behind it. The move to
    it is a reversal, which [getValidMoves] never offers, so the call
    returns [currentDir] = (1,0), pointing off the board: the answer is
    neither a cell meeting the condition nor [currentDir] in a position
    where no such cell exists. *)
Lemma getNextDirection_reverse_only_cell :
  let ai := setBombDangerZones (newAIController (mkGrid 2 2 0 0)) [mkCell 1 1] in
  let head := mkCell 1 0 in
  let body := [mkCell 1 0] in
  let currentDir := mkCell 1 0 in
  let d := fst (getNextDirection ai head currentDir body NoFood) in
  forallb (inBounds (grid ai)) body = true /\ head = headOf body /\
  specLegalCell ai body (addDir head d)
  || forallb (fun d' => negb (specLegalCell ai body (addDir head d'))) dirs
     && cell_eqb d currentDir = false.
Proof. vm_compute; split; [reflexivity|split; reflexivity]. Qed.

(** Claim C1, amended. For a non-empty body with [head = body[0]], the
    returned direction [d] is either a unit direction other than the
    reverse of a non-zero [currentDir] whose cell [head + d] is in bounds
    and outside [body[0..length-2]] and the hazards; or no such
    non-reversing direction exists and [d = currentDir]. *)
Theorem getNextDirection_legal (ai : AIController) (head currentDir : cell)
    (body : list cell) (foodPos : foodArg) :
  body <> [] -> head = headOf body ->
  let d := fst (getNextDirection ai head currentDir body foodPos) in
  (In d dirs /\ isReverse currentDir d && negb (isZeroDir currentDir) = false /\
     specLegalCell ai body (addDir head d) = true) \/
  ((forall d', In d' dirs -> isReverse currentDir d' && negb (isZeroDir currentDir) = false ->
      specLegalCell ai body (addDir head d') = false) /\ d = currentDir).
Proof.
  intros Hne Hh; cbv zeta.
  destruct body as [|b0 t]; [contradiction|]; unfold headOf in Hh; simpl in Hh; subst b0.
  unfold specLegalCell; rewrite front_segments.
  destruct (getNextDirection_cases ai head currentDir (head :: t) foodPos)
    as [[H _]|[[_ [Hm [Hd _]]]|[_ [[m [Hm Hd]] _]]]]; [discriminate| |].
  - right; split; [|exact Hd]; intros d' Hd' Hr.
    destruct (inBounds (grid ai) (addDir head d')) eqn:Eb; [|reflexivity].
    destruct (mem (addDir head d') (bombPositions ai)) eqn:Ebo; [rewrite andb_false_r; reflexivity|].
    destruct (mem (addDir head d') (match t with [] => [] | _ :: _ => head :: innerSegments (head :: t) end)) eqn:Ef;
      [reflexivity|exfalso].
    assert (Hin : In (mkMove d' (addDir head d')) (getValidMoves ai head currentDir (head :: t))).
    { apply In_getValidMoves; simpl; repeat split; try assumption.
      apply mem_app_false; split; [|exact Ebo].
      destruct t as [|c t']; [reflexivity|].
      simpl in Ef; apply orb_false_iff in Ef; apply Ef. }
    rewrite Hm in Hin; destruct Hin.
  - left; rewrite Hd.
    pose proof Hm as Hm'; apply In_getValidMoves in Hm'.
    destruct Hm' as [Hdir [Hr [Hp [Hb Hmem]]]]; apply mem_app_false in Hmem.
    split; [exact Hdir|]; split; [exact Hr|]; rewrite <- Hp, Hb; simpl.
    rewrite (proj2 Hmem), andb_true_r.
    destruct t as [|c t']; [reflexivity|].
    simpl; rewrite (proj1 Hmem), orb_false_r.
    destruct (cell_eqb (pos m) head) eqn:E; [|reflexivity].
    apply cell_eqb_spec in E; rewrite Hp in E; apply addDir_neq in E; [contradiction|exact Hdir].
Qed.

Lemma getNextDirection_legal_witness :
  [mkCell 0 0] <> [] /\ mkCell 0 0 = headOf [mkCell 0 0] /\
  let d := fst (getNextDirection (newAIController (mkGrid 2 2 0 0)) (mkCell 0 0) (mkCell 1 0)
                                 [mkCell 0 0] NoFood) in
  (In d dirs /\ isReverse (mkCell 1 0) d && negb (isZeroDir (mkCell 1 0)) = false /\
     specLegalCell (newAIController (mkGrid 2 2 0 0)) [mkCell 0 0] (addDir (mkCell 0 0) d) = true) \/
  ((forall d', In d' dirs -> isReverse (mkCell 1 0) d' && negb (isZeroDir (mkCell 1 0)) = false ->
      specLegalCell (newAIController (mkGrid 2 2 0 0)) [mkCell 0 0] (addDir (mkCell 0 0) d') = false) /\
   d = mkCell 1 0).
Proof.
  split; [discriminate|split; [reflexivity|]].
  apply (getNextDirection_legal (newAIController (mkGrid 2 2 0 0)) (mkCell 0 0) (mkCell 1 0)
           [mkCell 0 0] NoFood); [discriminate|reflexivity].
Defined.

(** Claim C5. When [currentDir] is non-zero, the direction returned by
    [getNextDirection] is never its additive inverse, and neither is the
    direction of the exception fallback [getSafestMove], whatever its
    obstacles. *)
Theorem getNextDirection_no_reverse (ai : AIController) (head currentDir : cell)
    (body : list cell) (foodPos : foodArg) (obstacles : list cell) :
  isZeroDir currentDir = false ->
  isReverse currentDir (fst (getNextDirection ai head currentDir body foodPos)) = false /\
  isReverse currentDir (getSafestMove ai head currentDir obstacles) = false.
Proof.
  intros Hz; split; [|apply getSafestMove_not_reverse, Hz].
  destruct (getNextDirection_cases ai head currentDir body foodPos)
    as [[_ [Hd _]]|[[_ [_ [Hd _]]]|[_ [[m [Hm Hd]] _]]]]; rewrite Hd.
  - apply isReverse_self, Hz.
  - apply isReverse_self, Hz.
  - exact (valid_move_not_reverse ai head currentDir body m Hz Hm).
Qed.

Lemma getNextDirection_no_reverse_witness :
  isZeroDir (mkCell 1 0) = false /\
  isReverse (mkCell 1 0)
    (fst (getNextDirection (newAIController (mkGrid 2 2 0 0)) (mkCell 1 0) (mkCell 1 0)
                           [mkCell 1 0; mkCell 0 0] NoFood)) = false /\
  isReverse (mkCell 1 0)
    (getSafestMove (newAIController (mkGrid 2 2 0 0)) (mkCell 1 0) (mkCell 1 0) [mkCell 1 0]) = false.
Proof.
  split; [reflexivity|].
  apply (getNextDirection_no_reverse (newAIController (mkGrid 2 2 0 0)) (mkCell 1 0) (mkCell 1 0)
           [mkCell 1 0; mkCell 0 0] NoFood [mkCell 1 0]).
  reflexivity.
Defined.

(** Claim C9, as stated, fails twice. With an empty body the call returns
    [currentDir] but leaves [lastDecision] as it was ([init] for a fresh
    controller); and a head off the board, at (-1,0) next to the 2x2 grid
    at the origin, is not rejected: its in-bounds neighbour (0,0) is a valid
    move, which is returned instead of [currentDir], with another label. *)
Lemma getNextDirection_malformed_not_rejected :
  let ai := newAIController (mkGrid 2 2 0 0) in
  let r1 := getNextDirection ai (mkCell 0 0) (mkCell 1 0) [] NoFood in
  let r2 := getNextDirection ai (mkCell (-1) 0) (mkCell 0 0) [mkCell (-1) 0] NoFood in
  fst r1 = mkCell 1 0 /\ lastDecision (debugStats (snd r1)) = DInit /\
  inBounds (grid ai) (mkCell (-1) 0) = false /\
  fst r2 = mkCell 1 0 /\ lastDecision (debugStats (snd r2)) <> DNoLegalMove.
Proof.
  vm_compute; split; [reflexivity|split; [reflexivity|split; [reflexivity|split; [reflexivity|]]]].
  discriminate.
Qed.

(** Claim C9, amended. For an empty body, [getNextDirection] returns
    [currentDir] and leaves [debugStats.lastDecision] unchanged. For a
    non-empty body, the label becomes [no-legal-move] exactly when
    [getValidMoves] finds no move from [head] (every neighbour of [head]
    but the reverse of a non-zero [currentDir] is off the board, in
    [body[1..length-2]] or a hazard), and the call then returns
    [currentDir]; a head off the board is not rejected by itself. *)
Theorem getNextDirection_malformed (ai : AIController) (head currentDir : cell)
    (body : list cell) (foodPos : foodArg) :
  let r := getNextDirection ai head currentDir body foodPos in
  (body = [] -> fst r = currentDir /\
     lastDecision (debugStats (snd r)) = lastDecision (debugStats ai)) /\
  (body <> [] ->
     (lastDecision (debugStats (snd r)) = DNoLegalMove <->
        getValidMoves ai head currentDir body = []) /\
     (getValidMoves ai head currentDir body = [] -> fst r = currentDir)).
Proof.
  cbv zeta.
  destruct (getNextDirection_cases ai head currentDir body foodPos)
    as [[Hb [Hd Hl]]|[[Hb [Hm [Hd Hl]]]|[Hb [[m [Hm Hd]] Hl]]]].
  - split; [intros _; split; assumption|intros H; contradiction].
  - split; [intros H; contradiction|intros _].
    split; [split; intros; assumption|intros _; exact Hd].
  - split; [intros H; contradiction|intros _].
    assert (Hne : getValidMoves ai head currentDir body <> [])
      by (intros E; rewrite E in Hm; destruct Hm).
    split; [split; intros H; [contradiction|contradiction]|intros H; contradiction].
Qed.

(** ** HamiltonianCycle accessors *)

Lemma lookupIndex_indexTable_nth (l : list cell) (i : Z) (k : nat) (d : cell) :
  NoDup l -> (k < length l)%nat -> lookupIndex (nth k l d) (indexTable i l) = Some (i + Z.of_nat k).
Proof.
  revert i k; induction l as [|a l IH]; intros i k Hnd Hk; [simpl in Hk; lia|].
  inversion Hnd as [|? ? Hna Hndl]; subst.
  destruct k as [|k]; simpl.
  - rewrite cell_eqb_refl; f_equal; lia.
  - destruct (cell_eqb a (nth k l d)) eqn:E.
    + apply cell_eqb_spec in E; exfalso; apply Hna; rewrite E; apply nth_In; simpl in Hk; lia.
    + rewrite (IH (i + 1) k Hndl) by (simpl in Hk; lia); f_equal; lia.
Qed.

Lemma lookupIndex_indexTable_notin (l : list cell) (i : Z) (c : cell) :
  ~ In c l -> lookupIndex c (indexTable i l) = None.
Proof.
  revert i; induction l as [|a l IH]; intros i Hn; [reflexivity|]; simpl.
  destruct (cell_eqb a c) eqn:E; [apply cell_eqb_spec in E; subst; exfalso; apply Hn; left; reflexivity|].
  apply IH; intros H; apply Hn; right; exact H.
Qed.

(** [((index % n) + n) % n] is the mathematical [index mod n]. *)
Lemma rem_wrap (i n : Z) : 0 < n -> Z.rem (Z.rem i n + n) n = i mod n.
Proof.
  intros Hn; pose proof (Z.rem_bound_abs i n ltac:(lia)) as Hb.
  rewrite Z.rem_mod_nonneg by lia.
  rewrite (Z.rem_eq i n) by lia.
  replace (i - n * (i ÷ n) + n) with (i + (1 - i ÷ n) * n) by ring.
  apply Z.mod_add; lia.
Qed.

Lemma invalid_cycle_empty (g : GridBounds) :
  isValid (newHamiltonianCycle g) = false ->
  order (newHamiltonianCycle g) = [] /\ indexByKey (newHamiltonianCycle g) = [].
Proof.
  unfold isValid, newHamiltonianCycle; cbv zeta.
  destruct ((width g <? 2) || (height g <? 2)); [intros; split; reflexivity|].
  destruct (negb (Z.rem (width g) 2 =? 0) && negb (Z.rem (height g) 2 =? 0));
    [intros; split; reflexivity|].
  destruct (negb (Z.of_nat (length _) =? _)); [intros; split; reflexivity|].
  destruct (hasDuplicate _ _); [intros; split; reflexivity|].
  destruct (negb (allAdjacent _)); [intros; split; reflexivity|].
  discriminate.
Qed.

(** The valid cycle at a position: [order[k]] has index [k]. *)
Lemma indexOf_nth (g : GridBounds) (k : nat) :
  isValid (newHamiltonianCycle g) = true ->
  (k < length (order (newHamiltonianCycle g)))%nat ->
  indexOf (newHamiltonianCycle g) (nth k (order (newHamiltonianCycle g)) (mkCell 0 0)) = Z.of_nat k.
Proof.
  intros Hv Hk; destruct (cycle_valid_facts g Hv) as (_ & _ & _ & Hnd & _ & _ & Hix).
  unfold indexOf; rewrite Hix, lookupIndex_indexTable_nth by assumption; reflexivity.
Qed.

Lemma getCell_nth (g : GridBounds) (i : Z) :
  isValid (newHamiltonianCycle g) = true ->
  let n := Z.of_nat (length (order (newHamiltonianCycle g))) in
  0 < n /\ getCell (newHamiltonianCycle g) i =
    Some (nth (Z.to_nat (i mod n)) (order (newHamiltonianCycle g)) (mkCell 0 0)).
Proof.
  intros Hv n; pose proof (cycle_valid_length_pos g Hv) as Hn; fold n in Hn; split; [exact Hn|].
  unfold getCell; unfold isValid in Hv; rewrite Hv; fold n.
  replace (n =? 0) with false by (symmetry; apply Z.eqb_neq; lia); cbn [negb orb].
  rewrite rem_wrap by exact Hn; apply nth_error_nth'.
  pose proof (Z.mod_pos_bound i n Hn); unfold n in *; lia.
Qed.
Lemma indexOf_inBounds (g : GridBounds) (p : cell) :
  isValid (newHamiltonianCycle g) = true -> inBounds g p = true ->
  exists k, (k < length (order (newHamiltonianCycle g)))%nat /\
    nth k (order (newHamiltonianCycle g)) (mkCell 0 0) = p /\
    indexOf (newHamiltonianCycle g) p = Z.of_nat k.
Proof.
  intros Hv Hp; destruct (cycle_valid_facts g Hv) as (Hw & Hh & Hl & Hnd & Hin & _ & _).
  assert (Hp' : In p (order (newHamiltonianCycle g)))
    by (apply (nodup_full_covers g); try lia; try assumption).
  destruct (In_nth _ _ (mkCell 0 0) Hp') as [k [Hk Hkp]].
  exists k; split; [exact Hk|split; [exact Hkp|]].
  rewrite <- Hkp; apply indexOf_nth; assumption.
Qed.

Lemma indexOf_outside (g : GridBounds) (p : cell) :
  isValid (newHamiltonianCycle g) = false \/ inBounds g p = false ->
  indexOf (newHamiltonianCycle g) p = -1.
Proof.
  intros [Hv|Hp]; unfold indexOf.
  - destruct (invalid_cycle_empty g Hv) as [_ ->]; reflexivity.
  - destruct (isValid (newHamiltonianCycle g)) eqn:Hv.
    + destruct (cycle_valid_facts g Hv) as (_ & _ & _ & _ & Hin & _ & Hix).
      rewrite Hix, lookupIndex_indexTable_notin; [reflexivity|].
      intros H; apply Hin in H; congruence.
    + destruct (invalid_cycle_empty g Hv) as [_ ->]; reflexivity.
Qed.

Lemma indexOf_getCell_inv (g : GridBounds) (p : cell) :
  let hc := newHamiltonianCycle g in
  let n := Z.of_nat (length (order hc)) in
  (isValid hc = true -> inBounds g p = true ->
     0 <= indexOf hc p < n /\ getCell hc (indexOf hc p) = Some p) /\
  (isValid hc = false \/ inBounds g p = false -> indexOf hc p = -1).
Proof.
  cbv zeta; split; [|apply indexOf_outside].
  intros Hv Hp; destruct (indexOf_inBounds g p Hv Hp) as [k [Hk [Hkp ->]]].
  split; [lia|].
  destruct (getCell_nth g (Z.of_nat k) Hv) as [Hn ->].
  rewrite Z.mod_small by lia; rewrite Nat2Z.id, Hkp; reflexivity.
Qed.

(** [indexOf] and [getCell] are inverse: an in-bounds cell has an index in
    [[0, n)] and [getCell] of it is the cell; any other cell, or any cell of
    an invalid cycle, has index [-1]. *)
Theorem indexOf_getCell_roundtrip (g : GridBounds) (p : cell) :
  let hc := newHamiltonianCycle g in
  let n := Z.of_nat (length (order hc)) in
  (isValid hc = true -> inBounds g p = true ->
     0 <= indexOf hc p < n /\ getCell hc (indexOf hc p) = Some p) /\
  (isValid hc = false \/ inBounds g p = false -> indexOf hc p = -1).
Proof. exact (indexOf_getCell_inv g p). Qed.

(** [getCell] reads the order cyclically: on a valid cycle every index
    [i], negative ones included, gives the in-bounds cell whose index is
    [i mod n]; the result only depends on [i mod n]; an invalid cycle gives
    [null]. *)
Theorem getCell_mod (g : GridBounds) (i : Z) :
  let hc := newHamiltonianCycle g in
  let n := Z.of_nat (length (order hc)) in
  (isValid hc = false -> getCell hc i = None) /\
  (isValid hc = true -> exists c, getCell hc i = Some c /\ inBounds g c = true /\
                                  indexOf hc c = i mod n) /\
  getCell hc (i + n) = getCell hc i.
Proof.
  cbv zeta.
  destruct (isValid (newHamiltonianCycle g)) eqn:Hv.
  - destruct (cycle_valid_facts g Hv) as (_ & _ & _ & _ & Hin & _ & _).
    destruct (getCell_nth g i Hv) as [Hn Hi].
    destruct (getCell_nth g (i + Z.of_nat (length (order (newHamiltonianCycle g)))) Hv) as [_ Hi'].
    split; [discriminate|split].
    + intros _; rewrite Hi; eexists; split; [reflexivity|split].
      * apply Hin, nth_In; pose proof (Z.mod_pos_bound i _ Hn); lia.
      * rewrite indexOf_nth by (assumption || (pose proof (Z.mod_pos_bound i _ Hn); lia)).
        pose proof (Z.mod_pos_bound i _ Hn); lia.
    + rewrite Hi, Hi'; f_equal; f_equal; f_equal.
      rewrite <- (Z.mul_1_l (Z.of_nat _)) at 1; apply Z.mod_add; lia.
  - unfold getCell; unfold isValid in Hv; rewrite Hv; cbn [negb orb].
    split; [reflexivity|split; [discriminate|reflexivity]].
Qed.

Lemma getCell_indexOf (g : GridBounds) (i : Z) :
  isValid (newHamiltonianCycle g) = true ->
  exists c, getCell (newHamiltonianCycle g) i = Some c /\ inBounds g c = true /\
    indexOf (newHamiltonianCycle g) c = i mod Z.of_nat (length (order (newHamiltonianCycle g))).
Proof.
  intros Hv; destruct (cycle_valid_facts g Hv) as (_ & _ & _ & _ & Hin & _ & _).
  destruct (getCell_nth g i Hv) as [Hn Hi]; rewrite Hi; eexists; split; [reflexivity|split].
  - apply Hin, nth_In; pose proof (Z.mod_pos_bound i _ Hn); lia.
  - rewrite indexOf_nth by (assumption || (pose proof (Z.mod_pos_bound i _ Hn); lia)).
    pose proof (Z.mod_pos_bound i _ Hn); lia.
Qed.

Lemma getCell_mod_eq (g : GridBounds) (i j : Z) :
  isValid (newHamiltonianCycle g) = true ->
  i mod Z.of_nat (length (order (newHamiltonianCycle g))) =
  j mod Z.of_nat (length (order (newHamiltonianCycle g))) ->
  getCell (newHamiltonianCycle g) i = getCell (newHamiltonianCycle g) j.
Proof.
  intros Hv E; destruct (getCell_nth g i Hv) as [_ ->]; destruct (getCell_nth g j Hv) as [_ ->].
  rewrite E; reflexivity.
Qed.

(** [getNextCell] moves one step along the cycle: on a valid cycle an
    in-bounds cell has a successor, an in-bounds cell at Manhattan distance
    1 whose index is the next one modulo [n]; off the board, or on an
    invalid cycle, there is none. *)
Theorem getNextCell_step (g : GridBounds) (p : cell) :
  let hc := newHamiltonianCycle g in
  let n := Z.of_nat (length (order hc)) in
  (isValid hc = true -> inBounds g p = true ->
     exists q, getNextCell hc p = Some q /\ manhattan p q = 1 /\ inBounds g q = true /\
               indexOf hc q = (indexOf hc p + 1) mod n) /\
  (isValid hc = false \/ inBounds g p = false -> getNextCell hc p = None).
Proof.
  cbv zeta; split.
  - intros Hv Hp; destruct (indexOf_inBounds g p Hv Hp) as [k [Hk [Hkp Hi]]].
    destruct (cycle_valid_facts g Hv) as (_ & _ & _ & _ & Hin & Hadj & _).
    destruct (getCell_nth g (Z.of_nat k + 1) Hv) as [Hn Hc].
    unfold getNextCell; rewrite Hi.
    replace (Z.of_nat k <? 0) with false by (symmetry; apply Z.ltb_ge; lia).
    rewrite Hc.
    set (len := length (order (newHamiltonianCycle g))) in *.
    assert (Hm : Z.to_nat ((Z.of_nat k + 1) mod Z.of_nat len) = Nat.modulo (k + 1) len).
    { replace (Z.of_nat k + 1) with (Z.of_nat (k + 1)) by lia.
      rewrite <- Nat2Z.inj_mod, Nat2Z.id; reflexivity. }
    rewrite Hm; eexists; split; [reflexivity|split; [|split]].
    + rewrite <- Hkp; apply allAdjacent_true; assumption.
    + apply Hin, nth_In, Nat.mod_upper_bound; lia.
    + rewrite indexOf_nth by (assumption || (apply Nat.mod_upper_bound; lia)).
      rewrite Nat2Z.inj_mod, Nat2Z.inj_add; reflexivity.
  - intros H; unfold getNextCell; rewrite (indexOf_outside g p H); reflexivity.
Qed.

(** The cell reached from [p] after [k] calls of [getNextCell]. *)
Lemma iter_getNextCell (g : GridBounds) (p : cell) (k : nat) :
  isValid (newHamiltonianCycle g) = true -> inBounds g p = true ->
  Nat.iter k (fun o => match o with Some c => getNextCell (newHamiltonianCycle g) c | None => None end)
    (Some p) = getCell (newHamiltonianCycle g) (indexOf (newHamiltonianCycle g) p + Z.of_nat k).
Proof.
  intros Hv Hp; induction k as [|k IH].
  - destruct (indexOf_getCell_inv g p) as [H _]; destruct (H Hv Hp) as [_ E].
    rewrite Z.add_0_r, E; reflexivity.
  - rewrite Nat.iter_succ, IH.
    destruct (getCell_indexOf g (indexOf (newHamiltonianCycle g) p + Z.of_nat k) Hv)
      as [c [-> [Hc Hic]]].
    destruct (getCell_nth g 0 Hv) as [Hn _].
    unfold getNextCell; rewrite Hic.
    replace (_ mod _ <? 0) with false by (symmetry; apply Z.ltb_ge, Z.mod_pos_bound; exact Hn).
    apply getCell_mod_eq; [exact Hv|].
    rewrite Z.add_mod_idemp_l by lia; f_equal; lia.
Qed.
Lemma distanceForward_valid (g : GridBounds) (a b : Z) :
  isValid (newHamiltonianCycle g) = true ->
  0 <= a < Z.of_nat (length (order (newHamiltonianCycle g))) ->
  0 <= b < Z.of_nat (length (order (newHamiltonianCycle g))) ->
  distanceForward (newHamiltonianCycle g) a b =
    JFin ((b - a) mod Z.of_nat (length (order (newHamiltonianCycle g)))).
Proof.
  intros Hv Ha Hb; unfold distanceForward, forwardDelta.
  unfold isValid in Hv; rewrite Hv.
  replace (Z.of_nat _ =? 0) with false by (symmetry; apply Z.eqb_neq; lia); cbn [negb orb].
  rewrite Z.rem_mod_nonneg by lia.
  f_equal; set (n := Z.of_nat _).
  replace (b - a + n) with (b - a + 1 * n) by ring; apply Z.mod_add; lia.
Qed.

(** Following the cycle: from an in-bounds cell [p], [distanceForward] of
    the two indices calls of [getNextCell] lead to any in-bounds cell [q]. *)
Theorem cycle_forward_reaches (g : GridBounds) (p q : cell) :
  let hc := newHamiltonianCycle g in
  isValid hc = true -> inBounds g p = true -> inBounds g q = true ->
  exists k, distanceForward hc (indexOf hc p) (indexOf hc q) = JFin (Z.of_nat k) /\
    Nat.iter k (fun o => match o with Some c => getNextCell hc c | None => None end) (Some p)
    = Some q.
Proof.
  cbv zeta; intros Hv Hp Hq.
  destruct (indexOf_getCell_inv g p) as [Rp _]; destruct (Rp Hv Hp) as [Bp _].
  destruct (indexOf_getCell_inv g q) as [Rq _]; destruct (Rq Hv Hq) as [Bq Eq].
  set (n := Z.of_nat (length (order (newHamiltonianCycle g)))) in *.
  set (ip := indexOf (newHamiltonianCycle g) p) in *.
  set (iq := indexOf (newHamiltonianCycle g) q) in *.
  assert (Hn : 0 < n) by lia.
  pose proof (Z.mod_pos_bound (iq - ip) n Hn) as Hd.
  exists (Z.to_nat ((iq - ip) mod n)); split.
  - rewrite distanceForward_valid by assumption; fold n; f_equal; lia.
  - rewrite iter_getNextCell by assumption; fold ip.
    rewrite Z2Nat.id by lia; rewrite <- Eq; apply getCell_mod_eq; [exact Hv|].
    fold n; rewrite Z.add_mod_idemp_r by lia; f_equal; lia.
Qed.

(** Going forward from index [a] to a different index [b] and on back to
    [a] is exactly one lap: the two forward distances are positive and add
    up to the cycle length [n]. *)
Theorem distanceForward_lap (g : GridBounds) (a b : Z) :
  let hc := newHamiltonianCycle g in
  let n := Z.of_nat (length (order hc)) in
  isValid hc = true -> 0 <= a < n -> 0 <= b < n -> a <> b ->
  exists d1 d2, distanceForward hc a b = JFin d1 /\ distanceForward hc b a = JFin d2 /\
    0 < d1 /\ 0 < d2 /\ d1 + d2 = n.
Proof.
  cbv zeta; intros Hv Ha Hb Hab.
  rewrite !distanceForward_valid by assumption.
  set (n := Z.of_nat (length (order (newHamiltonianCycle g)))) in *.
  eexists; eexists; split; [reflexivity|split; [reflexivity|]].
  destruct (Z.lt_ge_cases a b).
  - rewrite (Z.mod_small (b - a)) by lia.
    replace (a - b) with ((a - b + n) + (-1) * n) by ring; rewrite Z.mod_add, Z.mod_small by lia; lia.
  - rewrite (Z.mod_small (a - b)) by lia.
    replace (b - a) with ((b - a + n) + (-1) * n) by ring; rewrite Z.mod_add, Z.mod_small by lia; lia.
Qed.

Lemma cycle_forward_reaches_witness :
  let hc := newHamiltonianCycle (mkGrid 4 4 0 0) in
  isValid hc = true /\ inBounds (mkGrid 4 4 0 0) (mkCell 2 1) = true /\
  inBounds (mkGrid 4 4 0 0) (mkCell 0 2) = true /\
  exists k, distanceForward hc (indexOf hc (mkCell 2 1)) (indexOf hc (mkCell 0 2)) = JFin (Z.of_nat k) /\
    Nat.iter k (fun o => match o with Some c => getNextCell hc c | None => None end) (Some (mkCell 2 1))
    = Some (mkCell 0 2).
Proof.
  cbv zeta; split; [vm_compute; reflexivity|split; [vm_compute; reflexivity|split; [vm_compute; reflexivity|]]].
  apply (cycle_forward_reaches (mkGrid 4 4 0 0) (mkCell 2 1) (mkCell 0 2)); vm_compute; reflexivity.
Defined.

Lemma distanceForward_lap_witness :
  let hc := newHamiltonianCycle (mkGrid 2 3 5 5) in
  isValid hc = true /\
  exists d1 d2, distanceForward hc 1 4 = JFin d1 /\ distanceForward hc 4 1 = JFin d2 /\
    0 < d1 /\ 0 < d2 /\ d1 + d2 = 6.
Proof.
  cbv zeta; split; [vm_compute; reflexivity|].
  assert (Hn : Z.of_nat (length (order (newHamiltonianCycle (mkGrid 2 3 5 5)))) = 6)
    by (vm_compute; reflexivity).
  rewrite <- Hn.
  apply (distanceForward_lap (mkGrid 2 3 5 5) 1 4); [vm_compute; reflexivity|lia|lia|lia].
Defined.


(** ** Building the cycle *)

Lemma manhattan_sym (a b : cell) : manhattan a b = manhattan b a.
Proof. unfold manhattan; lia. Qed.

Lemma chain_app (l1 l2 : list cell) :
  chain (l1 ++ l2) <->
  chain l1 /\ chain l2 /\
  (l1 = [] \/ l2 = [] \/ manhattan (last l1 (mkCell 0 0)) (hd (mkCell 0 0) l2) = 1).
Proof.
  induction l1 as [|a t IH]; [simpl; intuition|].
  destruct t as [|b t].
  - destruct l2 as [|c l2]; simpl.
    + split; [intros H; repeat split; auto|tauto].
    + split; [intros [H1 H2]; split; [split; exact Logic.I|split; [exact H2|right; right; exact H1]]|].
      intros (_ & H2 & [H|[H|H]]); [discriminate|discriminate|split; assumption].
  - rewrite <- app_comm_cons; cbn [chain]; rewrite <- app_comm_cons in IH |- *; cbn [chain] in IH |- *.
    rewrite IH, last_cons_default.
    rewrite !last_cons_default; intuition congruence.
Qed.

Lemma last_rev_hd (l : list cell) (d : cell) : last (rev l) d = hd d l.
Proof. destruct l as [|a l]; [reflexivity|]; simpl; apply last_last. Qed.

Lemma chain_rev (l : list cell) : chain l -> chain (rev l).
Proof.
  induction l as [|a t IH]; [simpl; auto|].
  intros [Hj Ht]; cbn [rev]; apply chain_app; split; [apply IH, Ht|split; [simpl; auto|]].
  destruct t as [|b t]; [left; reflexivity|right; right].
  rewrite last_rev_hd; simpl; rewrite manhattan_sym; exact Hj.
Qed.

Lemma chain_map (f : cell -> cell) (l : list cell) :
  (forall a b, manhattan (f a) (f b) = manhattan a b) -> chain (map f l) <-> chain l.
Proof.
  intros Hf; induction l as [|a t IH]; [simpl; tauto|].
  cbn [map chain]; rewrite IH; destruct t as [|b t]; simpl; [tauto|rewrite Hf; tauto].
Qed.

Lemma chain_row_x (z a : Z) (n : nat) : chain (map (fun x => mkCell x z) (zrange a n)).
Proof.
  revert a; induction n as [|n IH]; intros a; [exact Logic.I|].
  cbn [zrange map chain]; split; [|apply IH].
  destruct n; simpl; [exact Logic.I|unfold manhattan; simpl; lia].
Qed.

Lemma hd_map_zrange (f : Z -> cell) (a : Z) (n : nat) (d : cell) :
  (0 < n)%nat -> hd d (map f (zrange a n)) = f a.
Proof. destruct n; [lia|reflexivity]. Qed.

Lemma last_zrange (a : Z) (n : nat) (d : Z) : last (zrange a (S n)) d = a + Z.of_nat n.
Proof.
  revert a d; induction n as [|n IH]; intros a d; [simpl; lia|].
  change (last (a :: zrange (a + 1) (S n)) d = a + Z.of_nat (S n)).
  rewrite last_cons_default, IH; lia.
Qed.

Lemma last_map_cell (f : Z -> cell) (l : list Z) (dz : Z) :
  l <> [] -> last (map f l) (mkCell 0 0) = f (last l dz).
Proof.
  induction l as [|a t IH]; [congruence|]; intros _.
  destruct t as [|b t]; [reflexivity|].
  cbn [map]; rewrite last_cons_default.
  change (last (map f (b :: t)) (f a) = f (last (b :: t) dz)).
  rewrite <- IH by discriminate.
  destruct (map f (b :: t)) eqn:E; [discriminate|].
  rewrite !last_cons_default; reflexivity.
Qed.

(** The allAdjacent check, as a chain closed by the wrap-around step. *)
Lemma chain_nth (l : list cell) :
  chain l <-> forall i, (S i < length l)%nat ->
    manhattan (nth i l (mkCell 0 0)) (nth (S i) l (mkCell 0 0)) = 1.
Proof.
  induction l as [|a t IH]; [simpl; split; [intros _ i Hi; lia|auto]|].
  cbn [chain]; rewrite IH; split.
  - intros [Hj Ht] [|i] Hi.
    + destruct t as [|b t]; [simpl in Hi; lia|exact Hj].
    + apply Ht; simpl in Hi; lia.
  - intros H; split.
    + destruct t as [|b t]; [exact Logic.I|apply (H 0%nat); simpl; lia].
    + intros i Hi; apply (H (S i)); simpl; lia.
Qed.

Lemma nth_last (l : list cell) (d : cell) : l <> [] -> nth (length l - 1) l d = last l d.
Proof.
  intros Hne; pose proof (app_removelast_last d Hne) as E.
  set (x := last l d) in *; set (r := removelast l) in *; clearbody x r.
  rewrite E, length_app; cbn [length].
  rewrite app_nth2 by lia; replace (length r + 1 - 1 - length r)%nat with 0%nat by lia; reflexivity.
Qed.

Lemma allAdjacent_chain (l : list cell) :
  allAdjacent l = true <->
  chain l /\ (l = [] \/ manhattan (last l (mkCell 0 0)) (hd (mkCell 0 0) l) = 1).
Proof.
  unfold allAdjacent; rewrite forallb_forall, chain_nth.
  destruct l as [|a t]; [simpl; split; [intros _; split; [intros i Hi; lia|left; reflexivity]|intros _ i []]|].
  set (l := a :: t); set (n := length l).
  assert (Hn : (0 < n)%nat) by (unfold n, l; simpl; lia).
  split.
  - intros H; split.
    + intros i Hi; specialize (H i); rewrite Z.eqb_eq in H.
      rewrite <- H by (apply in_seq; lia); f_equal; f_equal; rewrite Nat.mod_small by lia; lia.
    + right; specialize (H (n - 1)%nat); rewrite Z.eqb_eq in H.
      rewrite <- (nth_last l) by discriminate; rewrite <- H by (apply in_seq; lia).
      replace (n - 1 + 1)%nat with n by lia; rewrite Nat.Div0.mod_same; reflexivity.
  - intros [Hc [Hl|Hw]] i Hi; [discriminate|]; apply in_seq in Hi; apply Z.eqb_eq.
    destruct (Nat.eq_dec i (n - 1)) as [->|Hne].
    + replace (n - 1 + 1)%nat with n by lia; rewrite Nat.Div0.mod_same.
      unfold n; rewrite nth_last by discriminate; exact Hw.
    + rewrite Nat.mod_small by lia; rewrite Nat.add_1_r; apply Hc; lia.
Qed.

Lemma zrange_S_r (a : Z) (n : nat) : zrange a (S n) = zrange a n ++ [a + Z.of_nat n].
Proof.
  revert a; induction n as [|n IH]; intros a; [simpl; f_equal; f_equal; lia|].
  change (zrange a (S (S n))) with (a :: zrange (a + 1) (S n)); rewrite IH.
  simpl; do 3 f_equal; lia.
Qed.

Lemma zrange_S_l (a : Z) (n : nat) : zrange a (S n) = a :: zrange (a + 1) n.
Proof. reflexivity. Qed.

(** The rows of [buildCycleEvenWidth] after the first one. *)
Lemma cycle_row_eq (w z : Z) : 2 <= w ->
  (if Z.rem z 2 =? 1
   then mkCell (w - 1) z :: map (fun x => mkCell x z) (downto (w - 2) 1)
   else mkCell 1 z :: map (fun x => mkCell x z) (upto 2 w)) =
  (if Z.rem z 2 =? 1 then rev (rowCells w z) else rowCells w z).
Proof.
  intros Hw; unfold rowCells, downto, upto.
  replace (Z.to_nat (w - 1)) with (S (Z.to_nat (w - 2))) by lia.
  destruct (Z.rem z 2 =? 1).
  - rewrite zrange_S_r, map_app, rev_app_distr, map_rev.
    replace (w - 2 + 1 - 1) with (w - 2) by lia; cbn [rev app map]; f_equal; f_equal; lia.
  - rewrite zrange_S_l; cbn [map]; replace (1 + 1) with 2 by lia; reflexivity.
Qed.

Lemma buildCycleEvenWidth_eq (w h : Z) : 2 <= w -> 2 <= h ->
  buildCycleEvenWidth w h =
  map (fun x => mkCell x 0) (zrange 0 (Z.to_nat w))
  ++ flat_map (fun z => if Z.rem z 2 =? 1 then rev (rowCells w z) else rowCells w z)
              (zrange 1 (Z.to_nat (h - 1)))
  ++ rev (map (fun z => mkCell 0 z) (zrange 1 (Z.to_nat (h - 1)))).
Proof.
  intros Hw Hh; unfold buildCycleEvenWidth.
  rewrite (flat_map_ext _ _ (fun z => cycle_row_eq w z Hw)).
  replace (Z.to_nat w) with (S (Z.to_nat (w - 1))) by lia.
  rewrite zrange_S_l; unfold downto, upto.
  replace (h - 1 + 1 - 1) with (h - 1) by lia; rewrite map_rev; reflexivity.
Qed.

Lemma rowCells_facts (w z : Z) : 2 <= w ->
  let r := rowCells w z in
  chain r /\ chain (rev r) /\ length r = Z.to_nat (w - 1) /\
  hd (mkCell 0 0) r = mkCell 1 z /\ last r (mkCell 0 0) = mkCell (w - 1) z /\
  hd (mkCell 0 0) (rev r) = mkCell (w - 1) z /\ last (rev r) (mkCell 0 0) = mkCell 1 z /\
  (forall c, In c r <-> cz c = z /\ 1 <= cx c <= w - 1).
Proof.
  intros Hw r.
  assert (Hne : r <> []) by (unfold r, rowCells; destruct (Z.to_nat (w - 1)) eqn:E; [lia|discriminate]).
  assert (Hl : last r (mkCell 0 0) = mkCell (w - 1) z).
  { unfold r, rowCells; rewrite (last_map_cell _ _ 0) by (destruct (Z.to_nat (w - 1)) eqn:E; [lia|discriminate]).
    replace (Z.to_nat (w - 1)) with (S (Z.to_nat (w - 2))) by lia; rewrite last_zrange; f_equal; lia. }
  assert (Hh : hd (mkCell 0 0) r = mkCell 1 z).
  { unfold r, rowCells; rewrite hd_map_zrange by lia; reflexivity. }
  split; [apply chain_row_x|split; [apply chain_rev, chain_row_x|split]].
  { unfold r, rowCells; rewrite length_map, length_zrange; reflexivity. }
  split; [exact Hh|split; [exact Hl|split; [|split]]].
  - rewrite <- Hl; pose proof (app_removelast_last (mkCell 0 0) Hne) as E.
    rewrite E at 1; rewrite rev_app_distr; reflexivity.
  - rewrite last_rev_hd; exact Hh.
  - intros c; unfold r, rowCells; rewrite in_map_iff; split.
    + intros [x [<- Hx]]; apply In_zrange in Hx; simpl; lia.
    + intros [Hz Hx]; exists (cx c); split; [destruct c; simpl in *; congruence|].
      apply In_zrange; lia.
Qed.

Lemma hd_app_ne (l1 l2 : list cell) (d : cell) : l1 <> [] -> hd d (l1 ++ l2) = hd d l1.
Proof. destruct l1; [congruence|reflexivity]. Qed.

Lemma last_app_ne (l1 l2 : list cell) (d : cell) : l2 <> [] -> last (l1 ++ l2) d = last l2 d.
Proof.
  intros Hne; rewrite last_app.
  destruct l2 as [|a l2]; [congruence|]; rewrite !last_cons_default; reflexivity.
Qed.

Lemma rem2_succ (a : Z) : 0 <= a -> (Z.rem (a + 1) 2 =? 1) = negb (Z.rem a 2 =? 1).
Proof.
  intros Ha; rewrite !Z.rem_mod_nonneg by lia; rewrite !Zmod_even, Z.even_add.
  destruct (Z.even a); reflexivity.
Qed.

Lemma zigzag_facts (w z : Z) : 2 <= w ->
  let r := if Z.rem z 2 =? 1 then rev (rowCells w z) else rowCells w z in
  chain r /\ r <> [] /\ length r = Z.to_nat (w - 1) /\
  hd (mkCell 0 0) r = (if Z.rem z 2 =? 1 then mkCell (w - 1) z else mkCell 1 z) /\
  last r (mkCell 0 0) = (if Z.rem z 2 =? 1 then mkCell 1 z else mkCell (w - 1) z) /\
  (forall c, In c r <-> cz c = z /\ 1 <= cx c <= w - 1).
Proof.
  intros Hw r; destruct (rowCells_facts w z Hw) as (C1 & C2 & L & H1 & L1 & H2 & L2 & I).
  assert (Hne : rowCells w z <> []) by (intros E; rewrite E in L; simpl in L; lia).
  unfold r; destruct (Z.rem z 2 =? 1).
  - split; [exact C2|split; [intros E; apply Hne; rewrite <- (rev_involutive (rowCells w z)), E; reflexivity|]].
    split; [rewrite length_rev; exact L|split; [exact H2|split; [exact L2|]]].
    intros c; rewrite <- in_rev; apply I.
  - split; [exact C1|split; [exact Hne|split; [exact L|split; [exact H1|split; [exact L1|exact I]]]]].
Qed.

Lemma rows_facts (w a : Z) (n : nat) : 2 <= w -> 0 <= a ->
  let F := fun z => if Z.rem z 2 =? 1 then rev (rowCells w z) else rowCells w z in
  let R := flat_map F (zrange a n) in
  chain R /\ length R = (n * Z.to_nat (w - 1))%nat /\
  ((0 < n)%nat -> hd (mkCell 0 0) R = hd (mkCell 0 0) (F a) /\
                  last R (mkCell 0 0) = last (F (a + Z.of_nat n - 1)) (mkCell 0 0)).
Proof.
  intros Hw; revert a; induction n as [|n IH]; intros a Ha; cbv beta zeta in *;
    [repeat split; simpl; auto; lia|].
  rewrite zrange_S_l; cbn [flat_map].
  destruct (zigzag_facts w a Hw) as (Ca & Nea & La & Ha' & Lsa & _).
  destruct (IH (a + 1) ltac:(lia)) as (Cr & Lr & Er).
  split; [apply chain_app; split; [exact Ca|split; [exact Cr|]]|split].
  - destruct n as [|n]; [right; left; reflexivity|right; right].
    destruct (Er ltac:(lia)) as [-> _].
    destruct (zigzag_facts w (a + 1) Hw) as (_ & _ & _ & Hb & _ & _).
    rewrite Lsa, Hb, rem2_succ by lia.
    destruct (Z.rem a 2 =? 1); simpl; unfold manhattan; simpl; lia.
  - rewrite length_app, La, Lr; lia.
  - intros _; split; [apply hd_app_ne, Nea|].
    destruct n as [|n].
    + simpl; rewrite app_nil_r; replace (a + 1 - 1) with a by lia; reflexivity.
    + destruct (Er ltac:(lia)) as [_ El]; rewrite last_app_ne, El.
      * replace (a + 1 + Z.of_nat (S n) - 1) with (a + Z.of_nat (S (S n)) - 1) by lia; reflexivity.
      * intros E; apply (f_equal (@length cell)) in E; rewrite Lr in E; simpl in E; lia.
Qed.

Lemma chain_col (x a : Z) (n : nat) : chain (map (fun z => mkCell x z) (zrange a n)).
Proof.
  revert a; induction n as [|n IH]; intros a; [exact Logic.I|].
  cbn [zrange map chain]; split; [|apply IH].
  destruct n; simpl; [exact Logic.I|unfold manhattan; simpl; lia].
Qed.

Lemma rem2_pred_even (h : Z) : 1 <= h -> (Z.rem (h - 1) 2 =? 1) = Z.even h.
Proof.
  intros Hh; rewrite Z.rem_mod_nonneg, Zmod_even by lia.
  replace h with ((h - 1) + 1) at 2 by lia; rewrite Z.even_add.
  destruct (Z.even (h - 1)); reflexivity.
Qed.

Lemma local_box_covered (w h : Z) (l : list cell) :
  0 <= w -> 0 <= h -> (Z.to_nat (w * h) <= length l)%nat ->
  (forall c, 0 <= cx c < w -> 0 <= cz c < h -> In c l) ->
  (length l <= Z.to_nat (w * h))%nat -> NoDup l.
Proof.
  intros Hw Hh _ Hcov Hlen.
  eapply NoDup_incl_NoDup; [apply (NoDup_gridCells (mkGrid w h 0 0))| |].
  - pose proof (length_gridCells (mkGrid w h 0 0) Hw Hh) as E; unfold cellCount in E; simpl in E; lia.
  - intros c Hc; apply In_gridCells, inBounds_iff in Hc; unfold maxX, maxZ in Hc; simpl in Hc.
    apply Hcov; lia.
Qed.

(** What [buildCycleEvenWidth] produces: [width * height] distinct local
    cells, adjacent in turn; the step back from the last row to column 0
    is a unit step exactly when [height] is even or [width = 2]. *)
Lemma buildCycleEvenWidth_facts (w h : Z) : 2 <= w -> 2 <= h ->
  let l := buildCycleEvenWidth w h in
  Z.of_nat (length l) = w * h /\ NoDup l /\
  (allAdjacent l = true <-> Z.even h = true \/ w = 2).
Proof.
  intros Hw Hh l.
  pose proof (buildCycleEvenWidth_eq w h Hw Hh) as E; fold l in E.
  set (F := fun z => if Z.rem z 2 =? 1 then rev (rowCells w z) else rowCells w z) in E.
  set (P0 := map (fun x => mkCell x 0) (zrange 0 (Z.to_nat w))) in E.
  set (R := flat_map F (zrange 1 (Z.to_nat (h - 1)))) in E.
  set (C0 := map (fun z => mkCell 0 z) (zrange 1 (Z.to_nat (h - 1)))) in E.
  destruct (rows_facts w 1 (Z.to_nat (h - 1)) Hw ltac:(lia)) as (CR & LR & ER); fold F R in CR, LR, ER.
  destruct (ER ltac:(lia)) as [HR LastR].
  assert (HL : Z.of_nat (length l) = w * h).
  { rewrite E, !length_app, length_rev; unfold P0, C0; rewrite !length_map, !length_zrange, LR.
    rewrite !Nat2Z.inj_add, Nat2Z.inj_mul, !Z2Nat.id by lia; lia. }
  split; [exact HL|split].
  - apply (local_box_covered w h); try lia.
    intros c Hx Hz; rewrite E; apply in_or_app.
    destruct (Z.eq_dec (cz c) 0) as [Ez|Ez].
    + left; unfold P0; apply in_map_iff; exists (cx c); split; [destruct c; simpl in *; congruence|].
      apply In_zrange; lia.
    + right; apply in_or_app; destruct (Z.eq_dec (cx c) 0) as [Ex|Ex].
      * right; apply in_rev; rewrite rev_involutive; unfold C0; apply in_map_iff.
        exists (cz c); split; [destruct c; simpl in *; congruence|apply In_zrange; lia].
      * left; unfold R; apply in_flat_map; exists (cz c); split; [apply In_zrange; lia|].
        destruct (zigzag_facts w (cz c) Hw) as (_ & _ & _ & _ & _ & I); apply I; lia.
  - assert (HP0 : hd (mkCell 0 0) P0 = mkCell 0 0 /\ last P0 (mkCell 0 0) = mkCell (w - 1) 0).
    { unfold P0; rewrite hd_map_zrange by lia; split; [reflexivity|].
      rewrite (last_map_cell _ _ 0) by (destruct (Z.to_nat w) eqn:Ew; [lia|discriminate]).
      replace (Z.to_nat w) with (S (Z.to_nat (w - 1))) by lia; rewrite last_zrange; f_equal; lia. }
    assert (HC0 : hd (mkCell 0 0) C0 = mkCell 0 1 /\ last C0 (mkCell 0 0) = mkCell 0 (h - 1)).
    { unfold C0; rewrite hd_map_zrange by lia; split; [reflexivity|].
      rewrite (last_map_cell _ _ 0) by (destruct (Z.to_nat (h - 1)) eqn:Eh; [lia|discriminate]).
      replace (Z.to_nat (h - 1)) with (S (Z.to_nat (h - 2))) by lia; rewrite last_zrange; f_equal; lia. }
    destruct HP0 as [HP0 LP0]; destruct HC0 as [HC0 LC0].
    assert (NR : R <> []) by (intros ER0; rewrite ER0 in LR; simpl in LR; nia).
    assert (NC : rev C0 <> []).
    { intros EC; apply (f_equal (@length cell)) in EC; rewrite length_rev in EC; unfold C0 in EC.
      rewrite length_map, length_zrange in EC; simpl in EC; lia. }
    destruct (zigzag_facts w 1 Hw) as (_ & _ & _ & H1 & _ & _).
    destruct (zigzag_facts w (1 + Z.of_nat (Z.to_nat (h - 1)) - 1) Hw) as (_ & _ & _ & _ & L1 & _).
    replace (1 + Z.of_nat (Z.to_nat (h - 1)) - 1) with (h - 1) in L1 by lia.
    rewrite allAdjacent_chain, E, !chain_app.
    assert (NP : P0 <> []) by (unfold P0; destruct (Z.to_nat w) eqn:Ew; [lia|simpl; discriminate]).
    assert (NRC : R ++ rev C0 <> []) by (destruct R; [congruence|simpl; discriminate]).
    rewrite !hd_app_ne by (first [exact NR|exact NP]).
    rewrite !last_app_ne by (first [exact NC|exact NRC]).
    replace (1 + Z.of_nat (Z.to_nat (h - 1)) - 1) with (h - 1) in LastR by lia.
    rewrite HR, LastR; unfold F; rewrite H1, L1, last_rev_hd, HC0, HP0, LP0.
    replace (hd (mkCell 0 0) (rev C0)) with (mkCell 0 (h - 1))
      by (rewrite <- LC0, <- last_rev_hd, rev_involutive; reflexivity).
    change (Z.rem 1 2 =? 1) with true; rewrite rem2_pred_even by lia.
    assert (Chains : chain P0 /\ chain R /\ chain (rev C0))
      by (split; [apply chain_row_x|split; [exact CR|apply chain_rev, chain_col]]).
    destruct Chains as (CP & _ & CC).
    destruct (Z.even h); unfold manhattan; cbn [cx cz].
    + split; [intros _; left; reflexivity|intros _].
      split; [split; [exact CP|split; [split; [exact CR|split; [exact CC|right; right; lia]]|right; right; lia]]|right; lia].
    + split.
      * intros ((_ & (_ & _ & [Hx|[Hx|Hx]]) & _) & _); [congruence|congruence|right; lia].
      * intros [Hf|Hw2]; [discriminate|].
        split; [split; [exact CP|split; [split; [exact CR|split; [exact CC|right; right; lia]]|right; right; lia]]|right; lia].
Qed.

Lemma buildCycleEvenHeight_swap (w h : Z) :
  buildCycleEvenHeight w h = map swapCell (buildCycleEvenWidth h w).
Proof.
  unfold buildCycleEvenHeight, buildCycleEvenWidth.
  rewrite !map_app, !map_map; cbn [map app swapCell cx cz]; f_equal.
  f_equal; f_equal.
  induction (upto 1 w) as [|x xs IH]; [reflexivity|].
  cbn [flat_map]; rewrite map_app, IH; f_equal.
  destruct (Z.rem x 2 =? 1); cbn [map]; rewrite map_map; reflexivity.
Qed.

Lemma forallb_ext_in {A} (f g : A -> bool) (l : list A) :
  (forall a, In a l -> f a = g a) -> forallb f l = forallb g l.
Proof.
  induction l as [|a l IH]; intros H; simpl; [reflexivity|].
  rewrite (H a (or_introl eq_refl)), IH; [reflexivity|intros b Hb; apply H; right; exact Hb].
Qed.

Lemma allAdjacent_map (f : cell -> cell) (l : list cell) :
  (forall a b, manhattan (f a) (f b) = manhattan a b) ->
  allAdjacent (map f l) = allAdjacent l.
Proof.
  intros Hf; unfold allAdjacent; rewrite length_map.
  apply forallb_ext_in; intros i Hi; apply in_seq in Hi.
  assert (Hm : (Nat.modulo (i + 1) (length l) < length l)%nat) by (apply Nat.mod_upper_bound; lia).
  rewrite (nth_indep (map f l) (mkCell 0 0) (f (mkCell 0 0))) by (rewrite length_map; lia).
  rewrite (nth_indep (map f l) (mkCell 0 0) (f (mkCell 0 0))) by (rewrite length_map; lia).
  rewrite !map_nth, Hf; reflexivity.
Qed.

Lemma NoDup_map_inj (f : cell -> cell) (l : list cell) :
  (forall a b, f a = f b -> a = b) -> NoDup l -> NoDup (map f l).
Proof.
  intros Hf; induction 1 as [|a l Ha Hl IH]; simpl; constructor; [|exact IH].
  intros Hin; apply in_map_iff in Hin; destruct Hin as [b [Eb Hb]].
  apply Hf in Eb; subst; contradiction.
Qed.

Lemma hasDuplicate_NoDup (seen l : list cell) :
  NoDup l -> (forall c, In c l -> ~ In c seen) -> hasDuplicate seen l = false.
Proof.
  revert seen; induction l as [|c l IH]; intros seen Hnd Hs; simpl; [reflexivity|].
  inversion Hnd as [|? ? Hc Hl]; subst.
  destruct (mem c seen) eqn:Em; [apply mem_In in Em; exfalso; exact (Hs c (or_introl eq_refl) Em)|].
  apply IH; [exact Hl|]; intros d Hd [<-|Hd']; [contradiction|exact (Hs d (or_intror Hd) Hd')].
Qed.

Lemma rem2_eq0_even (w : Z) : 0 <= w -> (Z.rem w 2 =? 0) = Z.even w.
Proof.
  intros Hw; rewrite Z.rem_mod_nonneg, Zmod_even by lia; destruct (Z.even w); reflexivity.
Qed.

Lemma fromLocal_manhattan (g : GridBounds) (a b : cell) :
  manhattan (fromLocal g a) (fromLocal g b) = manhattan a b.
Proof. unfold manhattan, fromLocal; simpl; f_equal; f_equal; lia. Qed.

Lemma swapCell_manhattan (a b : cell) : manhattan (swapCell a) (swapCell b) = manhattan a b.
Proof. unfold manhattan, swapCell; simpl; lia. Qed.

Lemma cycle_tail (g : GridBounds) (lo : list cell) :
  Z.of_nat (length lo) = width g * height g -> NoDup lo ->
  valid (if negb (Z.of_nat (length lo) =? width g * height g) then mkHC g [] [] false
         else if hasDuplicate [] (map (fromLocal g) lo) then mkHC g [] [] false
         else if negb (allAdjacent (map (fromLocal g) lo)) then mkHC g [] [] false
         else mkHC g (map (fromLocal g) lo) (indexTable 0 (map (fromLocal g) lo)) true)
  = allAdjacent lo.
Proof.
  intros HL HN; rewrite HL, Z.eqb_refl; cbn [negb].
  rewrite hasDuplicate_NoDup.
  - rewrite allAdjacent_map by apply fromLocal_manhattan.
    destruct (allAdjacent lo); reflexivity.
  - apply NoDup_map_inj; [|exact HN].
    intros [ax az] [bx bz]; unfold fromLocal; simpl; intros E; injection E; intros; f_equal; lia.
  - intros c _ [].
Qed.

(** The constructor of [HamiltonianCycle] ends with a valid cycle
    exactly on grids of at least 2 by 2 cells where the width is 2, the
    height is 2, or both are even. *)
Theorem cycle_valid_iff (g : GridBounds) :
  isValid (newHamiltonianCycle g) = true <->
  2 <= width g /\ 2 <= height g /\
  (width g = 2 \/ height g = 2 \/ (Z.even (width g) = true /\ Z.even (height g) = true)).
Proof.
  unfold isValid, newHamiltonianCycle; cbv zeta.
  destruct ((width g <? 2) || (height g <? 2)) eqn:E1.
  { simpl; split; [discriminate|]; apply orb_true_iff in E1; rewrite !Z.ltb_lt in E1; lia. }
  apply orb_false_iff in E1; destruct E1 as [E1 E1']; apply Z.ltb_ge in E1, E1'.
  rewrite !rem2_eq0_even by lia.
  destruct (Z.even (width g)) eqn:Ew, (Z.even (height g)) eqn:Eh; cbn [negb andb].
  4: { split; [discriminate|]; intros (_ & _ & [H|[H|[H _]]]); [| |discriminate].
       - rewrite H in Ew; discriminate.
       - rewrite H in Eh; discriminate. }
  3: { rewrite buildCycleEvenHeight_swap.
       pose proof (buildCycleEvenWidth_facts (height g) (width g) E1' E1) as F; cbv zeta in F.
       destruct F as (L & N & A).
       rewrite cycle_tail.
       - rewrite allAdjacent_map by apply swapCell_manhattan; rewrite A, Ew.
         split; [intros [H|H]; [discriminate|lia]|].
         intros (_ & _ & [H|[H|[H _]]]); [rewrite H in Ew; discriminate|right; exact H|discriminate].
       - rewrite length_map; lia.
       - apply NoDup_map_inj; [|exact N].
         intros [ax az] [bx bz]; unfold swapCell; simpl; intros E; injection E; intros; f_equal; lia. }
  all: pose proof (buildCycleEvenWidth_facts (width g) (height g) E1 E1') as F; cbv zeta in F.
  all: destruct F as (L & N & A); rewrite cycle_tail by assumption; rewrite A, Eh.
  - split; [intros _; lia|intros _; left; reflexivity].
  - split; [intros [H|H]; [discriminate|lia]|].
    intros (_ & _ & [H|[H|[_ H]]]); [right; exact H|rewrite H in Eh; discriminate|discriminate].
Qed.

Lemma findPath_exists (g : GridBounds) (start goal : cell) (obstacles : list cell) :
  (exists path, findPath g start goal obstacles = Some path) <->
  exists p, walk (freeCell g obstacles) start p /\ last p start = goal.
Proof.
  destruct (cell_eq_dec start goal) as [<-|Hne].
  - unfold findPath; rewrite cell_eqb_refl; split; intros _; [exists []; simpl; auto|eauto].
  - pose proof (findPath_loop g start goal obstacles Hne) as H.
    destruct (findPath g start goal obstacles) as [path|].
    + destruct H as (Hw & Hl & _); split; intros _; eauto.
    + split; [intros [x Hx]; discriminate|intros (p & Hw & Hl); exfalso; exact (H p Hw Hl)].
Qed.

Lemma findPath_nonempty (g : GridBounds) (start goal : cell) (obstacles : list cell) :
  (exists c path, findPath g start goal obstacles = Some (c :: path)) <->
  start <> goal /\ exists p, walk (freeCell g obstacles) start p /\ last p start = goal.
Proof.
  destruct (cell_eq_dec start goal) as [<-|Hne].
  - unfold findPath; rewrite cell_eqb_refl; split; [intros (c & path & H); discriminate|].
    intros [H _]; exfalso; apply H; reflexivity.
  - rewrite <- findPath_exists; pose proof (findPath_loop g start goal obstacles Hne) as H.
    destruct (findPath g start goal obstacles) as [[|c path]|].
    + destruct H as (_ & Hl & _); simpl in Hl; congruence.
    + split; [intros _; split; [exact Hne|eauto]|eauto].
    + split; [intros (c & path & E); discriminate|intros (_ & x & E); discriminate].
Qed.

(** [hasEscapeRoute] holds exactly for a snake of fewer than two
    cells, or when some walk of unit steps leads from the head to the tail
    through in-bounds cells outside the inner segments and the bombs. *)
Theorem hasEscapeRoute_iff (ai : AIController) (snakeState : list cell) :
  hasEscapeRoute ai snakeState = true <->
  (length snakeState < 2)%nat \/
  exists p, walk (freeCell (grid ai) (innerSegments snakeState ++ bombPositions ai))
                 (headOf snakeState) p /\ last p (headOf snakeState) = tailOf snakeState.
Proof.
  unfold hasEscapeRoute.
  destruct (length snakeState <? 2)%nat eqn:E.
  - apply Nat.ltb_lt in E; split; [intros _; left; exact E|reflexivity].
  - apply Nat.ltb_ge in E; rewrite <- findPath_exists.
    destruct (findPath _ _ _ _) as [path|]; split.
    + intros _; right; eauto.
    + reflexivity.
    + discriminate.
    + intros [H|[x Hx]]; [lia|discriminate].
Qed.

(** [hasReachableFood] holds exactly when one of the six fruits
    nearest to the head (in the stable distance order) is not the head and
    can be reached by a walk through in-bounds cells outside the body
    without its tail and outside the bombs. *)
Theorem hasReachableFood_iff (ai : AIController) (head : cell) (body : list cell)
    (foodPos : foodArg) :
  hasReachableFood ai head body foodPos = true <->
  exists food, In food (nearestFoods head (normalizeFoodTargets foodPos) 6) /\ food <> head /\
    exists p, walk (freeCell (grid ai) (withoutTail body ++ bombPositions ai)) head p /\
              last p head = food.
Proof.
  unfold hasReachableFood.
  destruct (normalizeFoodTargets foodPos) as [|f fs] eqn:Ef.
  - split; [discriminate|intros (food & H & _); unfold nearestFoods, sortByDistance in H; simpl in H;
      destruct H].
  - rewrite existsb_exists; split.
    + intros (food & Hin & Hf); exists food; split; [exact Hin|].
      assert (Hne : exists c path, findPath (grid ai) head food (withoutTail body ++ bombPositions ai)
                                    = Some (c :: path)).
      { destruct (findPath _ _ _ _) as [[|c path]|]; [discriminate|eauto|discriminate]. }
      apply findPath_nonempty in Hne; destruct Hne as [H1 H2]; split; [congruence|exact H2].
    + intros (food & Hin & Hne & Hw); exists food; split; [exact Hin|].
      destruct (proj2 (findPath_nonempty (grid ai) head food (withoutTail body ++ bombPositions ai))
                  (conj (fun E => Hne (eq_sym E)) Hw)) as (c & path & E).
      rewrite E; reflexivity.
Qed.

Lemma better_true (sc : Q) (best : option candidate) :
  better sc best = true -> forall c0, best = Some c0 -> (score c0 < sc)%Q.
Proof.
  intros H c0 ->; simpl in H; apply negb_true_iff in H.
  apply Qnot_le_lt; intros Hle; apply Qle_bool_iff in Hle; congruence.
Qed.

Lemma better_false (sc : Q) (best : option candidate) :
  better sc best = false -> exists c0, best = Some c0 /\ (sc <= score c0)%Q.
Proof.
  destruct best as [c0|]; simpl; [|discriminate].
  intros H; apply negb_false_iff, Qle_bool_iff in H; eauto.
Qed.

Lemma fallback_fold (ai : AIController) (snake foods : list cell) (moves : list move)
    (b0 : option candidate) :
  let sim := fun m => simulateMove (grid ai) (bombPositions ai) snake (pos m) (isFoodCell (pos m) foods) in
  let res := fold_left (fun best m =>
      match sim m with
      | None => best
      | Some r =>
          let sc := inject_Z (scoreSurvivalState ai (sim_snake r) foods) in
          if better sc best
          then Some (mkCand m sc RMaxSpace (getCycleTailBuffer ai (sim_snake r)) None None)
          else best
      end) moves b0 in
  (res = None <-> b0 = None /\ forall m, In m moves -> sim m = None) /\
  forall c, res = Some c ->
    (b0 = Some c \/
     (In (cmove c) moves /\ reason c = RMaxSpace /\
      exists r, sim (cmove c) = Some r /\ score c = inject_Z (scoreSurvivalState ai (sim_snake r) foods) /\
        survivalBuffer c = getCycleTailBuffer ai (sim_snake r))) /\
    (forall c0, b0 = Some c0 -> (score c0 <= score c)%Q) /\
    (forall m r, In m moves -> sim m = Some r ->
       (inject_Z (scoreSurvivalState ai (sim_snake r) foods) <= score c)%Q).
Proof.
  intros sim; revert b0; induction moves as [|m ms IH]; intros b0; cbn [fold_left].
  - split; [split; [intros H; split; [exact H|intros m []]|intros [H _]; exact H]|].
    intros c ->; split; [left; reflexivity|split; [intros c0 [= ->]; apply Qle_refl|intros m r []]].
  - change (simulateMove (grid ai) (bombPositions ai) snake (pos m) (isFoodCell (pos m) foods))
      with (sim m).
    destruct (sim m) as [r|] eqn:Hs.
    + set (sc := inject_Z (scoreSurvivalState ai (sim_snake r) foods)).
      set (cand := mkCand m sc RMaxSpace (getCycleTailBuffer ai (sim_snake r)) None None).
      destruct (better sc b0) eqn:Hb.
      * destruct (IH (Some cand)) as [IH1 IH2]; split.
        -- split; [intros H; apply IH1 in H; destruct H; discriminate|intros [_ H]; rewrite (H m) in Hs; [discriminate|left; reflexivity]].
        -- intros c Hc; destruct (IH2 c Hc) as (Ho & Hsc & Hms).
           assert (Hcc : (sc <= score c)%Q) by (apply (Hsc cand); reflexivity).
           split; [|split].
           ++ right; destruct Ho as [[= <-]|(Hin & Hr & Hx)].
              ** split; [left; reflexivity|split; [reflexivity|exists r; auto]].
              ** split; [right; exact Hin|split; [exact Hr|exact Hx]].
           ++ intros c0 E; apply Qlt_le_weak, (Qlt_le_trans _ sc); [exact (better_true _ _ Hb c0 E)|exact Hcc].
           ++ intros m' r' [<-|Hm'] Hs'; [rewrite Hs in Hs'; injection Hs' as <-; exact Hcc|exact (Hms m' r' Hm' Hs')].
      * destruct (better_false _ _ Hb) as (c0 & E0 & Hle); subst b0.
        destruct (IH (Some c0)) as [IH1 IH2]; split.
        -- split; [intros H; apply IH1 in H; destruct H; discriminate|intros [H _]; discriminate].
        -- intros c Hc; destruct (IH2 c Hc) as (Ho & Hsc & Hms).
           split; [|split].
           ++ destruct Ho as [E|(Hin & Hx)]; [left; exact E|right; split; [right; exact Hin|exact Hx]].
           ++ exact Hsc.
           ++ intros m' r' [<-|Hm'] Hs'; [|exact (Hms m' r' Hm' Hs')].
              rewrite Hs in Hs'; injection Hs' as <-; apply (Qle_trans _ (score c0)); [exact Hle|apply Hsc; reflexivity].
    + destruct (IH b0) as [IH1 IH2]; split.
      * rewrite IH1; split.
        -- intros [H1 H2]; split; [exact H1|intros m' [<-|Hm']; auto].
        -- intros [H1 H2]; split; [exact H1|intros m' Hm'; apply H2; right; exact Hm'].
      * intros c Hc; destruct (IH2 c Hc) as (Ho & Hsc & Hms); split; [|split; [exact Hsc|]].
        -- destruct Ho as [E|(Hin & Hx)]; [left; exact E|right; split; [right; exact Hin|exact Hx]].
        -- intros m' r' [<-|Hm'] Hs'; [congruence|exact (Hms m' r' Hm' Hs')].
Qed.

Lemma getBestFallbackMove_facts (ai : AIController) (moves : list move) (snake foods : list cell) :
  let sim := fun m => simulateMove (grid ai) (bombPositions ai) snake (pos m) (isFoodCell (pos m) foods) in
  (getBestFallbackMove ai moves snake foods = None <-> forall m, In m moves -> sim m = None) /\
  forall c, getBestFallbackMove ai moves snake foods = Some c ->
    In (cmove c) moves /\ reason c = RMaxSpace /\
    exists r, sim (cmove c) = Some r /\
      score c = inject_Z (scoreSurvivalState ai (sim_snake r) foods) /\
      survivalBuffer c = getCycleTailBuffer ai (sim_snake r) /\
      forall m r', In m moves -> sim m = Some r' ->
        (scoreSurvivalState ai (sim_snake r') foods <= scoreSurvivalState ai (sim_snake r) foods)%Z.
Proof.
  intros sim; destruct (fallback_fold ai snake foods moves None) as [H1 H2]; fold sim in H1, H2.
  unfold getBestFallbackMove; split.
  - rewrite H1; split; [intros [_ H]; exact H|intros H; split; [reflexivity|exact H]].
  - intros c Hc; destruct (H2 c Hc) as ([E|(Hin & Hr & r & Hs & Hsc & Hbuf)] & _ & Hmax); [discriminate|].
    split; [exact Hin|split; [exact Hr|exists r; split; [exact Hs|split; [exact Hsc|split; [exact Hbuf|]]]]].
    intros m r' Hm Hs'; rewrite Zle_Qle, <- Hsc; exact (Hmax m r' Hm Hs').
Qed.

(** [getBestFallbackMove] finds nothing exactly when no move can be
    simulated; otherwise it returns one of the moves, labelled [max-space],
    whose simulation succeeds and whose survival score is the largest among
    the moves that can be simulated. *)
Theorem getBestFallbackMove_spec (ai : AIController) (moves : list move) (snake foods : list cell) :
  let sim := fun m => simulateMove (grid ai) (bombPositions ai) snake (pos m) (isFoodCell (pos m) foods) in
  (getBestFallbackMove ai moves snake foods = None <-> forall m, In m moves -> sim m = None) /\
  forall c, getBestFallbackMove ai moves snake foods = Some c ->
    In (cmove c) moves /\ reason c = RMaxSpace /\
    exists r, sim (cmove c) = Some r /\
      score c = inject_Z (scoreSurvivalState ai (sim_snake r) foods) /\
      survivalBuffer c = getCycleTailBuffer ai (sim_snake r) /\
      forall m r', In m moves -> sim m = Some r' ->
        (scoreSurvivalState ai (sim_snake r') foods <= scoreSurvivalState ai (sim_snake r) foods)%Z.
Proof. exact (getBestFallbackMove_facts ai moves snake foods). Qed.

(** [getEmergencyDirection] returns [null] exactly for an empty body
    or when no move is valid; otherwise it returns the direction of a valid
    move. When some valid move can be simulated it counts an emergency and
    sets the decision label to [emergency:max-space]; otherwise it leaves the
    debug statistics as they were. It changes no other state. *)
Theorem getEmergencyDirection_spec (ai : AIController) (head currentDir : cell)
    (body : list cell) (foodPos : foodArg) :
  let res := getEmergencyDirection ai head currentDir body foodPos in
  let moves := getValidMoves ai head currentDir body in
  let foods := normalizeFoodTargets foodPos in
  let st := debugStats (snd res) in
  let st0 := debugStats ai in
  let simulable := body <> [] /\ exists m r, In m moves /\
       simulateMove (grid ai) (bombPositions ai) body (pos m) (isFoodCell (pos m) foods) = Some r in
  (fst res = None <-> body = [] \/ moves = []) /\
  (forall d, fst res = Some d -> exists m, In m moves /\ d = dir m) /\
  (simulable -> emergencyCount st = emergencyCount st0 + 1 /\ lastDecision st = DEmergency RMaxSpace) /\
  (~ simulable -> st = st0) /\
  mode st = mode st0 /\ cycleAvailable st = cycleAvailable st0 /\
  shortcutsAccepted st = shortcutsAccepted st0 /\ shortcutsRejected st = shortcutsRejected st0 /\
  fallbackCount st = fallbackCount st0 /\ lastSurvivalBuffer st = lastSurvivalBuffer st0 /\
  step st = step st0 /\
  grid (snd res) = grid ai /\ cycle (snd res) = cycle ai /\
  bombPositions (snd res) = bombPositions ai /\ stepCounter (snd res) = stepCounter ai.
Proof.
  cbv zeta; unfold getEmergencyDirection.
  destruct body as [|b0 body'].
  { cbn; split; [tauto|split; [discriminate|split; [intros [H _]; congruence|]]].
    split; [reflexivity|repeat split]. }
  destruct (getValidMoves ai head currentDir (b0 :: body')) as [|m0 ms] eqn:Em.
  { cbn; split; [tauto|split; [discriminate|split; [intros (_ & m & r & [] & _)|]]].
    split; [reflexivity|repeat split]. }
  destruct (getBestFallbackMove_facts ai (m0 :: ms) (b0 :: body') (normalizeFoodTargets foodPos))
    as [Hnone Hsome].
  destruct (getBestFallbackMove ai (m0 :: ms) (b0 :: body') (normalizeFoodTargets foodPos))
    as [f|] eqn:Ef.
  - destruct (Hsome f eq_refl) as (Hin & Hr & r & Hs & _).
    cbn [fst snd]; split; [split; [discriminate|intros [H|H]; discriminate]|].
    split; [intros d [= <-]; exists (cmove f); split; [exact Hin|reflexivity]|].
    split; [intros _; unfold withStats, addEmergency; cbn; rewrite Hr; split; reflexivity|].
    split; [intros H; exfalso; apply H; split; [discriminate|exists (cmove f), r; split; assumption]|].
    unfold withStats, addEmergency; cbn; repeat split.
  - cbn [fst snd]; split; [split; [discriminate|intros [H|H]; discriminate]|].
    split; [intros d [= <-]; exists m0; split; [left; reflexivity|reflexivity]|].
    split; [intros (_ & m & r & Hm & Hs); rewrite (proj1 Hnone eq_refl m Hm) in Hs; discriminate|].
    split; [reflexivity|repeat split].
Qed.

Lemma floodLoop_ge (g : GridBounds) (obstacles : list cell) (fuel : nat) :
  forall visited queue count, count <= floodLoop g obstacles fuel visited queue count.
Proof.
  induction fuel as [|fuel IH]; intros visited queue count; [simpl; lia|].
  destruct queue as [|p rest]; cbn [floodLoop]; [lia|].
  destruct (negb (count <? cellCount g)); [lia|].
  destruct (mem p visited || mem p obstacles || negb (inBounds g p)); [apply IH|].
  specialize (IH (p :: visited) (rest ++ filter (fun n => negb (mem n (p :: visited))) (getNeighbors p))
                 (count + 1)); lia.
Qed.

Lemma floodFill_nonneg (g : GridBounds) (s : cell) (obstacles : list cell) :
  0 <= floodFill g s obstacles.
Proof. apply floodLoop_ge. Qed.


Lemma safest_fold (ai : AIController) (head currentDir : cell) (obstacles : list cell) :
  let ok := safestOk ai head currentDir obstacles in
  let fl := fun d => floodFill (grid ai) (addDir head d) obstacles in
  let Inv := fun (P : cell -> Prop) (acc : cell * Z) =>
    (snd acc = -1 /\ fst acc = currentDir /\ forall d, P d -> ~ ok d) \/
    (P (fst acc) /\ ok (fst acc) /\ snd acc = fl (fst acc) /\ forall d, P d -> ok d -> fl d <= snd acc) in
  let F := fun (acc : cell * Z) m =>
          let '(bestMove, maxSpace) := acc in
          if (cx m =? - cx currentDir) && (cz m =? - cz currentDir) then acc
          else
            let nextPos := addDir head m in
            if negb (inBounds (grid ai) nextPos) then acc
            else if isOccupied nextPos obstacles then acc
            else
              let space := floodFill (grid ai) nextPos obstacles in
              if maxSpace <? space then (m, space) else acc in
  forall l (P : cell -> Prop) acc0, Inv P acc0 ->
  Inv (fun d => P d \/ In d l) (fold_left F l acc0).
Proof.
  intros ok fl Inv F l; induction l as [|x l IH]; intros P acc0 H0; cbn [fold_left].
  - destruct H0 as [(A & B & C)|(A & B & C & D)]; [left|right].
    + split; [exact A|split; [exact B|intros d [Hd|[]]; auto]].
    + split; [left; exact A|split; [exact B|split; [exact C|intros d [Hd|[]]; auto]]].
  - assert (Hext : forall acc, Inv (fun d => P d \/ d = x) acc ->
                   Inv (fun d => (P d \/ In d (x :: l))) (fold_left F l acc)).
    { intros acc Ha.
      pose proof (IH _ acc Ha) as Hr; unfold Inv in Hr |- *.
      destruct Hr as [(A & B & C)|(A & B & C & D)]; [left|right].
      - split; [exact A|split; [exact B|intros d Hd; apply C]].
        destruct Hd as [Hd|[<-|Hd]]; auto.
      - split; [destruct A as [[A|<-]|A]; [left; exact A|right; left; reflexivity|right; right; exact A]|].
        split; [exact B|split; [exact C|intros d Hd; apply D]].
        destruct Hd as [Hd|[<-|Hd]]; auto. }
    apply Hext; clear Hext IH.
    destruct acc0 as [bm ms]; cbn [fst snd] in H0; unfold F.
    assert (Hnot : ~ ok x -> Inv (fun d => P d \/ d = x) (bm, ms)).
    { intros Hx; destruct H0 as [(A & B & C)|(A & B & C & D)]; [left|right]; cbn [fst snd].
      - split; [exact A|split; [exact B|intros d [Hd|<-]; auto]].
      - split; [left; exact A|split; [exact B|split; [exact C|intros d [Hd|<-] Hd'; auto; contradiction]]]. }
    destruct ((cx x =? - cx currentDir) && (cz x =? - cz currentDir)) eqn:E1.
    { apply Hnot; intros (Hr & _); apply Hr; apply andb_true_iff in E1; rewrite !Z.eqb_eq in E1; exact E1. }
    destruct (inBounds (grid ai) (addDir head x)) eqn:E2; cbn [negb].
    2: { apply Hnot; intros (_ & Hb & _); congruence. }
    destruct (isOccupied (addDir head x) obstacles) eqn:E3.
    { apply Hnot; intros (_ & _ & Ho); congruence. }
    assert (Hok : ok x).
    { split; [|split; assumption].
      intros [A B]; rewrite A, B, !Z.eqb_refl in E1; discriminate. }
    pose proof (floodFill_nonneg (grid ai) (addDir head x) obstacles) as Hpos.
    destruct (ms <? floodFill (grid ai) (addDir head x) obstacles) eqn:E4.
    + apply Z.ltb_lt in E4; right; cbn [fst snd].
      split; [right; reflexivity|split; [exact Hok|split; [reflexivity|]]].
      intros d [Hd|<-] Hd'; [|unfold fl; lia].
      destruct H0 as [(A & B & C)|(A & B & C & D)]; [exfalso; exact (C d Hd Hd')|].
      specialize (D d Hd Hd'); cbn [snd] in D; unfold fl in *; lia.
    + apply Z.ltb_ge in E4.
      destruct H0 as [(A & B & C)|(A & B & C & D)]; cbn [fst snd] in *; [lia|right].
      split; [left; exact A|split; [exact B|split; [exact C|]]].
      intros d [Hd|<-] Hd'; [exact (D d Hd Hd')|unfold fl; cbn [snd]; lia].
Qed.

(** [getSafestMove] keeps [currentDir] when no direction is
    allowed (the exact reverse of [currentDir], a cell out of bounds or an
    obstacle are excluded); otherwise it returns an allowed direction
    whose flood-fill count is the largest among the allowed ones. *)
Theorem getSafestMove_spec (ai : AIController) (head currentDir : cell) (obstacles : list cell) :
  let ok := fun d => In d dirs /\ safestOk ai head currentDir obstacles d in
  let best := getSafestMove ai head currentDir obstacles in
  ((forall d, ~ ok d) /\ best = currentDir) \/
  (ok best /\ forall d, ok d ->
     floodFill (grid ai) (addDir head d) obstacles <= floodFill (grid ai) (addDir head best) obstacles).
Proof.
  intros ok best.
  pose proof (safest_fold ai head currentDir obstacles dirs (fun _ => False) (currentDir, -1)) as H.
  cbv zeta in H; unfold best, getSafestMove.
  destruct H as [(A & B & C)|(A & B & C & D)].
  - left; cbn [fst snd]; split; [reflexivity|split; [reflexivity|intros d []]].
  - left; split; [intros d [Hd Hok]; exact (C d (or_intror Hd) Hok)|exact B].
  - right; split; [split; [destruct A as [[]|A]; exact A|exact B]|].
    intros d [Hd Hok]; rewrite <- C; exact (D d (or_intror Hd) Hok).
Qed.

Lemma getBestShortcutMove_rejected (ai : AIController) (head : cell) (moves : list move)
    (snake foods : list cell) :
  0 <= snd (getBestShortcutMove ai head moves snake foods).
Proof.
  unfold getBestShortcutMove; destruct foods; [simpl; lia|].
  destruct (negb _); [simpl; lia|].
  apply (fold_inv (fun acc => 0 <= snd acc)); [simpl; lia|].
  intros [b r] t _ Hb; simpl in Hb.
  repeat match goal with
  | |- 0 <= snd (if ?b then _ else _) => destruct b
  | |- 0 <= snd (match ?x with _ => _ end) => destruct x eqn:?
  end; simpl; lia.
Qed.

(** [getNextDirection] advances [stepCounter] by one and records it in
    [debugStats.step]; it keeps the grid, the cycle, the bombs,
    [cycleAvailable] and [emergencyCount], and never lowers
    [shortcutsRejected]. For an empty body nothing else changes; otherwise
    [shortcutsAccepted] grows by one exactly when the new label is a
    direct-food, early-chase or shortcut label, [fallbackCount] by one
    exactly when it is a fallback label, and the mode matches the label. *)
Theorem getNextDirection_counters (ai : AIController) (head currentDir : cell)
    (body : list cell) (foodPos : foodArg) :
  let ai' := snd (getNextDirection ai head currentDir body foodPos) in
  let s := debugStats ai in
  let s' := debugStats ai' in
  stepCounter ai' = stepCounter ai + 1 /\ step s' = stepCounter ai + 1 /\
  grid ai' = grid ai /\ cycle ai' = cycle ai /\ bombPositions ai' = bombPositions ai /\
  cycleAvailable s' = cycleAvailable s /\ emergencyCount s' = emergencyCount s /\
  shortcutsRejected s <= shortcutsRejected s' /\
  ((body = [] /\ shortcutsAccepted s' = shortcutsAccepted s /\ fallbackCount s' = fallbackCount s /\
    shortcutsRejected s' = shortcutsRejected s /\
    lastDecision s' = lastDecision s /\ mode s' = mode s) \/
   (body <> [] /\
    shortcutsAccepted s' = shortcutsAccepted s + (if isAcceptedLabel (lastDecision s') then 1 else 0) /\
    fallbackCount s' = fallbackCount s + (if isFallbackLabel (lastDecision s') then 1 else 0) /\
    (forall m, labelMode (lastDecision s') = Some m -> mode s' = m))).
Proof.
  cbv zeta; unfold getNextDirection.
  destruct body as [|b0 body'].
  { cbn; repeat split; try lia; left; repeat split; reflexivity. }
  set (ai1 := mkAI (grid ai) (cycle ai) (bombPositions ai) (stepCounter ai + 1)
                   (setStep (debugStats ai) (stepCounter ai + 1))).
  set (foods := normalizeFoodTargets foodPos).
  destruct (getValidMoves ai1 head currentDir (b0 :: body')) as [|m0 ms] eqn:Em.
  { cbn; repeat split; try lia; right; repeat split; [discriminate|lia|lia|intros m Hm; inversion Hm]. }
  set (moves := m0 :: ms).
  destruct (getDirectSafeFoodMove ai1 moves (b0 :: body') foods) as [d|].
  { cbn; repeat split; try lia; right; repeat split; [discriminate|intros m Hm; inversion Hm; reflexivity]. }
  destruct (getEarlyGameFoodChaseMove ai1 head moves (b0 :: body') foods) as [e|].
  { cbn; repeat split; try lia; right; repeat split; [discriminate|intros m Hm; inversion Hm; reflexivity]. }
  pose proof (getBestShortcutMove_rejected ai1 head moves (b0 :: body') foods) as Hrej.
  destruct (isValid (cycle ai1)).
  - destruct (getBestShortcutMove ai1 head moves (b0 :: body') foods) as [sm rej]; cbn [snd] in Hrej.
    destruct (getCycleBaselineMove ai1 head moves (b0 :: body') foods) as [cm|];
      destruct sm as [sc|].
    all: try destruct (shouldPrioritizeShortcut _ _ _ _).
    all: try destruct (Qle_bool _ _).
    all: try destruct (getBestFallbackMove ai1 moves (b0 :: body') foods) as [f|].
    all: cbn; repeat split; try lia; right; repeat split; try lia;
      [discriminate|intros m Hm; inversion Hm; reflexivity].
  - destruct (getBestFallbackMove ai1 moves (b0 :: body') foods) as [f|].
    all: cbn; repeat split; try lia; right; repeat split; try lia;
      [discriminate|intros m Hm; inversion Hm; reflexivity].
Qed.

Lemma fold_left_ext_in {A B : Type} (f g : B -> A -> B) (l : list A) (b0 : B) :
  (forall b x, In x l -> f b x = g b x) -> fold_left f l b0 = fold_left g l b0.
Proof.
  revert b0; induction l as [|x l IH]; intros b0 H; [reflexivity|].
  simpl; rewrite H by (left; reflexivity); apply IH; intros b y Hy; apply H; right; exact Hy.
Qed.

(** The shape shared by the policies that keep the best-scoring entry:
    [val x] is the score of [x] when it qualifies. *)
Lemma fold_best {A : Type} (val : A -> option Z) (mk : A -> Q -> candidate)
    (Hmk : forall x s, score (mk x s) = s) (l : list A) (b0 : option candidate) :
  let F := fun best x => match val x with
                         | None => best
                         | Some v => if better (inject_Z v) best then Some (mk x (inject_Z v)) else best
                         end in
  (fold_left F l b0 = None <-> b0 = None /\ forall x, In x l -> val x = None) /\
  forall c, fold_left F l b0 = Some c ->
    (b0 = Some c \/ exists x v, In x l /\ val x = Some v /\ c = mk x (inject_Z v)) /\
    (forall c0, b0 = Some c0 -> (score c0 <= score c)%Q) /\
    (forall x v, In x l -> val x = Some v -> (inject_Z v <= score c)%Q).
Proof.
  intros F; revert b0; induction l as [|x l IH]; intros b0; cbn [fold_left].
  - split; [split; [intros H; split; [exact H|intros x []]|intros [H _]; exact H]|].
    intros c ->; split; [left; reflexivity|split; [intros c0 [= ->]; apply Qle_refl|intros x v []]].
  - change (F b0 x) with (match val x with
                          | None => b0
                          | Some v => if better (inject_Z v) b0 then Some (mk x (inject_Z v)) else b0
                          end).
    destruct (val x) as [v|] eqn:Hv.
    + destruct (better (inject_Z v) b0) eqn:Hb.
      * destruct (IH (Some (mk x (inject_Z v)))) as [IH1 IH2]; split.
        -- split; [intros H; apply IH1 in H; destruct H; discriminate|intros [_ H]; rewrite (H x) in Hv; [discriminate|left; reflexivity]].
        -- intros c Hc; destruct (IH2 c Hc) as (Ho & Hsc & Hms).
           assert (Hcc : (inject_Z v <= score c)%Q) by (rewrite <- (Hmk x (inject_Z v)); apply Hsc; reflexivity).
           split; [|split].
           ++ right; destruct Ho as [[= Ec]|(y & w & Hy & Hw & E)].
              ** subst c; exists x, v; split; [left; reflexivity|split; [exact Hv|reflexivity]].
              ** exists y, w; split; [right; exact Hy|split; [exact Hw|exact E]].
           ++ intros c0 E; apply Qlt_le_weak, (Qlt_le_trans _ (inject_Z v)); [exact (better_true _ _ Hb c0 E)|exact Hcc].
           ++ intros y w [<-|Hy] Hw; [rewrite Hv in Hw; injection Hw as <-; exact Hcc|exact (Hms y w Hy Hw)].
      * destruct (better_false _ _ Hb) as (c0 & E0 & Hle); subst b0.
        destruct (IH (Some c0)) as [IH1 IH2]; split.
        -- split; [intros H; apply IH1 in H; destruct H; discriminate|intros [H _]; discriminate].
        -- intros c Hc; destruct (IH2 c Hc) as (Ho & Hsc & Hms).
           split; [|split].
           ++ destruct Ho as [E|(y & w & Hy & Hw & E)]; [left; exact E|right; exists y, w; split; [right; exact Hy|split; assumption]].
           ++ exact Hsc.
           ++ intros y w [<-|Hy] Hw; [|exact (Hms y w Hy Hw)].
              rewrite Hv in Hw; injection Hw as <-; apply (Qle_trans _ (score c0)); [exact Hle|apply Hsc; reflexivity].
    + destruct (IH b0) as [IH1 IH2]; split.
      * rewrite IH1; split.
        -- intros [H1 H2]; split; [exact H1|intros y [<-|Hy]; auto].
        -- intros [H1 H2]; split; [exact H1|intros y Hy; apply H2; right; exact Hy].
      * intros c Hc; destruct (IH2 c Hc) as (Ho & Hsc & Hms); split; [|split; [exact Hsc|]].
        -- destruct Ho as [E|(y & w & Hy & Hw & E)]; [left; exact E|right; exists y, w; split; [right; exact Hy|split; assumption]].
        -- intros y w [<-|Hy] Hw; [congruence|exact (Hms y w Hy Hw)].
Qed.

(** [getDirectSafeFoodMove] finds nothing exactly when there is no fruit or
    no move qualifies (onto a fruit, growing succeeds, cycle order kept,
    escape route left); otherwise it returns a qualifying move, with the
    largest score [scoreSurvivalState + 420] among the qualifying ones. *)
Theorem getDirectSafeFoodMove_spec (ai : AIController) (moves : list move) (snake foods : list cell) :
  (getDirectSafeFoodMove ai moves snake foods = None <->
     foods = [] \/ forall m, In m moves -> directFoodValue ai snake foods m = None) /\
  forall c, getDirectSafeFoodMove ai moves snake foods = Some c ->
    In (cmove c) moves /\ isFoodCell (pos (cmove c)) foods = true /\ reason c = RCell (pos (cmove c)) /\
    exists r, simulateMove (grid ai) (bombPositions ai) snake (pos (cmove c)) true = Some r /\
      validateCycleOrder ai (sim_snake r) true = true /\ hasEscapeRoute ai (sim_snake r) = true /\
      survivalBuffer c = getCycleTailBuffer ai (sim_snake r) /\
      score c = inject_Z (scoreSurvivalState ai (sim_snake r) foods + 420) /\
      forall m v, In m moves -> directFoodValue ai snake foods m = Some v ->
        v <= scoreSurvivalState ai (sim_snake r) foods + 420.
Proof.
  assert (E : foods <> [] -> getDirectSafeFoodMove ai moves snake foods =
            fold_left (fun best m => match directFoodValue ai snake foods m with
                         | None => best
                         | Some v => if better (inject_Z v) best
                                     then Some (directFoodCand ai snake m (inject_Z v)) else best
                         end) moves None).
  { intros Hf; unfold getDirectSafeFoodMove; destruct foods as [|f fs]; [congruence|].
    apply fold_left_ext_in; intros b m _; unfold directFoodValue, directFoodCand.
    destruct (negb (isFoodCell (pos m) (f :: fs))); [reflexivity|].
    destruct (simulateMove _ _ _ _ _) as [r|]; [|reflexivity].
    destruct (negb (validateCycleOrder _ _ _)); [reflexivity|].
    destruct (negb (hasEscapeRoute _ _)); reflexivity. }
  destruct foods as [|f fs] eqn:Ef.
  { split; [split; [intros _; left; reflexivity|reflexivity]|intros c H; discriminate]. }
  rewrite <- Ef in E |- *; rewrite E by (rewrite Ef; discriminate).
  destruct (fold_best (directFoodValue ai snake foods) (directFoodCand ai snake) (fun _ _ => eq_refl)
              moves None) as [H1 H2]; cbv zeta in H1, H2.
  split.
  - rewrite H1; split; [intros [_ H]; right; exact H|intros [H|H]; [rewrite Ef in H; discriminate|split; [reflexivity|exact H]]].
  - intros c Hc; destruct (H2 c Hc) as ([Hn|(m & v & Hm & Hv & ->)] & _ & Hmax); [discriminate|].
    unfold directFoodValue in Hv.
    destruct (isFoodCell (pos m) foods) eqn:Hfood; cbn [negb] in Hv; [|discriminate].
    destruct (simulateMove _ _ _ _ _) as [r|] eqn:Hs; [|discriminate].
    destruct (validateCycleOrder ai (sim_snake r) true) eqn:Hvc; cbn [negb] in Hv; [|discriminate].
    destruct (hasEscapeRoute ai (sim_snake r)) eqn:Hes; cbn [negb] in Hv; [|discriminate].
    injection Hv as <-.
    cbn [cmove reason score survivalBuffer directFoodCand].
    split; [exact Hm|split; [exact Hfood|split; [reflexivity|exists r]]].
    repeat split; try assumption; [rewrite Hs; reflexivity|].
    intros m' v' Hm' Hv'; rewrite Zle_Qle; exact (Hmax m' v' Hm' Hv').
Qed.

Lemma getCycleTailBuffer_cases (ai : AIController) (g : GridBounds) (s : list cell) :
  cycle ai = newHamiltonianCycle g ->
  ((isValid (cycle ai) = false \/ (length s < 2)%nat \/ inBounds g (headOf s) = false \/
    inBounds g (tailOf s) = false) -> getCycleTailBuffer ai s = 0) /\
  (isValid (cycle ai) = true -> (2 <= length s)%nat -> inBounds g (headOf s) = true ->
   inBounds g (tailOf s) = true ->
   let n := Z.of_nat (length (order (cycle ai))) in
   n = cellCount g /\
   getCycleTailBuffer ai s = (indexOf (cycle ai) (tailOf s) - indexOf (cycle ai) (headOf s)) mod n /\
   (exists kh kt, (kh < length (order (cycle ai)))%nat /\ (kt < length (order (cycle ai)))%nat /\
      indexOf (cycle ai) (headOf s) = Z.of_nat kh /\ indexOf (cycle ai) (tailOf s) = Z.of_nat kt /\
      nth kt (order (cycle ai)) (mkCell 0 0) = tailOf s)).
Proof.
  intros Hc; rewrite Hc; split.
  - intros H; unfold getCycleTailBuffer; rewrite Hc.
    destruct (isValid (newHamiltonianCycle g)) eqn:Hv; [|reflexivity].
    destruct (length s <? 2)%nat eqn:Hl; [reflexivity|]; apply Nat.ltb_ge in Hl.
    cbn [negb orb].
    destruct H as [H|[H|H]]; [discriminate|lia|].
    destruct H as [H|H].
    + rewrite (indexOf_outside g (headOf s)) by auto; reflexivity.
    + rewrite (indexOf_outside g (tailOf s)) by auto.
      destruct (indexOf (newHamiltonianCycle g) (headOf s) <? 0); reflexivity.
  - intros Hv Hl Hh Ht n.
    destruct (cycle_valid_facts g Hv) as (_ & _ & Hn & _).
    destruct (indexOf_inBounds g _ Hv Hh) as (kh & Hkh & _ & Eh).
    destruct (indexOf_inBounds g _ Hv Ht) as (kt & Hkt & Nt & Et).
    split; [exact Hn|split; [|exists kh, kt; auto]].
    unfold getCycleTailBuffer; rewrite Hc, Hv.
    destruct (length s <? 2)%nat eqn:Hl'; [apply Nat.ltb_lt in Hl'; lia|].
    cbn [negb orb]; rewrite Eh, Et.
    destruct (Z.of_nat kh <? 0) eqn:E1; [apply Z.ltb_lt in E1; lia|].
    destruct (Z.of_nat kt <? 0) eqn:E2; [apply Z.ltb_lt in E2; lia|]; cbn [orb].
    unfold cycleDist; rewrite (distanceForward_valid g) by (auto; lia); reflexivity.
Qed.

(** The survival buffer of a snake is the number of [getNextCell] steps
    that lead along the cycle from its head to its tail: a value in
    [[0, cellCount)]. It is 0 on an invalid cycle, for a snake of fewer than
    two cells, or when the head or the tail is off the grid. *)
Theorem getCycleTailBuffer_steps (ai : AIController) (g : GridBounds) (s : list cell) :
  cycle ai = newHamiltonianCycle g ->
  let step := fun o => match o with Some c => getNextCell (cycle ai) c | None => None end in
  ((isValid (cycle ai) = false \/ (length s < 2)%nat \/ inBounds g (headOf s) = false \/
    inBounds g (tailOf s) = false) -> getCycleTailBuffer ai s = 0) /\
  (isValid (cycle ai) = true -> (2 <= length s)%nat -> inBounds g (headOf s) = true ->
   inBounds g (tailOf s) = true ->
   0 <= getCycleTailBuffer ai s < cellCount g /\
   Nat.iter (Z.to_nat (getCycleTailBuffer ai s)) step (Some (headOf s)) = Some (tailOf s)).
Proof.
  intros Hc step; destruct (getCycleTailBuffer_cases ai g s Hc) as [H1 H2]; split; [exact H1|].
  intros Hv Hl Hh Ht; destruct (H2 Hv Hl Hh Ht) as (Hn & Hb & kh & kt & Hkh & Hkt & Eh & Et & Nt).
  rewrite Hc in *; cbv zeta in *.
  set (n := Z.of_nat (length (order (newHamiltonianCycle g)))) in *.
  assert (Hpos : 0 < n) by (unfold n; lia).
  rewrite Hb; split; [rewrite <- Hn; apply Z.mod_pos_bound; exact Hpos|].
  unfold step; rewrite Hc, (iter_getNextCell g _ _ Hv Hh).
  rewrite Z2Nat.id by (apply Z.mod_pos_bound; exact Hpos).
  rewrite (getCell_mod_eq g _ (Z.of_nat kt) Hv).
  - destruct (getCell_nth g (Z.of_nat kt) Hv) as [_ E]; fold n in E; rewrite E.
    rewrite Z.mod_small by (unfold n; lia); rewrite Nat2Z.id, Nt; reflexivity.
  - fold n; rewrite Eh, Et, Zplus_mod_idemp_r; f_equal; lia.
Qed.

Lemma getCycleTailBuffer_witness :
  cycle (newAIController (mkGrid 4 4 0 0)) = newHamiltonianCycle (mkGrid 4 4 0 0) /\
  getCycleTailBuffer (newAIController (mkGrid 4 4 0 0)) [mkCell 1 0; mkCell 0 0; mkCell 0 1] = 14 /\
  Nat.iter 14 (fun o => match o with
                        | Some c => getNextCell (cycle (newAIController (mkGrid 4 4 0 0))) c
                        | None => None end) (Some (mkCell 1 0)) = Some (mkCell 0 1).
Proof.
  split; [reflexivity|split; [vm_compute; reflexivity|]].
  refine (proj2 (proj2 (getCycleTailBuffer_steps (newAIController (mkGrid 4 4 0 0)) (mkGrid 4 4 0 0)
            [mkCell 1 0; mkCell 0 0; mkCell 0 1] eq_refl) _ _ _ _));
    [vm_compute; reflexivity|simpl; lia|vm_compute; reflexivity|vm_compute; reflexivity].
Defined.

Lemma getCycleTailBuffer_nonneg (ai : AIController) (g : GridBounds) (s : list cell) :
  cycle ai = newHamiltonianCycle g -> 0 <= getCycleTailBuffer ai s.
Proof.
  intros Hc; destruct (getCycleTailBuffer_cases ai g s Hc) as [H1 H2].
  destruct (isValid (cycle ai)) eqn:Hv; [|rewrite H1 by auto; lia].
  destruct (length s <? 2)%nat eqn:Hl; [apply Nat.ltb_lt in Hl; rewrite H1 by auto; lia|].
  apply Nat.ltb_ge in Hl.
  destruct (inBounds g (headOf s)) eqn:Hh; [|rewrite H1 by auto; lia].
  destruct (inBounds g (tailOf s)) eqn:Ht; [|rewrite H1 by auto; lia].
  destruct (H2 eq_refl Hl eq_refl eq_refl) as (Hn & Hb & _); rewrite Hb.
  apply Z.mod_pos_bound; rewrite Hc in Hn |- *; rewrite Hn.
  destruct (cycle_valid_facts g) as (Hw & Hh' & _); [rewrite <- Hc; exact Hv|].
  unfold cellCount; nia.
Qed.

Lemma findMove_spec (moves : list move) (c : cell) :
  (forall m, findMove moves c = Some m -> In m moves /\ pos m = c) /\
  (findMove moves c = None -> forall m, In m moves -> pos m <> c).
Proof.
  unfold findMove; split.
  - intros m H; destruct (find_some _ _ H) as [Hin E]; apply cell_eqb_spec in E; auto.
  - intros H m Hm E; pose proof (find_none _ _ H m Hm) as F; cbv beta in F.
    rewrite E, cell_eqb_refl in F; discriminate.
Qed.

(** [getCycleBaselineMove] proposes only the move onto the cycle successor
    of the head, when it is among the moves and its simulation succeeds;
    the proposal is labelled [successor], carries the survival buffer of
    the simulated snake and scores at least 380. It finds nothing exactly
    when the head has no successor, no move leads to it, or the simulation
    fails. *)
Theorem getCycleBaselineMove_spec (ai : AIController) (g : GridBounds) (head : cell)
    (moves : list move) (snake foods : list cell) :
  cycle ai = newHamiltonianCycle g ->
  let sim := fun p => simulateMove (grid ai) (bombPositions ai) snake p (isFoodCell p foods) in
  (forall c, getCycleBaselineMove ai head moves snake foods = Some c ->
     getNextCell (cycle ai) head = Some (pos (cmove c)) /\ In (cmove c) moves /\
     reason c = RSuccessor /\
     exists r, sim (pos (cmove c)) = Some r /\ survivalBuffer c = getCycleTailBuffer ai (sim_snake r) /\
       0 <= survivalBuffer c /\ (380 <= score c)%Q) /\
  (getCycleBaselineMove ai head moves snake foods = None <->
     forall q m, getNextCell (cycle ai) head = Some q -> In m moves -> pos m = q -> sim q = None).
Proof.
  intros Hc sim; unfold getCycleBaselineMove.
  destruct (getNextCell (cycle ai) head) as [q|] eqn:Hq.
  2: { split; [intros c H; discriminate|split; [intros _ q m H; discriminate|reflexivity]]. }
  destruct (findMove_spec moves q) as [F1 F2].
  destruct (findMove moves q) as [m|] eqn:Hm.
  2: { split; [intros c H; discriminate|split; [intros _ q' m' [= <-] Hm' E; exfalso; exact (F2 eq_refl m' Hm' E)|reflexivity]]. }
  destruct (F1 m eq_refl) as [Hin Hp].
  destruct (simulateMove (grid ai) (bombPositions ai) snake (pos m) (isFoodCell (pos m) foods)) as [r|] eqn:Hs.
  - pose proof (getCycleTailBuffer_nonneg ai g (sim_snake r) Hc) as Hb.
    split.
    + intros c [= <-]; cbn [cmove reason score survivalBuffer].
      split; [rewrite Hp; reflexivity|split; [exact Hin|split; [reflexivity|exists r]]].
      split; [exact Hs|split; [reflexivity|split; [exact Hb|]]].
      assert (H0 : (0 <= inject_Z (getCycleTailBuffer ai (sim_snake r)) * (6 # 5))%Q)
        by (apply Qmult_le_0_compat; [change 0%Q with (inject_Z 0); rewrite <- Zle_Qle; exact Hb|discriminate]).
      apply (Qle_trans _ (inject_Z 380 + 0)); [discriminate|].
      apply Qplus_le_compat; [apply Qle_refl|exact H0].
    + split; [discriminate|intros H; exfalso].
      pose proof (H q m eq_refl Hin Hp) as H'; unfold sim in H'; rewrite <- Hp in H'; congruence.
  - split; [intros c H; discriminate|split; [intros _ q' m' [= <-] Hm' E|reflexivity]].
    unfold sim; rewrite <- Hp; exact Hs.
Qed.

Lemma getCycleBaselineMove_witness :
  cycle (newAIController (mkGrid 4 4 0 0)) = newHamiltonianCycle (mkGrid 4 4 0 0) /\
  getCycleBaselineMove (newAIController (mkGrid 4 4 0 0)) (mkCell 1 0)
    (getValidMoves (newAIController (mkGrid 4 4 0 0)) (mkCell 1 0) (mkCell 1 0) [mkCell 1 0; mkCell 0 0])
    [mkCell 1 0; mkCell 0 0] [] <> None /\
  getNextCell (cycle (newAIController (mkGrid 4 4 0 0))) (mkCell 1 0) = Some (mkCell 2 0).
Proof.
  split; [reflexivity|split].
  - intros H.
    pose proof (proj1 (proj2 (getCycleBaselineMove_spec (newAIController (mkGrid 4 4 0 0)) (mkGrid 4 4 0 0)
      (mkCell 1 0) (getValidMoves (newAIController (mkGrid 4 4 0 0)) (mkCell 1 0) (mkCell 1 0)
        [mkCell 1 0; mkCell 0 0]) [mkCell 1 0; mkCell 0 0] [] eq_refl)) H
      (mkCell 2 0) (mkMove (mkCell 1 0) (mkCell 2 0)) ltac:(vm_compute; reflexivity)
      ltac:(vm_compute; auto) eq_refl) as H'.
    vm_compute in H'; discriminate.
  - vm_compute; reflexivity.
Defined.

Lemma fold_min_spec (p : cell) (rest : list cell) (b : Z) :
  let r := fold_left (fun best food => if manhattan p food <? best then manhattan p food else best) rest b in
  (r = b \/ exists f, In f rest /\ r = manhattan p f) /\ r <= b /\
  forall f, In f rest -> r <= manhattan p f.
Proof.
  revert b; induction rest as [|f rest IH]; intros b; cbn [fold_left].
  - split; [left; reflexivity|split; [lia|intros f []]].
  - destruct (manhattan p f <? b) eqn:E; [apply Z.ltb_lt in E|apply Z.ltb_ge in E].
    + destruct (IH (manhattan p f)) as ([E1|(f' & Hf' & E1)] & Hle & Hall).
      * split; [right; exists f; split; [left; reflexivity|exact E1]|split; [lia|]].
        intros f' [<-|Hf']; [lia|exact (Hall f' Hf')].
      * split; [right; exists f'; split; [right; exact Hf'|exact E1]|split; [lia|]].
        intros g' [<-|Hg']; [lia|exact (Hall g' Hg')].
    + destruct (IH b) as ([E1|(f' & Hf' & E1)] & Hle & Hall).
      * split; [left; exact E1|split; [lia|]].
        intros f' [<-|Hf']; [lia|exact (Hall f' Hf')].
      * split; [right; exists f'; split; [right; exact Hf'|exact E1]|split; [lia|]].
        intros g' [<-|Hg']; [lia|exact (Hall g' Hg')].
Qed.

(** [getClosestFoodDistance] is 0 without fruit; otherwise it is the
    Manhattan distance from [pos] to some fruit, and no fruit is closer. *)
Theorem getClosestFoodDistance_spec (p : cell) (foods : list cell) :
  (foods = [] -> getClosestFoodDistance p foods = 0) /\
  (foods <> [] -> exists f, In f foods /\ getClosestFoodDistance p foods = manhattan p f /\
     forall f', In f' foods -> getClosestFoodDistance p foods <= manhattan p f').
Proof.
  split; [intros ->; reflexivity|intros Hne].
  destruct foods as [|f rest]; [congruence|]; unfold getClosestFoodDistance.
  destruct (fold_min_spec p rest (manhattan p f)) as ([E|(f' & Hf' & E)] & Hle & Hall).
  - exists f; split; [left; reflexivity|split; [exact E|]].
    intros g [<-|Hg]; [lia|exact (Hall g Hg)].
  - exists f'; split; [right; exact Hf'|split; [exact E|]].
    intros g [<-|Hg]; [lia|exact (Hall g Hg)].
Qed.

Lemma walk_last_ok (ok : cell -> Prop) (a : cell) (p : list cell) :
  walk ok a p -> last p a = a \/ ok (last p a).
Proof.
  revert a; induction p as [|c p IH]; intros a Hw; [left; reflexivity|].
  destruct Hw as (_ & Hc & Hw); rewrite last_cons_default.
  destruct (IH c Hw) as [->|H]; right; assumption.
Qed.

Lemma ffReach_free (g : GridBounds) (obstacles : list cell) (s c : cell) :
  ffReach g obstacles s c -> freeCell g obstacles c.
Proof.
  intros (Hs & p & Hw & <-); destruct (walk_last_ok _ _ _ Hw) as [->|H]; assumption.
Qed.

Lemma ffReach_step (g : GridBounds) (obstacles : list cell) (s v n : cell) :
  ffReach g obstacles s v -> manhattan v n = 1 -> freeCell g obstacles n ->
  ffReach g obstacles s n.
Proof.
  intros (Hs & p & Hw & Hl) Hm Hn; split; [exact Hs|].
  exists (p ++ [n]); split.
  - apply walk_app; split; [exact Hw|]; rewrite Hl; simpl; auto.
  - rewrite last_app; reflexivity.
Qed.

Lemma closed_free_covers (g : GridBounds) (obstacles : list cell) (s : cell) (V : list cell) :
  (freeCell g obstacles s -> In s V) ->
  (forall v n, In v V -> In n (getNeighbors v) -> freeCell g obstacles n -> In n V) ->
  forall c, ffReach g obstacles s c -> In c V.
Proof.
  intros Hs Hcl c (Hf & p & Hw & <-).
  pose proof (Hs Hf) as HsV; clear Hs Hf.
  revert s HsV Hw; induction p as [|a p IH]; intros s HsV Hw; [exact HsV|].
  destruct Hw as (Hm & Ha & Hw); rewrite last_cons_default.
  apply IH; [|exact Hw].
  apply (Hcl s a HsV); [apply In_getNeighbors; exact Hm|exact Ha].
Qed.

Lemma floodLoop_obstacles (g : GridBounds) (obstacles : list cell) (s : cell) :
  forall fuel visited queue count,
  ffo_inv g obstacles s visited queue count ->
  4 * (cellCount g - count) + Z.of_nat (length queue) <= Z.of_nat fuel ->
  exists V, NoDup V /\ (forall c, In c V <-> ffReach g obstacles s c) /\
            floodLoop g obstacles fuel visited queue count = Z.of_nat (length V).
Proof.
  assert (Hfull : forall visited, NoDup visited ->
            (forall v, In v visited -> ffReach g obstacles s v) ->
            cellCount g <= Z.of_nat (length visited) ->
            forall c, ffReach g obstacles s c -> In c visited).
  { intros visited Hnd Hin Hc c Hr.
    assert (Hb : inBounds g c = true) by apply (ffReach_free _ _ _ _ Hr).
    destruct (inBounds_dims g c Hb) as [Hw Hh].
    assert (Hinb : forall v, In v visited -> inBounds g v = true)
      by (intros v Hv; apply (ffReach_free _ _ _ _ (Hin v Hv))).
    pose proof (nodup_inbounds_le g visited ltac:(lia) ltac:(lia) Hnd Hinb).
    apply (nodup_full_covers g visited ltac:(lia) ltac:(lia) Hnd Hinb); [lia|exact Hb]. }
  induction fuel as [|fuel IH]; intros visited queue count Hinv Hm;
    destruct Hinv as (Hnd & Hcnt & Hin & Hq & Hcl & Hst).
  - exists visited; split; [exact Hnd|split; [|simpl; exact Hcnt]].
    intros c; split; [apply Hin|apply Hfull; [exact Hnd|exact Hin|]].
    pose proof (Nat2Z.is_nonneg (length queue)); cbn [Z.of_nat] in Hm; lia.
  - destruct queue as [|pos rest]; cbn [floodLoop].
    + exists visited; split; [exact Hnd|split; [|exact Hcnt]].
      intros c; split; [apply Hin|]; apply closed_free_covers.
      * intros Hf; destruct (Hst Hf) as [H|[]]; exact H.
      * intros v n Hv Hn Hf; destruct (Hcl v n Hv Hn Hf) as [H|[]]; exact H.
    + destruct (count <? cellCount g) eqn:Ec; cbn [negb].
      2:{ apply Z.ltb_ge in Ec.
          exists visited; split; [exact Hnd|split; [|exact Hcnt]].
          intros c; split; [apply Hin|apply Hfull; [exact Hnd|exact Hin|lia]]. }
      apply Z.ltb_lt in Ec.
      destruct (mem pos visited || mem pos obstacles || negb (inBounds g pos)) eqn:Eskip.
      * apply IH; [|cbn [length] in Hm; rewrite !Nat2Z.inj_succ in Hm; lia].
        assert (Hpos : freeCell g obstacles pos -> In pos visited).
        { intros [Hb Ho]; rewrite Hb in Eskip.
          destruct (mem pos obstacles) eqn:Eo; [apply mem_In in Eo; contradiction|].
          rewrite !orb_false_r in Eskip; apply mem_In, Eskip. }
        refine (conj Hnd (conj Hcnt (conj Hin (conj _ (conj _ _))))).
        -- intros q Hq'; apply Hq; right; exact Hq'.
        -- intros v n Hv Hn Hf; destruct (Hcl v n Hv Hn Hf) as [H|[<-|H]]; auto.
        -- intros Hf; destruct (Hst Hf) as [H|[<-|H]]; auto.
      * apply orb_false_iff in Eskip; destruct Eskip as [Eskip Eb].
        apply orb_false_iff in Eskip; destruct Eskip as [Ev Eo].
        apply negb_false_iff in Eb.
        assert (Hv : ~ In pos visited) by (intros H; apply mem_In in H; congruence).
        assert (Hf : freeCell g obstacles pos)
          by (split; [exact Eb|intros H; apply mem_In in H; congruence]).
        assert (Hr : ffReach g obstacles s pos).
        { destruct (Hq pos (or_introl eq_refl)) as [->|(v & Hv' & Hn)].
          - split; [exact Hf|exists []; split; [exact I|reflexivity]].
          - apply (ffReach_step _ _ _ v); [apply Hin, Hv'|apply In_getNeighbors, Hn|exact Hf]. }
        apply IH.
        -- refine (conj _ (conj _ (conj _ (conj _ (conj _ _))))).
           ++ constructor; assumption.
           ++ simpl; lia.
           ++ intros v [<-|Hv']; auto.
           ++ intros q Hq'; apply in_app_or in Hq'; destruct Hq' as [Hq'|Hq'].
              ** destruct (Hq q (or_intror Hq')) as [H|(v & Hv' & Hn)]; [left; exact H|].
                 right; exists v; split; [right; exact Hv'|exact Hn].
              ** apply filter_In in Hq'; right; exists pos; split; [left; reflexivity|apply Hq'].
           ++ intros v n [<-|Hv'] Hn Hb.
              ** destruct (mem n (pos :: visited)) eqn:Em.
                 { left; apply mem_In, Em. }
                 right; apply in_or_app; right; apply filter_In; split; [exact Hn|].
                 rewrite Em; reflexivity.
              ** destruct (Hcl v n Hv' Hn Hb) as [H|[<-|H]].
                 { left; right; exact H. }
                 { left; left; reflexivity. }
                 right; apply in_or_app; left; exact H.
           ++ intros Hs; destruct (Hst Hs) as [H|[<-|H]].
              { left; right; exact H. }
              { left; left; reflexivity. }
              right; apply in_or_app; left; exact H.
        -- rewrite length_app.
           pose proof (length_filter_le (fun n => negb (mem n (pos :: visited))) (getNeighbors pos)).
           cbn [length getNeighbors] in H, Hm |- *; rewrite !Nat2Z.inj_succ in Hm; lia.
Qed.

(** [floodFill g start obstacles] counts, each once, exactly the cells that
    can be reached from [start] by steps between adjacent in-bounds cells
    outside [obstacles], [start] included; it is 0 when [start] itself is out
    of bounds or an obstacle. *)
Theorem floodFill_counts_reachable (g : GridBounds) (start : cell) (obstacles : list cell) :
  exists V, NoDup V /\
    (forall c, In c V <-> freeCell g obstacles start /\
       exists p, walk (freeCell g obstacles) start p /\ last p start = c) /\
    floodFill g start obstacles = Z.of_nat (length V).
Proof.
  destruct (floodLoop_obstacles g obstacles start (4 * Z.to_nat (cellCount g) + 1) [] [start] 0)
    as (V & Hnd & HV & E).
  - refine (conj _ (conj _ (conj _ (conj _ (conj _ _))))).
    + constructor.
    + reflexivity.
    + intros v [].
    + intros q [<-|[]]; left; reflexivity.
    + intros v n [].
    + intros _; right; left; reflexivity.
  - cbn [length Z.of_nat Pos.of_succ_nat]; rewrite Nat2Z.inj_add, Nat2Z.inj_mul.
    destruct (Z.le_gt_cases 0 (cellCount g)).
    + rewrite Z2Nat.id by assumption; lia.
    + destruct (cellCount g) eqn:Ecc; try lia; rewrite Z2Nat.inj_neg; simpl; lia.
  - exists V; split; [exact Hnd|split; [exact HV|exact E]].
Qed.

Lemma bfsPush_fold (g : GridBounds) (obstacles : list cell) (path : list cell) (ns : list cell) :
  forall visited queue,
  let st := fold_left (bfsPush g obstacles path) ns (visited, queue) in
  exists added, fst st = rev added ++ visited /\
    snd st = queue ++ map (fun n => (n, path ++ [n])) added /\
    (NoDup visited -> NoDup (fst st)) /\
    (forall n, In n added -> In n ns /\ freeCell g obstacles n /\ ~ In n visited) /\
    (forall n, In n ns -> freeCell g obstacles n -> In n (fst st)).
Proof.
  induction ns as [|a ns IH]; intros visited queue; cbn [fold_left].
  - exists []; simpl; rewrite app_nil_r; repeat split; auto; intros n [].
  - change (bfsPush g obstacles path (visited, queue) a) with
      (if mem a visited || mem a obstacles || negb (inBounds g a) then (visited, queue)
       else (a :: visited, queue ++ [(a, path ++ [a])])).
    destruct (mem a visited || mem a obstacles || negb (inBounds g a)) eqn:Eskip.
    + destruct (IH visited queue) as (added & E1 & E2 & E3 & E4 & E5).
      exists added; refine (conj E1 (conj E2 (conj E3 (conj _ _)))).
      * intros n Hn; destruct (E4 n Hn) as (H1 & H2 & H3); split; [right; exact H1|auto].
      * intros n [<-|Hn] Hf; [|exact (E5 n Hn Hf)].
        rewrite E1; apply in_or_app; right.
        destruct Hf as [Hb Ho]; rewrite Hb in Eskip.
        destruct (mem a obstacles) eqn:Eo; [apply mem_In in Eo; contradiction|].
        rewrite !orb_false_r in Eskip; apply mem_In, Eskip.
    + apply orb_false_iff in Eskip; destruct Eskip as [Eskip Eb].
      apply orb_false_iff in Eskip; destruct Eskip as [Ev Eo].
      apply negb_false_iff in Eb.
      assert (Hv : ~ In a visited) by (intros H; apply mem_In in H; congruence).
      assert (Hf : freeCell g obstacles a)
        by (split; [exact Eb|intros H; apply mem_In in H; congruence]).
      destruct (IH (a :: visited) (queue ++ [(a, path ++ [a])])) as (added & E1 & E2 & E3 & E4 & E5).
      exists (a :: added); refine (conj _ (conj _ (conj _ (conj _ _)))).
      * rewrite E1; simpl; rewrite <- app_assoc; reflexivity.
      * rewrite E2, <- app_assoc; reflexivity.
      * intros Hnd; apply E3; constructor; assumption.
      * intros n [<-|Hn]; [split; [left; reflexivity|split; assumption]|].
        destruct (E4 n Hn) as (H1 & H2 & H3).
        split; [right; exact H1|split; [exact H2|intros H; apply H3; right; exact H]].
      * intros n [<-|Hn] Hf'; [|exact (E5 n Hn Hf')].
        rewrite E1; apply in_or_app; right; left; reflexivity.
Qed.

Lemma pushed_le (g : GridBounds) (obstacles : list cell) (pushed : list cell) :
  NoDup pushed -> (forall c, In c pushed -> freeCell g obstacles c) ->
  (length pushed <= Z.to_nat (cellCount g))%nat.
Proof.
  intros Hnd Hf; destruct pushed as [|c0 rest]; [simpl; lia|].
  destruct (inBounds_dims g c0 (proj1 (Hf c0 (or_introl eq_refl)))) as [Hw Hh].
  pose proof (nodup_inbounds_le g (c0 :: rest) ltac:(lia) ltac:(lia) Hnd
                (fun c Hc => proj1 (Hf c Hc))); lia.
Qed.

Lemma bfs_done (g : GridBounds) (obstacles : list cell) (start target : cell) (k : nat)
    (D pushed : list cell) :
  bfs_inv g obstacles start target k D pushed [] ->
  forall q, walk (freeCell g obstacles) start q -> last q start <> target.
Proof.
  intros (_ & _ & _ & _ & _ & _ & Hvis & Hdcl & Ht) q Hw.
  assert (HD : forall a, In a D -> forall q, walk (freeCell g obstacles) a q -> In (last q a) D).
  { intros a Ha q'; revert a Ha; induction q' as [|c q' IH]; intros a Ha Hw'; [exact Ha|].
    destruct Hw' as (Hm & Hc & Hw'); rewrite last_cons_default; apply IH; [|exact Hw'].
    destruct (Hvis c (Hdcl a c Ha (proj2 (In_getNeighbors a c) Hm) Hc)) as [H|(p & [])]; exact H. }
  assert (Hs : In start D).
  { destruct (Hvis start ltac:(apply in_or_app; right; left; reflexivity)) as [H|(p & [])]; exact H. }
  intros E; apply Ht; rewrite <- E; exact (HD start Hs q Hw).
Qed.

Lemma snoc_split (q : list cell) :
  q <> [] -> exists q' c, q = q' ++ [c].
Proof.
  intros Hq; destruct (exists_last Hq) as (q' & c & E); exists q', c; exact E.
Qed.

Lemma bfs_shift (g : GridBounds) (obstacles : list cell) (start target : cell) (k : nat)
    (D pushed : list cell) (queue : list (cell * list cell)) :
  bfs_inv g obstacles start target k D pushed queue ->
  (forall e, In e queue -> length (snd e) = S k) ->
  bfs_inv g obstacles start target (S k) D pushed queue.
Proof.
  intros (N & F & S & O & L & V & Vis & Dcl & Dt) Hall.
  refine (conj N (conj F (conj S (conj O (conj _ (conj _ (conj Vis (conj Dcl Dt)))))))).
  - exists queue, []; rewrite app_nil_r; split; [reflexivity|split; [exact Hall|intros e []]].
  - intros c q Hw Hl Hlen.
    destruct (Nat.le_gt_cases (length q) k) as [Hle|Hgt]; [exact (V c q Hw Hl Hle)|].
    assert (Hq : q <> []) by (intros ->; simpl in Hgt; lia).
    destruct (snoc_split q Hq) as (q' & c' & ->).
    rewrite length_app in Hgt, Hlen; cbn [length] in Hgt, Hlen.
    rewrite last_app in Hl; simpl in Hl; subst c'.
    apply walk_app in Hw; destruct Hw as [Hw' (Hm & Hc & _)].
    assert (Hv : In (last q' start) (pushed ++ [start])) by (apply (V _ q' Hw' eq_refl); lia).
    destruct (Vis _ Hv) as [HdD|(p & Hp)].
    + apply (Dcl (last q' start)); [exact HdD|apply In_getNeighbors, Hm|exact Hc].
    + pose proof (O _ p q' Hp Hw' eq_refl) as H1.
      pose proof (Hall _ Hp) as H2; simpl in H2; lia.
Qed.

Lemma bfsLoop_correct (g : GridBounds) (obstacles : list cell) (start target : cell) :
  forall fuel k D pushed queue,
  bfs_inv g obstacles start target k D pushed queue ->
  (Z.to_nat (cellCount g) - length pushed + length queue <= fuel)%nat ->
  match bfsLoop g obstacles target fuel (pushed ++ [start]) queue with
  | Some path => walk (freeCell g obstacles) start path /\ last path start = target /\
      forall q, walk (freeCell g obstacles) start q -> last q start = target ->
                (length path <= length q)%nat
  | None => forall q, walk (freeCell g obstacles) start q -> last q start <> target
  end.
Proof.
  induction fuel as [|fuel IH]; intros k D pushed queue Hinv Hm.
  - assert (Hq : queue = []) by (destruct queue; [reflexivity|simpl in Hm; lia]).
    subst queue; exact (bfs_done g obstacles start target k D pushed Hinv).
  - destruct queue as [|[pos path] rest]; cbn [bfsLoop];
      [exact (bfs_done g obstacles start target k D pushed Hinv)|].
    destruct (cell_eqb pos target) eqn:Et.
    + apply cell_eqb_spec in Et; subst pos.
      destruct Hinv as (_ & _ & S & O & _).
      destruct (S target path (or_introl eq_refl)) as [Hw Hl].
      split; [exact Hw|split; [exact Hl|]].
      intros q Hq Hlq; exact (O target path q (or_introl eq_refl) Hq Hlq).
    + apply cell_eqb_false in Et.
      (* bring the head to the current level *)
      assert (Hlev : exists k', bfs_inv g obstacles start target k' D pushed ((pos, path) :: rest) /\
                                length path = k').
      { pose proof Hinv as (_ & _ & _ & _ & (a & b & E & Ha & Hb) & _).
        destruct a as [|e a].
        - simpl in E; subst b; exists (S k); split.
          + apply bfs_shift; [exact Hinv|exact Hb].
          + exact (Hb (pos, path) (or_introl eq_refl)).
        - exists k; split; [exact Hinv|].
          injection E as E0 _; subst e; exact (Ha (pos, path) (or_introl eq_refl)). }
      clear k Hinv; destruct Hlev as (k & Hinv & Hk).
      destruct (bfsPush_fold g obstacles path (getNeighbors pos) (pushed ++ [start]) rest)
        as (added & E1 & E2 & E3 & E4 & E5).
      destruct (fold_left (bfsPush g obstacles path) (getNeighbors pos) (pushed ++ [start], rest))
        as [visited' queue'] eqn:Ef.
      cbn [fst snd] in E1, E2, E3, E5.
      destruct Hinv as (N & F & S & O & (a & b & E & Ha & Hb) & V & Vis & Dcl & Dt).
      assert (Ha' : exists a1, a = (pos, path) :: a1).
      { destruct a as [|e a1]; [|injection E as E0 _; subst e; exists a1; reflexivity].
        simpl in E; subst b; pose proof (Hb (pos, path) (or_introl eq_refl)); simpl in H; lia. }
      destruct Ha' as (a1 & ->); injection E as ->.
      assert (Hvis' : visited' = (rev added ++ pushed) ++ [start]) by (rewrite E1, app_assoc; reflexivity).
      rewrite Hvis' in E3, E5; rewrite Hvis'; apply (IH k (pos :: D)).
      * unfold bfs_inv; cbv zeta; refine (conj _ (conj _ (conj _ (conj _ (conj _ (conj _ (conj _ (conj _ _)))))))).
        -- apply E3, N.
        -- intros c Hc; apply in_app_or in Hc; destruct Hc as [Hc|Hc].
           ++ apply in_rev in Hc; apply (E4 c Hc).
           ++ exact (F c Hc).
        -- intros c p Hc; rewrite E2 in Hc; apply in_app_or in Hc; destruct Hc as [Hc|Hc].
           ++ exact (S c p (or_intror Hc)).
           ++ apply in_map_iff in Hc; destruct Hc as (n & En & Hn); injection En as -> <-.
              destruct (S pos path (or_introl eq_refl)) as [Hw Hl].
              destruct (E4 c Hn) as (Hn1 & Hn2 & _).
              split; [|rewrite last_app; reflexivity].
              apply walk_app; split; [exact Hw|rewrite Hl; simpl].
              split; [apply In_getNeighbors, Hn1|split; [exact Hn2|exact I]].
        -- intros c p q Hc Hq Hlq; rewrite E2 in Hc; apply in_app_or in Hc; destruct Hc as [Hc|Hc].
           ++ exact (O c p q (or_intror Hc) Hq Hlq).
           ++ apply in_map_iff in Hc; destruct Hc as (n & En & Hn); injection En as -> <-.
              destruct (E4 c Hn) as (_ & _ & Hnv).
              rewrite length_app; cbn [length].
              destruct (Nat.le_gt_cases (length q) k) as [Hle|Hgt]; [|lia].
              exfalso; apply Hnv; exact (V c q Hq Hlq Hle).
        -- exists a1, (b ++ map (fun n => (n, path ++ [n])) added); rewrite E2, app_assoc.
           split; [reflexivity|split].
           ++ intros e He; apply Ha; right; exact He.
           ++ intros e He; apply in_app_or in He; destruct He as [He|He]; [exact (Hb e He)|].
              apply in_map_iff in He; destruct He as (n & <- & _); cbn [snd].
              rewrite length_app; simpl; lia.
        -- intros c q Hq Hlq Hle; rewrite <- app_assoc; apply in_or_app; right.
           exact (V c q Hq Hlq Hle).
        -- intros c Hc; rewrite <- app_assoc in Hc; apply in_app_or in Hc; destruct Hc as [Hc|Hc].
           ++ right; apply in_rev in Hc; exists (path ++ [c]); rewrite E2; apply in_or_app; right.
              apply in_map_iff; exists c; split; [reflexivity|exact Hc].
           ++ destruct (Vis c Hc) as [H|(p & [Ep|Hp])].
              ** left; right; exact H.
              ** injection Ep as -> _; left; left; reflexivity.
              ** right; exists p; rewrite E2; apply in_or_app; left; exact Hp.
        -- intros d n [<-|Hd] Hn Hf.
           ++ exact (E5 n Hn Hf).
           ++ rewrite <- app_assoc; apply in_or_app; right; exact (Dcl d n Hd Hn Hf).
        -- intros [H|H]; [exact (Et H)|exact (Dt H)].
      * rewrite E2, !length_app, length_rev, length_map; cbn [length] in Hm |- *.
        pose proof (pushed_le g obstacles (rev added ++ pushed)) as Hp.
        rewrite length_app, length_rev in Hp.
        assert (Hnd : NoDup (rev added ++ pushed)).
        { apply E3 in N.
          apply NoDup_app_remove_r in N; exact N. }
        assert (Hfr : forall c, In c (rev added ++ pushed) -> freeCell g obstacles c).
        { intros c Hc; apply in_app_or in Hc; destruct Hc as [Hc|Hc];
            [apply in_rev in Hc; apply (E4 c Hc)|exact (F c Hc)]. }
        specialize (Hp Hnd Hfr); rewrite length_app in Hm; lia.
Qed.

(** [bfs g start target obstacles] returns a path exactly when [target] can
    be reached from [start] by steps between adjacent in-bounds cells
    outside [obstacles]; the path it returns is such a walk, ends at
    [target], and is as short as any. *)
Theorem bfs_shortest (g : GridBounds) (start target : cell) (obstacles : list cell) :
  match bfs g start target obstacles with
  | Some path => walk (freeCell g obstacles) start path /\ last path start = target /\
      forall q, walk (freeCell g obstacles) start q -> last q start = target ->
                (length path <= length q)%nat
  | None => forall q, walk (freeCell g obstacles) start q -> last q start <> target
  end.
Proof.
  unfold bfs; change [start] with ([] ++ [start]).
  apply (bfsLoop_correct g obstacles start target _ 0 []).
  - refine (conj _ (conj _ (conj _ (conj _ (conj _ (conj _ (conj _ (conj _ _)))))))).
    + repeat constructor; intros [].
    + intros c [].
    + intros c p [E|[]]; injection E as <- <-; split; [exact I|reflexivity].
    + intros c p q [E|[]] _ _; injection E as <- <-; simpl; lia.
    + exists [(start, [])], []; split; [reflexivity|split; [intros e [<-|[]]; reflexivity|intros e []]].
    + intros c q _ Hl Hle; destruct q; [simpl in Hl; subst c; left; reflexivity|simpl in Hle; lia].
    + intros c [<-|[]]; right; exists []; left; reflexivity.
    + intros d n [].
    + intros [].
  - simpl; lia.
Qed.

Lemma flat_map_moves_nodup (head : cell) (F : cell -> list move) (ds : list cell) :
  (forall d, F d = [] \/ F d = [mkMove d (addDir head d)]) ->
  NoDup (map (addDir head) ds) -> NoDup (map pos (flat_map F ds)).
Proof.
  intros HF; induction ds as [|d ds IH]; intros Hnd; [constructor|].
  inversion Hnd as [|? ? Hnin Hnd']; subst.
  cbn [flat_map]; destruct (HF d) as [E|E]; rewrite E; [exact (IH Hnd')|].
  cbn [app map pos]; constructor; [|exact (IH Hnd')].
  intros Hin; apply Hnin; apply in_map_iff in Hin; destruct Hin as (m & Hm & Hin).
  apply in_flat_map in Hin; destruct Hin as (d' & Hd' & Hin).
  destruct (HF d') as [E'|E']; rewrite E' in Hin; [destruct Hin|].
  destruct Hin as [<-|[]]; cbn [pos] in Hm; rewrite <- Hm; apply in_map, Hd'.
Qed.

(** [getValidMoves] lists each target cell once, and a move is listed
    exactly when its direction is one of the four unit steps, its cell is
    the head moved by it, it does not reverse a non-zero [currentDir], and
    the cell is in bounds and neither an inner body segment nor a bomb. *)
Theorem getValidMoves_spec (ai : AIController) (head currentDir : cell) (snake : list cell) :
  NoDup (map pos (getValidMoves ai head currentDir snake)) /\
  forall m, In m (getValidMoves ai head currentDir snake) <->
    In (dir m) dirs /\ pos m = addDir head (dir m) /\
    ~ (cx (dir m) = - cx currentDir /\ cz (dir m) = - cz currentDir /\ currentDir <> mkCell 0 0) /\
    inBounds (grid ai) (pos m) = true /\ ~ In (pos m) (innerSegments snake ++ bombPositions ai).
Proof.
  split.
  - unfold getValidMoves; apply (flat_map_moves_nodup head).
    + intros d; destruct (isReverse currentDir d && negb (isZeroDir currentDir)); [left; reflexivity|].
      destruct (inBounds (grid ai) (addDir head d)); cbn [negb]; [|left; reflexivity].
      destruct (mem (addDir head d) (innerSegments snake ++ bombPositions ai));
        [left|right]; reflexivity.
    + destruct head as [x z]; unfold addDir; cbn.
      repeat constructor; cbn; intros H; repeat destruct H as [H|H]; try injection H; lia.
  - intros m; rewrite In_getValidMoves.
    assert (Hr : isReverse currentDir (dir m) && negb (isZeroDir currentDir) = false <->
                 ~ (cx (dir m) = - cx currentDir /\ cz (dir m) = - cz currentDir /\
                    currentDir <> mkCell 0 0)).
    { destruct currentDir as [a b]; unfold isReverse, isZeroDir; cbn [cx cz].
      destruct (a =? - cx (dir m)) eqn:E1, (b =? - cz (dir m)) eqn:E2,
               (a =? 0) eqn:E3, (b =? 0) eqn:E4; cbn;
        rewrite ?Z.eqb_eq, ?Z.eqb_neq in *; split; intros H; try discriminate;
        try reflexivity; try (intros (H1 & H2 & H3); apply H3; f_equal; lia);
        try (exfalso; apply H; split; [lia|split; [lia|intros E; injection E; lia]]);
        lia. }
    rewrite Hr, <- (mem_In (pos m)), not_true_iff_false; tauto.
Qed.

Lemma validateSteps_follow (ai : AIController) (target : cell) (path : list cell) :
  forall snake buf0 s' b,
  validateSteps ai path target snake buf0 = Some (s', b) ->
  followPath ai snake path target = Some s' /\
  ((path = [] /\ b = buf0) \/
   (path <> [] /\ b = getCycleTailBuffer ai s' /\
    Z.max 1 (floor0035 (Z.of_nat (length s'))) < b)).
Proof.
  induction path as [|step rest IH]; intros snake buf0 s' b H.
  - injection H as <- <-; split; [reflexivity|left; split; reflexivity].
  - cbn [validateSteps] in H; cbn [followPath].
    set (grows := (match rest with [] => true | _ :: _ => false end) && cell_eqb step target) in *.
    destruct (negb _) in H; [discriminate|].
    destruct (simulateMove (grid ai) (bombPositions ai) snake step grows) as [r|]; [|discriminate].
    destruct (negb (validateCycleOrder ai (sim_snake r) (sim_grows r))); [discriminate|].
    destruct (getCycleTailBuffer ai (sim_snake r) <=?
              Z.max 1 (floor0035 (Z.of_nat (length (sim_snake r))))) eqn:Eb; [discriminate|].
    apply Z.leb_gt in Eb.
    destruct (IH _ _ _ _ H) as [Hf [(-> & ->)|(Hne & Hb & Hlt)]]; split; try exact Hf.
    + right; split; [discriminate|]; injection Hf as <-; split; [reflexivity|exact Eb].
    + right; split; [discriminate|split; assumption].
Qed.

(** A shortcut proposed by [getBestShortcutMove] is the first step of a
    [findPath] path, avoiding the body without its tail and the bombs, to
    one of the nearest fruits; the snake can follow that whole path with
    legal moves, growing on the fruit, and then still reach its tail; the
    reported survival buffer is the cycle buffer of that final snake and
    exceeds [max(1, floor(0.035 * length))]. *)
Theorem getBestShortcutMove_sound (ai : AIController) (head : cell) (moves : list move)
    (snake foods : list cell) (c : candidate) :
  fst (getBestShortcutMove ai head moves snake foods) = Some c ->
  exists target path rest s',
    In target (nearestFoods head foods (if (8 <? length foods)%nat then 4%nat else 3%nat)) /\
    findPath (grid ai) head target (withoutTail snake ++ bombPositions ai) = Some path /\
    path = pos (cmove c) :: rest /\ In (cmove c) moves /\
    reason c = RToFood target /\ pathLength c = Some (Z.of_nat (length path)) /\
    followPath ai snake path target = Some s' /\ hasEscapeRoute ai s' = true /\
    survivalBuffer c = getCycleTailBuffer ai s' /\
    Z.max 1 (floor0035 (Z.of_nat (length s'))) < survivalBuffer c.
Proof.
  set (P := fun c => exists target path rest s',
    In target (nearestFoods head foods (if (8 <? length foods)%nat then 4%nat else 3%nat)) /\
    findPath (grid ai) head target (withoutTail snake ++ bombPositions ai) = Some path /\
    path = pos (cmove c) :: rest /\ In (cmove c) moves /\
    reason c = RToFood target /\ pathLength c = Some (Z.of_nat (length path)) /\
    followPath ai snake path target = Some s' /\ hasEscapeRoute ai s' = true /\
    survivalBuffer c = getCycleTailBuffer ai s' /\
    Z.max 1 (floor0035 (Z.of_nat (length s'))) < survivalBuffer c).
  enough (H : optP P (fst (getBestShortcutMove ai head moves snake foods))).
  { intros E; rewrite E in H; exact H. }
  unfold getBestShortcutMove; destruct foods as [|f0 fs]; [exact I|].
  destruct (negb _); [exact I|].
  apply (fold_inv (fun acc => optP P (fst acc))); [exact I|].
  intros [b r] t Ht Hb; simpl in Hb.
  destruct (findPath (grid ai) head t _) as [[|firstStep prest]|] eqn:Ep; try exact Hb.
  destruct (_ <? _) ; [exact Hb|].
  destruct (findMove moves firstStep) as [m|] eqn:Em; [|exact Hb].
  destruct (validateShortcutPath ai (firstStep :: prest) snake t (f0 :: fs)) as [[vs vb]|] eqn:Ev;
    [|exact Hb].
  destruct (better _ _); [|exact Hb].
  cbn [fst optP]; unfold validateShortcutPath in Ev.
  destruct (validateSteps ai (firstStep :: prest) t snake 0) as [[s' lb]|] eqn:Es; [|discriminate].
  destruct (hasEscapeRoute ai s') eqn:Eh; [|discriminate].
  injection Ev as _ <-.
  destruct (validateSteps_follow ai t _ snake 0 s' lb Es) as [Hf [(H & _)|(_ & Hb' & Hlt)]];
    [discriminate|].
  destruct (findMove_spec moves firstStep) as [Hfm _]; rewrite Em in Hfm.
  destruct (Hfm m eq_refl) as (Hin & Hpos).
  exists t, (firstStep :: prest), prest, s'; cbn [cmove reason pathLength survivalBuffer].
  rewrite Hpos; repeat split; assumption.
Qed.

Lemma getBestShortcutMove_sound_witness :
  exists s', followPath (newAIController (mkGrid 6 6 0 0)) [mkCell 1 0; mkCell 0 0]
               [mkCell 2 0; mkCell 3 0] (mkCell 3 0) = Some s' /\
             hasEscapeRoute (newAIController (mkGrid 6 6 0 0)) s' = true.
Proof.
  destruct (getBestShortcutMove_sound (newAIController (mkGrid 6 6 0 0)) (mkCell 1 0)
              (getValidMoves (newAIController (mkGrid 6 6 0 0)) (mkCell 1 0) (mkCell 1 0)
                 [mkCell 1 0; mkCell 0 0])
              [mkCell 1 0; mkCell 0 0] [mkCell 3 0]
              (mkCand (mkMove (mkCell 1 0) (mkCell 2 0)) (inject_Z 662) (RToFood (mkCell 3 0))
                 34 (Some 0) (Some 2))
              ltac:(vm_compute; reflexivity))
    as (t & p & r & s' & _ & Hp & _ & _ & Hreason & _ & Hf & He & _).
  cbn [reason] in Hreason; injection Hreason as <-.
  vm_compute in Hp; injection Hp as <-.
  exists s'; split; assumption.
Defined.

(** [getEarlyGameFoodChaseMove] proposes nothing without fruit or for a
    snake longer than 18; a move it proposes is the first step of a
    [findPath] path, avoiding the body without its tail and the bombs, to
    one of the four nearest fruits, its one-step simulation (growing when
    it lands on a fruit) succeeds and leaves an escape route, and the
    reported buffer, path length and fruit gain [max(1, 18 - length)] are
    those of that path and that simulated snake. *)
Theorem getEarlyGameFoodChaseMove_spec (ai : AIController) (head : cell) (moves : list move)
    (snake foods : list cell) :
  (foods = [] \/ (18 < length snake)%nat ->
   getEarlyGameFoodChaseMove ai head moves snake foods = None) /\
  optP (fun c => exists target path rest r,
    In target (nearestFoods head foods 4) /\
    findPath (grid ai) head target (withoutTail snake ++ bombPositions ai) = Some path /\
    path = pos (cmove c) :: rest /\ In (cmove c) moves /\ reason c = RCell target /\
    simulateMove (grid ai) (bombPositions ai) snake (pos (cmove c))
      (isFoodCell (pos (cmove c)) foods) = Some r /\
    hasEscapeRoute ai (sim_snake r) = true /\
    survivalBuffer c = getCycleTailBuffer ai (sim_snake r) /\
    pathLength c = Some (Z.of_nat (length path)) /\
    foodGain c = Some (Z.max 1 (18 - Z.of_nat (length path))))
    (getEarlyGameFoodChaseMove ai head moves snake foods).
Proof.
  split.
  - intros [->|Hl]; [reflexivity|].
    unfold getEarlyGameFoodChaseMove; destruct foods; [reflexivity|].
    apply Nat.ltb_lt in Hl; rewrite Hl; reflexivity.
  - unfold getEarlyGameFoodChaseMove; destruct foods as [|f0 fs]; [exact I|].
    destruct (18 <? length snake)%nat; [exact I|].
    apply fold_optP; [exact I|].
    intros b t Ht Hb.
    destruct (findPath (grid ai) head t _) as [[|firstStep prest]|] eqn:Ep; try exact Hb.
    destruct (findMove moves firstStep) as [m|] eqn:Em; [|exact Hb].
    destruct (simulateMove _ _ snake (pos m) _) as [r|] eqn:Es; [|exact Hb].
    destruct (hasEscapeRoute ai (sim_snake r)) eqn:Eh; cbn [negb]; [|exact Hb].
    destruct (better _ _); [|exact Hb].
    destruct (findMove_spec moves firstStep) as [Hfm _]; rewrite Em in Hfm.
    destruct (Hfm m eq_refl) as (Hin & Hpos).
    cbn [optP cmove reason survivalBuffer pathLength foodGain].
    exists t, (firstStep :: prest), prest, r.
    subst firstStep; repeat split; assumption.
Qed.

Lemma StronglySorted_app_inv {A : Type} (R : A -> A -> Prop) (l1 l2 : list A) :
  StronglySorted R (l1 ++ l2) ->
  StronglySorted R l1 /\ forall x y, In x l1 -> In y l2 -> R x y.
Proof.
  induction l1 as [|a l1 IH]; intros H; [split; [constructor|intros x y []]|].
  inversion H as [|? ? Hs Hf]; subst; destruct (IH Hs) as [H1 H2].
  split.
  - constructor; [exact H1|].
    apply Forall_forall; intros x Hx; rewrite Forall_forall in Hf; apply Hf, in_or_app; left; exact Hx.
  - intros x y [<-|Hx] Hy; [|exact (H2 x y Hx Hy)].
    rewrite Forall_forall in Hf; apply Hf, in_or_app; right; exact Hy.
Qed.

(** [nearestFoods head foods k], the first [k] fruits of the copy sorted by
    distance, holds [min k (length foods)] fruits in order of distance; with
    the fruits it leaves out it is a rearrangement of [foods], and no fruit
    left out is nearer to [head] than a kept one. *)
Theorem nearestFoods_spec (head : cell) (foods : list cell) (k : nat) :
  length (nearestFoods head foods k) = Nat.min k (length foods) /\
  Sorted (fun a b => manhattan head a <= manhattan head b) (nearestFoods head foods k) /\
  exists dropped, Permutation (nearestFoods head foods k ++ dropped) foods /\
    forall x y, In x (nearestFoods head foods k) -> In y dropped ->
      manhattan head x <= manhattan head y.
Proof.
  unfold nearestFoods.
  pose proof (sortByDistance_perm head foods) as Hp.
  pose proof (Sorted_StronglySorted
                (R := fun a b => manhattan head a <= manhattan head b)
                ltac:(intros a b c H1 H2; lia) (sortByDistance_sorted head foods)) as Hs.
  rewrite <- (firstn_skipn k (sortByDistance head foods)) in Hs, Hp.
  destruct (StronglySorted_app_inv _ _ _ Hs) as [H1 H2].
  split; [rewrite length_firstn, (Permutation_length (sortByDistance_perm head foods)); reflexivity|].
  split; [apply StronglySorted_Sorted, H1|].
  exists (skipn k (sortByDistance head foods)); split; [exact Hp|exact H2].
Qed.
(** [toLocal] and [fromLocal] undo each other, and a cell is in bounds
    exactly when its local coordinates lie in [[0, width) x [0, height)]. *)
Theorem toLocal_fromLocal (g : GridBounds) (p : cell) :
  fromLocal g (toLocal g p) = p /\ toLocal g (fromLocal g p) = p /\
  (inBounds g p = true <->
   0 <= cx (toLocal g p) < width g /\ 0 <= cz (toLocal g p) < height g).
Proof.
  destruct p as [x z]; unfold fromLocal, toLocal; cbn [cx cz].
  split; [f_equal; lia|split; [f_equal; lia|]].
  rewrite inBounds_iff; unfold maxX, maxZ; cbn [cx cz]; lia.
Qed.

(** The constructor with default offsets fails exactly when a dimension is
    below 2; otherwise the grid has the given size and [width * height]
    cells, holds the origin, and is centred on it up to half a cell:
    [minX + maxX] and [minZ + maxZ] are [0] or [-1]. *)
Theorem newGridBounds_default (w h : Z) :
  match newGridBounds w h None None with
  | None => w < 2 \/ h < 2
  | Some g => 2 <= w /\ 2 <= h /\ width g = w /\ height g = h /\ cellCount g = w * h /\
      inBounds g (mkCell 0 0) = true /\
      (minX g + maxX g = 0 \/ minX g + maxX g = -1) /\
      (minZ g + maxZ g = 0 \/ minZ g + maxZ g = -1)
  end.
Proof.
  unfold newGridBounds.
  destruct (w <? 2) eqn:Ew; [apply Z.ltb_lt in Ew; left; exact Ew|].
  destruct (h <? 2) eqn:Eh; [apply Z.ltb_lt in Eh; right; exact Eh|].
  apply Z.ltb_ge in Ew, Eh; cbn [orb].
  unfold cellCount, maxX, maxZ; cbn [width height minX minZ].
  rewrite inBounds_iff; unfold maxX, maxZ; cbn [width height minX minZ cx cz].
  pose proof (Z.div_mod w 2 ltac:(lia)); pose proof (Z.mod_pos_bound w 2 ltac:(lia)).
  pose proof (Z.div_mod h 2 ltac:(lia)); pose proof (Z.mod_pos_bound h 2 ltac:(lia)).
  repeat split; lia.
Qed.

Lemma Qfloor_index (r : Q) (n : nat) :
  (0 <= r)%Q -> (r < 1)%Q -> (0 < n)%nat ->
  0 <= Qfloor (r * inject_Z (Z.of_nat n)) /\
  (Z.to_nat (Qfloor (r * inject_Z (Z.of_nat n))) < n)%nat.
Proof.
  intros H0 H1 Hn.
  assert (Hpos : (0 <= r * inject_Z (Z.of_nat n))%Q).
  { apply Qmult_le_0_compat; [exact H0|].
    change 0%Q with (inject_Z 0); rewrite <- Zle_Qle; lia. }
  assert (Hlt : (r * inject_Z (Z.of_nat n) < inject_Z (Z.of_nat n))%Q).
  { rewrite <- (Qmult_1_l (inject_Z (Z.of_nat n))) at 2.
    apply Qmult_lt_compat_r; [|exact H1].
    change 0%Q with (inject_Z 0); rewrite <- Zlt_Qlt; lia. }
  pose proof (Qfloor_le (r * inject_Z (Z.of_nat n))) as Hf.
  assert (Hf' : (inject_Z (Qfloor (r * inject_Z (Z.of_nat n))) < inject_Z (Z.of_nat n))%Q)
    by (eapply Qle_lt_trans; eassumption).
  rewrite <- Zlt_Qlt in Hf'.
  assert (0 <= Qfloor (r * inject_Z (Z.of_nat n))).
  { apply Z.ge_le, Z.le_ge; change 0 with (Qfloor 0); apply Qfloor_resp_le; exact Hpos. }
  split; lia.
Qed.

(** For a random value [r] in [[0, 1)], [randomFreeCell] finds nothing
    exactly when every in-bounds cell is occupied, and any cell it returns
    is in bounds and not occupied. *)
Theorem randomFreeCell_spec (g : GridBounds) (occupied : list cell) (r : Q) :
  (0 <= r)%Q -> (r < 1)%Q ->
  (randomFreeCell g occupied r = None <-> forall c, inBounds g c = true -> In c occupied) /\
  (forall c, randomFreeCell g occupied r = Some c -> inBounds g c = true /\ ~ In c occupied).
Proof.
  intros H0 H1; unfold randomFreeCell.
  assert (Hfree : forall c, In c (filter (fun c => negb (mem c occupied)) (gridCells g)) <->
                            inBounds g c = true /\ ~ In c occupied).
  { intros c; rewrite filter_In, In_gridCells, negb_true_iff, <- not_true_iff_false, mem_In;
      tauto. }
  destruct (filter (fun c => negb (mem c occupied)) (gridCells g)) as [|f fs] eqn:Ef.
  - split; [split; [|reflexivity]|intros c [=]].
    intros _ c Hc; destruct (In_dec cell_eq_dec c occupied) as [H|H]; [exact H|].
    exfalso; apply (proj2 (Hfree c)); split; assumption.
  - pose proof (Qfloor_index r (length (f :: fs)) H0 H1 ltac:(simpl; lia)) as (Hi0 & Hi).
    cbv zeta; destruct (_ <? 0) eqn:Eneg; [apply Z.ltb_lt in Eneg; lia|].
    destruct (nth_error (f :: fs) _) as [c|] eqn:En.
    + split.
      * split; [discriminate|intros Hall].
        exfalso; destruct (proj1 (Hfree f) (or_introl eq_refl)) as [Hb Ho]; exact (Ho (Hall f Hb)).
      * intros c' [= <-]; apply Hfree; eapply nth_error_In; exact En.
    + apply nth_error_None in En; lia.
Qed.

Lemma randomFreeCell_witness :
  ((0 <= 1 # 2)%Q /\ (1 # 2 < 1)%Q) /\
  randomFreeCell (mkGrid 2 2 0 0) [mkCell 0 0; mkCell 1 1] (1 # 2) = Some (mkCell 1 0) /\
  forall c, randomFreeCell (mkGrid 2 2 0 0) [mkCell 0 0; mkCell 1 1] (1 # 2) = Some c ->
    inBounds (mkGrid 2 2 0 0) c = true /\ ~ In c [mkCell 0 0; mkCell 1 1].
Proof.
  split; [unfold Qle, Qlt; simpl; lia|split; [vm_compute; reflexivity|]].
  apply (proj2 (randomFreeCell_spec (mkGrid 2 2 0 0) [mkCell 0 0; mkCell 1 1] (1 # 2)
                  ltac:(unfold Qle; simpl; lia) ltac:(unfold Qlt; simpl; lia))).
Defined.
